(** * GrafoDisperso: a directed graph in Compressed-Sparse-Row form

    Shallow embedding of [GrafoDisperso.cpp] / [GrafoDisperso.h]:
    the CSR builder [construirCSR], the loader [cargarDatos] and the
    queries [BFS], [DFS], [obtenerGrado], [obtenerGradoEntrada],
    [getVecinos], [getNodoMayorGrado] and [getAristasSubgrafo].

    Conventions of the embedding.
    - A C++ [int] is a [Z].  Signed overflow is undefined behaviour in
      C++, so the additions of [construirCSR], which can leave the
      [int] range, go through [int_add], which has no result outside
      the range.  The additions of the queries stay in range ([nivel +
      1] below [profundidadMaxima], [nodo + 1] below [numNodos]) and
      are written with [+].
    - A [std::vector<T>] is a [list T]; [operator[]] outside the bounds
      is undefined behaviour, so reads and writes are [vget] and [vset],
      which have no result there.
    - Functions return [option]: [None] stands for "the C++ call has no
      defined result" (an out-of-bounds access, a signed overflow, an
      exception out of [resize]) and, for the three [while] loops, for a
      loop that has not finished within the given number of iterations.
    - Console output and timing are not part of the state. *)

From Stdlib Require Import ZArith Lia List Ascii String Sorting.Sorted Permutation.
From stdpp Require Import base tactics option list numbers sorting gmap strings.

Local Open Scope Z_scope.
Set Warnings "-clear-no-such-hyp".

(** ** Machine integers and vectors *)

Definition INT_MAX : Z := 2147483647.
Definition INT_MIN : Z := -2147483648.

Definition in_int (z : Z) : Prop := INT_MIN ≤ z ≤ INT_MAX.

(** [a + b] on [int]: no result on signed overflow. *)
Definition int_add (a b : Z) : option Z :=
  if decide (in_int (a + b)) then Some (a + b) else None.

(** Conversion of a [size_t] to [int] (modular). *)
Definition to_int (z : Z) : Z := (z + 2147483648) `mod` 4294967296 - 2147483648.

(** [v[i]] as an rvalue. *)
Definition vget {A} (v : list A) (i : Z) : option A :=
  if decide (0 ≤ i) then v !! Z.to_nat i else None.

(** [v[i] = x]. *)
Definition vset {A} (v : list A) (i : Z) (x : A) : option (list A) :=
  if decide (0 ≤ i < Z.of_nat (length v)) then Some (<[Z.to_nat i := x]> v) else None.

(** [v.resize(n, x)]: keeps the first [n] elements that are there and
    pads with copies of [x]; elements already present are NOT reset.
    A negative [int] converts to a huge [size_t] and [resize] throws. *)
Definition vresize {A} (n : Z) (x : A) (v : list A) : option (list A) :=
  if decide (0 ≤ n)
  then Some (take (Z.to_nat n) v ++ replicate (Z.to_nat n - length v)%nat x)
  else None.

(** [std::sort(v.begin() + a, v.begin() + b)] on a vector of [int]. *)
Definition sort_range (v : list Z) (a b : Z) : option (list Z) :=
  if decide (0 ≤ a ∧ a ≤ b ∧ b ≤ Z.of_nat (length v))
  then Some (take (Z.to_nat a) v
             ++ merge_sort Z.le (take (Z.to_nat (b - a)) (drop (Z.to_nat a) v))
             ++ drop (Z.to_nat b) v)
  else None.

(** A [for] loop whose body may have no result. *)
Fixpoint foldM {A S} (f : S → A → option S) (l : list A) (s : S) : option S :=
  match l with
  | [] => Some s
  | x :: l => s' ← f s x; foldM f l s'
  end.

(** ** The engine state *)

Record GrafoDisperso := mkGrafo {
  row_ptr : list Z;
  column_indices : list Z;
  values : list Z;
  numNodos : Z;
  numAristas : Z;
  gradoEntrada : list Z
}.

(** The constructor: [numNodos(0), numAristas(0)], empty vectors. *)
Definition GrafoDisperso_init : GrafoDisperso :=
  mkGrafo [] [] [] 0 0 [].

(** ** construirCSR *)

(** First pass: [row_ptr[arista.first + 1]++; gradoEntrada[arista.second]++]. *)
Definition contar (st : list Z * list Z) (arista : Z * Z) : option (list Z * list Z) :=
  let '(rp, ge) := st in
  k ← int_add arista.1 1;
  c ← vget rp k;
  c' ← int_add c 1;
  rp' ← vset rp k c';
  d ← vget ge arista.2;
  d' ← int_add d 1;
  ge' ← vset ge arista.2 d';
  Some (rp', ge').

(** Prefix sums: [row_ptr[i] += row_ptr[i - 1]]. *)
Definition acumular (rp : list Z) (i : Z) : option (list Z) :=
  a ← vget rp i;
  b ← vget rp (i - 1);
  s ← int_add a b;
  vset rp i s.

(** Second pass: [pos = currentPos[origen]++; column_indices[pos] = destino]. *)
Definition colocar (st : list Z * list Z) (arista : Z * Z) : option (list Z * list Z) :=
  let '(currentPos, ci) := st in
  let origen := arista.1 in
  let destino := arista.2 in
  pos ← vget currentPos origen;
  pos' ← int_add pos 1;
  currentPos' ← vset currentPos origen pos';
  ci' ← vset ci pos destino;
  Some (currentPos', ci').

(** Sorting of row [i]. *)
Definition ordenar (rp : list Z) (ci : list Z) (i : Z) : option (list Z) :=
  a ← vget rp i;
  b ← vget rp (i + 1);
  sort_range ci a b.

Definition construirCSR (aristas : list (Z * Z)) (maxNodo : Z) (g : GrafoDisperso)
  : option GrafoDisperso :=
  nN ← int_add maxNodo 1;
  let nA := to_int (Z.of_nat (length aristas)) in
  nN1 ← int_add nN 1;
  rp ← vresize nN1 0 (row_ptr g);
  ge ← vresize nN 0 (gradoEntrada g);
  '(rp, ge) ← foldM contar aristas (rp, ge);
  rp ← foldM acumular (seqZ 1 nN) rp;
  ci ← vresize nA 0 (column_indices g);
  vals ← vresize nA 1 (values g);
  (* std::vector<int> currentPos(row_ptr.begin(), row_ptr.end() - 1) *)
  let currentPos := take (length rp - 1)%nat rp in
  '(_, ci) ← foldM colocar aristas (currentPos, ci);
  ci ← foldM (ordenar rp) (seqZ 0 nN) ci;
  Some (mkGrafo rp ci vals nN nA ge).

(** ** cargarDatos *)

(** The lines [std::getline] delivers, one after the other. *)
Fixpoint getlines (s : string) : list string :=
  match s with
  | EmptyString => []
  | String c s' =>
      if Ascii.eqb c "010"%char then EmptyString :: getlines s'
      else match getlines s' with
           | [] => [String c EmptyString]
           | l :: ls => String c l :: ls
           end
  end.

(** [std::isspace] in the "C" locale. *)
Definition isspace (c : ascii) : bool :=
  let n := nat_of_ascii c in
  (Nat.eqb n 32 || (Nat.leb 9 n && Nat.leb n 13))%bool.

Definition digito (c : ascii) : option Z :=
  let n := Z.of_nat (nat_of_ascii c) in
  if decide (48 ≤ n ≤ 57) then Some (n - 48) else None.

Fixpoint skipws (s : string) : string :=
  match s with
  | String c s' => if isspace c then skipws s' else s
  | EmptyString => EmptyString
  end.

Fixpoint leer_digitos (s : string) (acc : Z) : Z * string :=
  match s with
  | String c s' =>
      match digito c with
      | Some d => leer_digitos s' (10 * acc + d)
      | None => (acc, s)
      end
  | EmptyString => (acc, EmptyString)
  end.

(** [iss >> n] for an [int n] (decimal base, "C" locale): leading white
    space is skipped, then an optional sign and the longest run of
    decimal digits are consumed.  The extraction fails (and the stream
    tests false) when there is no digit or the value does not fit an
    [int].  On success the rest of the stream is returned. *)
Definition extraer_int (s : string) : option (Z * string) :=
  let s := skipws s in
  let '(neg, s) :=
    match s with
    | String "-"%char s' => (true, s')
    | String "+"%char s' => (false, s')
    | _ => (false, s)
    end in
  match s with
  | String c _ =>
      match digito c with
      | Some _ =>
          let '(v, rest) := leer_digitos s 0 in
          let v := if neg : bool then - v else v in
          if decide (in_int v) then Some (v, rest) else None
      | None => None
      end
  | EmptyString => None
  end.

(** [iss >> origen >> destino]: what follows the second integer on the
    line is never looked at. *)
Definition extraer_arista (linea : string) : option (Z * Z) :=
  '(origen, resto) ← extraer_int linea;
  '(destino, _) ← extraer_int resto;
  Some (origen, destino).

(** Body of the [while (std::getline(file, linea))] loop. *)
Definition procesar_linea (st : list (Z * Z) * Z) (linea : string) : list (Z * Z) * Z :=
  let '(aristas, maxNodo) := st in
  match linea with
  | EmptyString => st
  | String "#"%char _ => st
  | _ =>
      match extraer_arista linea with
      | Some (origen, destino) =>
          (aristas ++ [(origen, destino)], Z.max maxNodo (Z.max origen destino))
      | None => st
      end
  end.

Definition leer_aristas (contenido : string) : list (Z * Z) * Z :=
  fold_left procesar_linea (getlines contenido) ([], 0).

(** The file system is a function from paths to contents; [None] is a
    file that cannot be opened.  The result is the returned [bool] and
    the engine state after the call. *)
Definition cargarDatos (fs : string → option string) (filename : string)
    (g : GrafoDisperso) : option (bool * GrafoDisperso) :=
  match fs filename with
  | None => Some (false, g)
  | Some contenido =>
      let '(aristas, maxNodo) := leer_aristas contenido in
      g' ← construirCSR aristas maxNodo g;
      Some (true, g')
  end.

(** ** Queries *)

Definition nodo_invalido (g : GrafoDisperso) (nodo : Z) : Prop :=
  nodo < 0 ∨ nodo >= numNodos g.

Global Instance nodo_invalido_dec g nodo : Decision (nodo_invalido g nodo).
Proof. unfold nodo_invalido. apply _. Defined.

Definition obtenerGrado (g : GrafoDisperso) (nodo : Z) : option Z :=
  if decide (nodo_invalido g nodo) then Some (-1)
  else
    a ← vget (row_ptr g) (nodo + 1);
    b ← vget (row_ptr g) nodo;
    Some (a - b).

Definition obtenerGradoEntrada (g : GrafoDisperso) (nodo : Z) : option Z :=
  if decide (nodo_invalido g nodo) then Some (-1)
  else vget (gradoEntrada g) nodo.

Definition getVecinos (g : GrafoDisperso) (nodo : Z) : option (list Z) :=
  if decide (nodo_invalido g nodo) then Some []
  else
    inicio ← vget (row_ptr g) nodo;
    fin ← vget (row_ptr g) (nodo + 1);
    foldM (λ vecinos i, c ← vget (column_indices g) i; Some (vecinos ++ [c]))
          (seqZ inicio (fin - inicio)) [].

Definition getNumNodos (g : GrafoDisperso) : Z := numNodos g.
Definition getNumAristas (g : GrafoDisperso) : Z := numAristas g.

(** Loop body of [getNodoMayorGrado]; the state is [(nodoMax, maxGrado)]. *)
Definition mayor_paso (g : GrafoDisperso) (st : Z * Z) (i : Z) : option (Z * Z) :=
  let '(nodoMax, maxGrado) := st in
  grado ← obtenerGrado g i;
  if decide (grado > maxGrado) then Some (i, grado) else Some (nodoMax, maxGrado).

Definition getNodoMayorGrado (g : GrafoDisperso) : option (Z * Z) :=
  foldM (mayor_paso g) (seqZ 0 (numNodos g)) (-1, 0).

(** *** BFS *)

(** Body of the inner [for (int i = inicio; i < fin; i++)] loop. *)
Definition BFS_vecino (g : GrafoDisperso) (nivel : Z)
    (st : list bool * list (Z * Z)) (i : Z) : option (list bool * list (Z * Z)) :=
  let '(visitado, cola) := st in
  vecino ← vget (column_indices g) i;
  b ← vget visitado vecino;
  if b : bool then Some (visitado, cola)
  else
    visitado' ← vset visitado vecino true;
    Some (visitado', cola ++ [(vecino, nivel + 1)]).

(** One iteration of [while (!cola.empty())] on the front [(nodoActual,
    nivel)] of the queue, the rest of the queue being [cola]. *)
Definition BFS_paso (g : GrafoDisperso) (profundidadMaxima : Z)
    (nodoActual nivel : Z) (visitado : list bool) (cola resultado : list (Z * Z))
  : option (list bool * list (Z * Z) * list (Z * Z)) :=
  let resultado := resultado ++ [(nodoActual, nivel)] in
  if decide (nivel >= profundidadMaxima) then Some (visitado, cola, resultado)
  else
    inicio ← vget (row_ptr g) nodoActual;
    fin ← vget (row_ptr g) (nodoActual + 1);
    '(visitado, cola) ← foldM (BFS_vecino g nivel) (seqZ inicio (fin - inicio)) (visitado, cola);
    Some (visitado, cola, resultado).

Fixpoint BFS_bucle (fuel : nat) (g : GrafoDisperso) (profundidadMaxima : Z)
    (visitado : list bool) (cola resultado : list (Z * Z)) : option (list (Z * Z)) :=
  match cola with
  | [] => Some resultado
  | (nodoActual, nivel) :: cola =>
      match fuel with
      | O => None
      | S fuel =>
          '(visitado, cola, resultado) ←
             BFS_paso g profundidadMaxima nodoActual nivel visitado cola resultado;
          BFS_bucle fuel g profundidadMaxima visitado cola resultado
      end
  end.

(** [fuel] bounds the number of iterations of the [while] loop. *)
Definition BFS (fuel : nat) (g : GrafoDisperso) (nodoInicio profundidadMaxima : Z)
  : option (list (Z * Z)) :=
  if decide (nodo_invalido g nodoInicio) then Some []
  else
    visitado ← vset (replicate (Z.to_nat (numNodos g)) false) nodoInicio true;
    BFS_bucle fuel g profundidadMaxima visitado [(nodoInicio, 0)] [].

(** *** DFS *)

(** Body of the inner [for (int i = fin - 1; i >= inicio; i--)] loop. *)
Definition DFS_vecino (g : GrafoDisperso) (visitado : list bool)
    (pila : list Z) (i : Z) : option (list Z) :=
  vecino ← vget (column_indices g) i;
  b ← vget visitado vecino;
  if b : bool then Some pila else Some (vecino :: pila).

(** One iteration of [while (!pila.empty())] on the top [nodoActual]. *)
Definition DFS_paso (g : GrafoDisperso) (nodoActual : Z)
    (visitado : list bool) (pila resultado : list Z)
  : option (list bool * list Z * list Z) :=
  b ← vget visitado nodoActual;
  if b : bool then Some (visitado, pila, resultado)
  else
    visitado ← vset visitado nodoActual true;
    let resultado := resultado ++ [nodoActual] in
    inicio ← vget (row_ptr g) nodoActual;
    fin ← vget (row_ptr g) (nodoActual + 1);
    pila ← foldM (DFS_vecino g visitado) (reverse (seqZ inicio (fin - inicio))) pila;
    Some (visitado, pila, resultado).

Fixpoint DFS_bucle (fuel : nat) (g : GrafoDisperso)
    (visitado : list bool) (pila resultado : list Z) : option (list Z) :=
  match pila with
  | [] => Some resultado
  | nodoActual :: pila =>
      match fuel with
      | O => None
      | S fuel =>
          '(visitado, pila, resultado) ← DFS_paso g nodoActual visitado pila resultado;
          DFS_bucle fuel g visitado pila resultado
      end
  end.

Definition DFS (fuel : nat) (g : GrafoDisperso) (nodoInicio : Z) : option (list Z) :=
  if decide (nodo_invalido g nodoInicio) then Some []
  else
    DFS_bucle fuel g (replicate (Z.to_nat (numNodos g)) false) [nodoInicio] [].

(** *** getAristasSubgrafo *)

(** Body of the inner loop; [nodosEnSubgrafo] is a [std::unordered_set<int>]. *)
Definition sub_vecino (g : GrafoDisperso) (nodoActual nivel : Z)
    (st : gset Z * list (Z * Z) * list (Z * Z)) (i : Z)
  : option (gset Z * list (Z * Z) * list (Z * Z)) :=
  let '(nodosEnSubgrafo, cola, aristas) := st in
  vecino ← vget (column_indices g) i;
  let aristas := aristas ++ [(nodoActual, vecino)] in
  if decide (vecino ∈ nodosEnSubgrafo) then Some (nodosEnSubgrafo, cola, aristas)
  else Some ({[vecino]} ∪ nodosEnSubgrafo, cola ++ [(vecino, nivel + 1)], aristas).

Definition sub_paso (g : GrafoDisperso) (profundidadMaxima : Z)
    (nodoActual nivel : Z) (nodosEnSubgrafo : gset Z) (cola aristas : list (Z * Z))
  : option (gset Z * list (Z * Z) * list (Z * Z)) :=
  if decide (nivel >= profundidadMaxima) then Some (nodosEnSubgrafo, cola, aristas)
  else
    inicio ← vget (row_ptr g) nodoActual;
    fin ← vget (row_ptr g) (nodoActual + 1);
    foldM (sub_vecino g nodoActual nivel) (seqZ inicio (fin - inicio))
          (nodosEnSubgrafo, cola, aristas).

Fixpoint sub_bucle (fuel : nat) (g : GrafoDisperso) (profundidadMaxima : Z)
    (nodosEnSubgrafo : gset Z) (cola aristas : list (Z * Z)) : option (list (Z * Z)) :=
  match cola with
  | [] => Some aristas
  | (nodoActual, nivel) :: cola =>
      match fuel with
      | O => None
      | S fuel =>
          '(nodosEnSubgrafo, cola, aristas) ←
             sub_paso g profundidadMaxima nodoActual nivel nodosEnSubgrafo cola aristas;
          sub_bucle fuel g profundidadMaxima nodosEnSubgrafo cola aristas
      end
  end.

Definition getAristasSubgrafo (fuel : nat) (g : GrafoDisperso)
    (nodoInicio profundidadMaxima : Z) : option (list (Z * Z)) :=
  if decide (nodo_invalido g nodoInicio) then Some []
  else sub_bucle fuel g profundidadMaxima {[nodoInicio]} [(nodoInicio, 0)] [].

(** ** The example of the specification *)

Definition fs_ejemplo (f : string) : option string :=
  if String.eqb f "ejemplo.txt" then Some "# ejemplo
0 1
0 2
1 2
2 0
"%string
  else if String.eqb f "otro.txt" then Some "5 0"%string
  else if String.eqb f "uno.txt" then Some "0 1"%string
  else if String.eqb f "negativo.txt" then Some "0 -1"%string
  else if String.eqb f "comentarios.txt" then Some "# nada
% tampoco
"%string
  else None.


(** The slice [v[a .. b)]. *)
Definition slice (v : list Z) (a b : Z) : list Z :=
  take (Z.to_nat (b - a)) (drop (Z.to_nat a) v).

(** The state the example file of the specification loads to. *)
Definition g_ejemplo : GrafoDisperso :=
  mkGrafo [0; 2; 3; 4] [1; 2; 2; 0] [1; 1; 1; 1] 3 4 [1; 1; 2].

(** ** Well-formed CSR states, paths and distances *)

(** The neighbour list of a node, as [getVecinos] delivers it. *)
Definition vecinos (g : GrafoDisperso) (u : Z) : list Z :=
  default [] (getVecinos g u).

(** The CSR invariant the queries rely on: [row_ptr] has one entry per
    node plus one, starts at 0, is non-decreasing and ends at the
    length of [column_indices]; every column index is a node; every row
    is sorted ascending. *)
Definition csr_ok (g : GrafoDisperso) : Prop :=
  Z.of_nat (length (row_ptr g)) = numNodos g + 1 ∧
  row_ptr g !! 0%nat = Some 0 ∧
  Sorted Z.le (row_ptr g) ∧
  last (row_ptr g) = Some (Z.of_nat (length (column_indices g))) ∧
  Forall (λ c, 0 ≤ c < numNodos g) (column_indices g) ∧
  Forall (λ i, Sorted Z.le (vecinos g i)) (seqZ 0 (numNodos g)).

Global Instance csr_ok_dec g : Decision (csr_ok g).
Proof. unfold csr_ok. apply _. Defined.

(** [camino g s v k]: there is a path of exactly [k] edges from [s] to [v]. *)
Inductive camino (g : GrafoDisperso) (s : Z) : Z → Z → Prop :=
  | camino_0 : camino g s s 0
  | camino_S v w k : camino g s v k → w ∈ vecinos g v → camino g s w (k + 1).

Definition alcanzable (g : GrafoDisperso) (s v : Z) : Prop :=
  ∃ k, camino g s v k.

(** [d] is the least number of edges of a path from [s] to [v]. *)
Definition distancia (g : GrafoDisperso) (s v d : Z) : Prop :=
  camino g s v d ∧ ∀ k, camino g s v k → d ≤ k.

(** The part of the inner [BFS] loop that follows the read of
    [column_indices[i]]. *)
Definition BFS_marcar (nivel : Z) (st : list bool * list (Z * Z)) (vecino : Z)
  : option (list bool * list (Z * Z)) :=
  let '(visitado, cola) := st in
  b ← vget visitado vecino;
  if b : bool then Some (visitado, cola)
  else
    visitado' ← vset visitado vecino true;
    Some (visitado', cola ++ [(vecino, nivel + 1)]).

(** The invariant of the [BFS] loops.  [L] is the level of the node
    dequeued last and [pend] the neighbours of that node the inner loop
    has not looked at yet ([[]] between two iterations of the outer
    loop). *)
Definition bfs_inv (g : GrafoDisperso) (s prof L : Z) (pend : list Z)
    (vis : list bool) (cola res : list (Z * Z)) : Prop :=
  Z.of_nat (length vis) = numNodos g ∧
  (∀ v, vget vis v = Some true ↔ v ∈ (res ++ cola).*1) ∧
  NoDup (res ++ cola).*1 ∧
  s ∈ (res ++ cola).*1 ∧
  (∀ v l, (v, l) ∈ res ++ cola → distancia g s v l ∧ l ≤ Z.max prof 0) ∧
  (∀ v l, (v, l) ∈ res → l ≤ L) ∧
  (∀ v l, (v, l) ∈ cola → L ≤ l ≤ L + 1) ∧
  Sorted Z.le cola.*2 ∧
  L ≤ Z.max prof 0 ∧
  (∀ u l w, (u, l) ∈ res → l < prof → w ∈ vecinos g u →
     w ∈ (res ++ cola).*1 ∨ (l = L ∧ w ∈ pend)).

(** The part of the inner loop of [getAristasSubgrafo] that follows the
    read of [column_indices[i]]. *)
Definition sub_marcar (nodoActual nivel : Z)
    (st : gset Z * list (Z * Z) * list (Z * Z)) (vecino : Z)
  : option (gset Z * list (Z * Z) * list (Z * Z)) :=
  let '(nodosEnSubgrafo, cola, aristas) := st in
  let aristas := aristas ++ [(nodoActual, vecino)] in
  if decide (vecino ∈ nodosEnSubgrafo) then Some (nodosEnSubgrafo, cola, aristas)
  else Some ({[vecino]} ∪ nodosEnSubgrafo, cola ++ [(vecino, nivel + 1)], aristas).

(** The edges [getAristasSubgrafo] emits when it dequeues [(u, l)]:
    none at a level [>= prof], all the outgoing edges of [u] below. *)
Definition aristas_nodo (g : GrafoDisperso) (prof : Z) (x : Z * Z) : list (Z * Z) :=
  if decide (x.2 >= prof) then [] else pair x.1 <$> vecinos g x.1.

(** The visited marks of [BFS] and the membership set of
    [getAristasSubgrafo] hold the same nodes. *)
Definition mismas_marcas (g : GrafoDisperso) (vis : list bool) (nodos : gset Z) : Prop :=
  ∀ v, vget vis v = Some true ↔ v ∈ nodos.

(** The part of the inner [DFS] loop that follows the read of
    [column_indices[i]]. *)
Definition DFS_apilar (visitado : list bool) (pila : list Z) (vecino : Z)
  : option (list Z) :=
  b ← vget visitado vecino;
  if b : bool then Some pila else Some (vecino :: pila).

(** The visited marks [vis] are those of the nodes in [res]. *)
Definition marcas_de (g : GrafoDisperso) (vis : list bool) (res : list Z) : Prop :=
  Z.of_nat (length vis) = numNodos g ∧ ∀ v, vget vis v = Some true ↔ v ∈ res.

(** The reference the specification compares [DFS] with: the recursive
    preorder traversal.  [vistos] is the list of the nodes visited so
    far, in the order of their first visit; a node not yet visited is
    appended and then its neighbours are traversed one after the other,
    in the order of its row.  [n] bounds the depth of the recursion;
    [dfs_recursivo] gives it one more than the number of nodes, which no
    recursion reaches. *)
Fixpoint dfs_recursivo_aux (n : nat) (g : GrafoDisperso) (vistos : list Z) (u : Z)
  : list Z :=
  match n with
  | O => vistos
  | S n =>
      if decide (u ∈ vistos) then vistos
      else fold_left (dfs_recursivo_aux n g) (vecinos g u) (vistos ++ [u])
  end.

Definition dfs_recursivo (g : GrafoDisperso) (s : Z) : list Z :=
  dfs_recursivo_aux (S (Z.to_nat (numNodos g))) g [] s.

(** Number of edges leaving the nodes of [l]. *)
Definition peso (g : GrafoDisperso) (l : list Z) : nat :=
  sum_list_with (λ v, length (vecinos g v)) l.

(** ** What an edge list determines *)

(** Number of edges of [es] that leave [k], that enter [k], and that
    leave a node below [k]; the destinations of the edges that leave
    [k], in the order of the list. *)
Definition cuenta_origen (es : list (Z * Z)) (k : Z) : Z :=
  Z.of_nat (length (filter (λ e, e.1 = k) es)).

Definition cuenta_destino (es : list (Z * Z)) (k : Z) : Z :=
  Z.of_nat (length (filter (λ e, e.2 = k) es)).

Definition prefijo (es : list (Z * Z)) (k : Z) : Z :=
  Z.of_nat (length (filter (λ e, e.1 < k) es)).

Definition destinos (es : list (Z * Z)) (k : Z) : list Z :=
  (filter (λ e, e.1 = k) es).*2.

Definition suma (l : list Z) : Z := foldr Z.add 0 l.

(** Every endpoint is a node id in [[0, M]]. *)
Definition aristas_validas (M : Z) (es : list (Z * Z)) : Prop :=
  Forall (λ e, (0 ≤ e.1 ∧ e.1 ≤ M) ∧ (0 ≤ e.2 ∧ e.2 ≤ M)) es.

Global Instance aristas_validas_dec M es : Decision (aristas_validas M es).
Proof. unfold aristas_validas. apply _. Defined.

(** [g] is the CSR form of the edge list [es] over the nodes [0 .. M]:
    [row_ptr[k]] is the number of edges that leave a node below [k],
    row [k] of [column_indices] is the sorted list of the destinations
    of the edges that leave [k], every weight is 1 and
    [gradoEntrada[k]] is the number of edges that enter [k]. *)
Definition csr_de (es : list (Z * Z)) (M : Z) (g : GrafoDisperso) : Prop :=
  numNodos g = M + 1 ∧
  numAristas g = Z.of_nat (length es) ∧
  Z.of_nat (length (row_ptr g)) = M + 2 ∧
  (∀ k, 0 ≤ k ≤ M + 1 → vget (row_ptr g) k = Some (prefijo es k)) ∧
  length (column_indices g) = length es ∧
  Forall (λ c, 0 ≤ c ≤ M) (column_indices g) ∧
  values g = replicate (length es) 1 ∧
  (∀ k, 0 ≤ k ≤ M →
     slice (column_indices g) (prefijo es k) (prefijo es (k + 1))
       = merge_sort Z.le (destinos es k)) ∧
  Z.of_nat (length (gradoEntrada g)) = M + 1 ∧
  (∀ k, 0 ≤ k ≤ M → vget (gradoEntrada g) k = Some (cuenta_destino es k)) ∧
  suma (gradoEntrada g) = Z.of_nat (length es).

(** The maximum the loader keeps while it reads the edges [es]. *)
Definition maxNodo_de (es : list (Z * Z)) : Z :=
  fold_left (λ m e, Z.max m (Z.max e.1 e.2)) es 0.

(** What one line of the file adds to the edge list. *)
Definition aristas_de_linea (linea : string) : list (Z * Z) :=
  match linea with
  | EmptyString => []
  | String "#"%char _ => []
  | _ => match extraer_arista linea with Some e => [e] | None => [] end
  end.

(** ** The shape of the lines that yield an edge *)

Fixpoint solo_espacios (s : string) : bool :=
  match s with
  | EmptyString => true
  | String c s' => isspace c && solo_espacios s'
  end.

Fixpoint solo_digitos (s : string) : bool :=
  match s with
  | EmptyString => true
  | String c s' => match digito c with Some _ => solo_digitos s' | None => false end
  end.

(** The number a string of decimal digits denotes, after the digits
    already read gave [acc]. *)
Fixpoint valor_decimal (s : string) (acc : Z) : Z :=
  match s with
  | EmptyString => acc
  | String c s' =>
      match digito c with
      | Some d => valor_decimal s' (10 * acc + d)
      | None => acc
      end
  end.

(** [lit] is an integer literal of value [v]: an optional sign and one
    or more decimal digits. *)
Definition literal_entero (lit : string) (v : Z) : Prop :=
  ∃ ds, ds ≠ EmptyString ∧ solo_digitos ds = true ∧
        ((lit = ds ∧ v = valor_decimal ds 0) ∨
         (lit = String "+"%char ds ∧ v = valor_decimal ds 0) ∨
         (lit = String "-"%char ds ∧ v = - valor_decimal ds 0)).

(** [s] is empty or starts with something other than a digit. *)
Definition sin_digito_inicial (s : string) : Prop :=
  match s with
  | EmptyString => True
  | String c _ => digito c = None
  end.

(** The lines [extraer_arista] accepts: white space, an integer, white
    space, an integer and then anything that does not go on with a
    digit.  The white space between the two integers may be missing
    when the second one starts with its sign. *)
Definition empieza_con_dos_enteros (linea : string) (a b : Z) : Prop :=
  ∃ sp1 lit1 sp2 lit2 resto,
    linea = sp1 +:+ lit1 +:+ sp2 +:+ lit2 +:+ resto ∧
    solo_espacios sp1 = true ∧ literal_entero lit1 a ∧ in_int a ∧
    solo_espacios sp2 = true ∧ literal_entero lit2 b ∧ in_int b ∧
    sin_digito_inicial (sp2 +:+ lit2) ∧
    sin_digito_inicial resto.

(** Follows the specification's words, "the line contains exactly two
    whitespace-separated integers": the line, cut at white space, gives
    two non-empty words and each of them is an integer literal. *)
Fixpoint spec_palabras (s : string) : list string :=
  match s with
  | EmptyString => []
  | String c s' =>
      if isspace c then EmptyString :: spec_palabras s'
      else match spec_palabras s' with
           | [] => [String c EmptyString]
           | w :: ws => String c w :: ws
           end
  end.

Definition spec_es_entero (w : string) : bool :=
  match w with
  | String "+"%char (String c ds) => solo_digitos (String c ds)
  | String "-"%char (String c ds) => solo_digitos (String c ds)
  | String c ds => solo_digitos (String c ds)
  | EmptyString => false
  end.

Definition spec_dos_enteros (linea : string) : bool :=
  match filter (λ w, w ≠ EmptyString) (spec_palabras linea) with
  | [w1; w2] => spec_es_entero w1 && spec_es_entero w2
  | _ => false
  end.

(** ** printDebugInfo *)

(** The numbers [printDebugInfo] writes after "row_ptr (primeros 10):"
    and after "column_indices (primeros 20):"; the two loops run up to
    [std::min(10, (int)row_ptr.size())] and
    [std::min(20, (int)column_indices.size())]. *)
Definition printDebugInfo (g : GrafoDisperso) : option (list Z * list Z) :=
  filas ← foldM (λ salida i, x ← vget (row_ptr g) i; Some (salida ++ [x]))
            (seqZ 0 (Z.min 10 (to_int (Z.of_nat (length (row_ptr g)))))) [];
  columnas ← foldM (λ salida i, x ← vget (column_indices g) i; Some (salida ++ [x]))
               (seqZ 0 (Z.min 20 (to_int (Z.of_nat (length (column_indices g)))))) [];
  Some (filas, columnas).

(** ** Lines of a file *)

(** [s] holds no line feed. *)
Fixpoint sin_salto (s : string) : bool :=
  match s with
  | EmptyString => true
  | String c s' => negb (Ascii.eqb c "010"%char) && sin_salto s'
  end.

(** The text of the example file (the one [fs_ejemplo] holds). *)
Definition contenido_ejemplo : string := "# ejemplo
0 1
0 2
1 2
2 0
".

(** The state [otro.txt] (the edge 5 -> 0) loads to on a fresh engine,
    and the state [uno.txt] (the edge 0 -> 1) then leaves. *)
Definition g_otro : GrafoDisperso :=
  mkGrafo [0; 0; 0; 0; 0; 0; 1] [0] [1] 6 1 [1; 0; 0; 0; 0; 0].

Definition g_otro_uno : GrafoDisperso :=
  mkGrafo [0; 1; 1] [1] [1] 2 1 [1; 1].

(** ** Engines that hold no edge *)

(** The counters of the engine are all zero and its weights all one: the
    constructor leaves such a state, and so does a load that reads no
    edge. *)
Definition limpio (g : GrafoDisperso) : Prop :=
  Forall (λ x, x = 0) (row_ptr g) ∧ Forall (λ x, x = 0) (gradoEntrada g) ∧
  Forall (λ x, x = 0) (column_indices g) ∧ Forall (λ x, x = 1) (values g).

Global Instance limpio_dec g : Decision (limpio g).
Proof. unfold limpio. apply _. Defined.

(** The state a file without edges loads to: the single node 0. *)
Definition g_sin_aristas : GrafoDisperso := mkGrafo [0; 0] [] [] 1 0 [0].

(** The text of [comentarios.txt] in [fs_ejemplo]: no line is an edge. *)
Definition contenido_comentarios : string := "# nada
% tampoco
".

(** * Properties *)

(** ** Vectors and loops *)

Section vectores.
Context {A : Type}.
Implicit Types (v : list A) (i : Z) (x : A).

Lemma vget_Some v i x :
  vget v i = Some x ↔ 0 ≤ i ∧ v !! Z.to_nat i = Some x.
Proof. unfold vget. case_decide; [tauto|]. split; [done|tauto]. Qed.

Lemma vget_lt v i x : vget v i = Some x → 0 ≤ i < Z.of_nat (length v).
Proof.
  rewrite vget_Some. intros [? Hl]. apply lookup_lt_Some in Hl. lia.
Qed.

Lemma vget_is_Some v i : 0 ≤ i < Z.of_nat (length v) → is_Some (vget v i).
Proof.
  intros. unfold vget. rewrite decide_True by lia.
  apply lookup_lt_is_Some. lia.
Qed.

Lemma vget_nat v (n : nat) : vget v (Z.of_nat n) = v !! n.
Proof. unfold vget. rewrite decide_True by lia. by rewrite Nat2Z.id. Qed.

Lemma vset_Some v i x v' :
  vset v i x = Some v' ↔
  0 ≤ i < Z.of_nat (length v) ∧ v' = <[Z.to_nat i := x]> v.
Proof.
  unfold vset. case_decide; [|split; [done|tauto]].
  split; [by intros [= <-]|by intros [_ ->]].
Qed.

Lemma vset_lt v i x :
  0 ≤ i < Z.of_nat (length v) → vset v i x = Some (<[Z.to_nat i := x]> v).
Proof. intros. unfold vset. by rewrite decide_True. Qed.

Lemma vset_length v i x v' : vset v i x = Some v' → length v' = length v.
Proof. rewrite vset_Some. intros [_ ->]. apply length_insert. Qed.

Lemma vget_vset v i j x v' :
  vset v i x = Some v' →
  vget v' j = if decide (j = i) then Some x else vget v j.
Proof.
  rewrite vset_Some. intros [Hi ->]. unfold vget.
  case_decide as Hj; [|by case_decide; [lia|]].
  case_decide as Hij.
  - subst. apply list_lookup_insert_eq. lia.
  - apply list_lookup_insert_ne. lia.
Qed.

Lemma vresize_Some n x v :
  0 ≤ n →
  vresize n x v = Some (take (Z.to_nat n) v ++ replicate (Z.to_nat n - length v)%nat x).
Proof. intros. unfold vresize. by rewrite decide_True. Qed.

End vectores.

Lemma int_add_Some a b : in_int (a + b) → int_add a b = Some (a + b).
Proof. intros. unfold int_add. by rewrite decide_True. Qed.

Lemma int_add_inv a b c : int_add a b = Some c → c = a + b ∧ in_int c.
Proof. unfold int_add. case_decide; naive_solver. Qed.

Section bucles.
Context {A S : Type}.
Implicit Types (f : S → A → option S) (l : list A) (s : S).

Lemma foldM_app f l1 l2 s :
  foldM f (l1 ++ l2) s = s' ← foldM f l1 s; foldM f l2 s'.
Proof.
  revert s. induction l1 as [|x l1 IH]; intros s; simpl; [done|].
  destruct (f s x) as [s'|]; simpl; [apply IH|done].
Qed.

Lemma foldM_snoc f l x s :
  foldM f (l ++ [x]) s = s' ← foldM f l s; f s' x.
Proof.
  rewrite foldM_app. destruct (foldM f l s) as [s'|]; simpl; [|done].
  by destruct (f s' x).
Qed.

(** Invariant rule: [I done s] holds between iterations, [done] being
    the elements already processed. *)
Lemma foldM_inv (I : list A → S → Prop) f l s :
  I [] s →
  (∀ done x s, (∃ rest, l = done ++ x :: rest) → I done s →
     ∃ s', f s x = Some s' ∧ I (done ++ [x]) s') →
  ∃ s', foldM f l s = Some s' ∧ I l s'.
Proof.
  intros H0 Hstep.
  assert (∀ rest done s, l = done ++ rest → I done s →
            ∃ s', foldM f rest s = Some s' ∧ I l s') as Hgen.
  { induction rest as [|x rest IH]; intros done s1 Hl HI; simpl.
    - rewrite app_nil_r in Hl. subst. eauto.
    - destruct (Hstep done x s1) as (s2 & -> & HI2); [eauto|done|]. simpl.
      apply (IH (done ++ [x])); [|done]. by rewrite <-app_assoc. }
  by apply (Hgen l []).
Qed.

(** The converse reading: a loop that has a result went through
    states satisfying the invariant. *)
Lemma foldM_inv_Some (I : list A → S → Prop) f l s s' :
  foldM f l s = Some s' →
  I [] s →
  (∀ done x s s', (∃ rest, l = done ++ x :: rest) → I done s →
     f s x = Some s' → I (done ++ [x]) s') →
  I l s'.
Proof.
  intros Hrun H0 Hstep.
  assert (∀ rest done s, l = done ++ rest → I done s →
            foldM f rest s = Some s' → I l s') as Hgen.
  { induction rest as [|x rest IH]; intros done s1 Hl HI; simpl.
    - rewrite app_nil_r in Hl. subst. by intros [= <-].
    - destruct (f s1 x) as [s2|] eqn:Hf; simpl; [|done].
      apply (IH (done ++ [x])); [by rewrite <-app_assoc|].
      eapply Hstep; eauto. }
  by apply (Hgen l [] s).
Qed.
End bucles.

(** Reading a vector at a list of indices inside a loop body is the
    loop over the values read. *)
Lemma foldM_vget {S} (ci : list Z) (body f : S → Z → option S) (idx cs : list Z) (s : S) :
  (∀ s i, body s i = c ← vget ci i; f s c) →
  mapM (vget ci) idx = Some cs →
  foldM body idx s = foldM f cs s.
Proof.
  intros Hbody. rewrite mapM_Some. intros H. revert s.
  induction H as [|i c idx cs Hi _ IH]; intros s; simpl; [done|].
  rewrite Hbody, Hi. simpl. destruct (f s c); simpl; [apply IH|done].
Qed.

Lemma mapM_vget_seqZ (v : list Z) (a b : Z) :
  0 ≤ a → b ≤ Z.of_nat (length v) →
  mapM (vget v) (seqZ a (b - a)) = Some (slice v a b).
Proof.
  intros Ha Hb. apply mapM_Some, Forall2_same_length_lookup. split.
  - unfold slice. rewrite length_seqZ, length_take, length_drop. lia.
  - intros i x y Hx Hy. apply lookup_seqZ in Hx as [-> Hi].
    unfold slice in Hy. rewrite lookup_take_lt, lookup_drop in Hy by lia.
    unfold vget. rewrite decide_True by lia. rewrite <-Hy. f_equal. lia.
Qed.

Lemma mapM_reverse {A B} (f : A → option B) (l : list A) (k : list B) :
  mapM f l = Some k → mapM f (reverse l) = Some (reverse k).
Proof.
  rewrite !mapM_Some. intros H. induction H; simpl; [constructor|].
  rewrite !reverse_cons. apply Forall2_app; [done|]. by repeat constructor.
Qed.

Lemma seqZ_split a n done x rest :
  seqZ a n = done ++ x :: rest →
  x = a + Z.of_nat (length done) ∧ x < a + n ∧
  done = seqZ a (Z.of_nat (length done)).
Proof.
  intros H.
  assert (seqZ a n !! length done = Some x) as Hx.
  { rewrite H. by apply list_lookup_middle. }
  apply lookup_seqZ in Hx as [-> ?]. split; [done|]. split; [lia|].
  apply list_eq. intros k.
  destruct (decide (k < length done)%nat) as [Hk|Hk].
  - rewrite lookup_seqZ_lt by lia.
    assert (seqZ a n !! k = done !! k) as <-.
    { rewrite H. by apply lookup_app_l. }
    apply lookup_seqZ_lt. lia.
  - rewrite lookup_seqZ_ge by lia. apply lookup_ge_None. lia.
Qed.

(** ** Queries on an invalid node *)

(** C4.  On every engine state and for every node id outside
    [[0, numNodos)], the degree queries return the sentinel -1 and
    [getVecinos], [BFS], [DFS] and [getAristasSubgrafo] return an empty
    sequence; each of them has a result (no access fails). *)
Theorem consultas_nodo_invalido (g : GrafoDisperso) (nodo prof : Z) (fuel : nat) :
  nodo < 0 ∨ nodo >= numNodos g →
  obtenerGrado g nodo = Some (-1) ∧
  obtenerGradoEntrada g nodo = Some (-1) ∧
  getVecinos g nodo = Some [] ∧
  BFS fuel g nodo prof = Some [] ∧
  DFS fuel g nodo = Some [] ∧
  getAristasSubgrafo fuel g nodo prof = Some [].
Proof.
  intros H.
  unfold obtenerGrado, obtenerGradoEntrada, getVecinos, BFS, DFS, getAristasSubgrafo.
  by rewrite !decide_True.
Qed.

Lemma consultas_nodo_invalido_witness :
  (3 < 0 ∨ 3 >= numNodos g_ejemplo) ∧
  obtenerGrado g_ejemplo 3 = Some (-1) ∧
  obtenerGradoEntrada g_ejemplo 3 = Some (-1) ∧
  getVecinos g_ejemplo 3 = Some [] ∧
  BFS 3 g_ejemplo 3 2 = Some [] ∧
  DFS 3 g_ejemplo 3 = Some [] ∧
  getAristasSubgrafo 3 g_ejemplo 3 2 = Some [].
Proof.
  split; [right; simpl; lia|].
  apply (consultas_nodo_invalido g_ejemplo 3 2 3). right. simpl. lia.
Defined.

Example consultas_nodo_negativo :
  obtenerGrado g_ejemplo (-1) = Some (-1) ∧ getVecinos g_ejemplo (-1) = Some [].
Proof. split; reflexivity. Qed.

(** ** A load that cannot open its file *)

(** C9.  When the file cannot be opened, [cargarDatos] returns [false]
    and the engine state after the call is the state before it: the
    CSR vectors, the node count and the edge count are the same, and so
    is the result of every query. *)
Theorem cargarDatos_no_abre (fs : string → option string) (filename : string)
    (g : GrafoDisperso) :
  fs filename = None →
  ∃ g', cargarDatos fs filename g = Some (false, g') ∧
        g' = g ∧
        row_ptr g' = row_ptr g ∧ column_indices g' = column_indices g ∧
        values g' = values g ∧ gradoEntrada g' = gradoEntrada g ∧
        getNumNodos g' = getNumNodos g ∧ getNumAristas g' = getNumAristas g ∧
        (∀ nodo, obtenerGrado g' nodo = obtenerGrado g nodo ∧
                 obtenerGradoEntrada g' nodo = obtenerGradoEntrada g nodo ∧
                 getVecinos g' nodo = getVecinos g nodo) ∧
        getNodoMayorGrado g' = getNodoMayorGrado g ∧
        (∀ fuel nodo prof,
           BFS fuel g' nodo prof = BFS fuel g nodo prof ∧
           DFS fuel g' nodo = DFS fuel g nodo ∧
           getAristasSubgrafo fuel g' nodo prof = getAristasSubgrafo fuel g nodo prof).
Proof.
  intros H. exists g. unfold cargarDatos. rewrite H.
  split; [done|]. split; [done|]. repeat (split; [reflexivity|]).
  split; [by intros|]. split; [done|]. by intros.
Qed.

Lemma cargarDatos_no_abre_witness :
  fs_ejemplo "no_existe.txt" = None ∧
  ∃ g', cargarDatos fs_ejemplo "no_existe.txt" g_ejemplo = Some (false, g') ∧
        g' = g_ejemplo ∧
        row_ptr g' = row_ptr g_ejemplo ∧
        column_indices g' = column_indices g_ejemplo ∧
        values g' = values g_ejemplo ∧ gradoEntrada g' = gradoEntrada g_ejemplo ∧
        getNumNodos g' = getNumNodos g_ejemplo ∧
        getNumAristas g' = getNumAristas g_ejemplo ∧
        (∀ nodo, obtenerGrado g' nodo = obtenerGrado g_ejemplo nodo ∧
                 obtenerGradoEntrada g' nodo = obtenerGradoEntrada g_ejemplo nodo ∧
                 getVecinos g' nodo = getVecinos g_ejemplo nodo) ∧
        getNodoMayorGrado g' = getNodoMayorGrado g_ejemplo ∧
        (∀ fuel nodo prof,
           BFS fuel g' nodo prof = BFS fuel g_ejemplo nodo prof ∧
           DFS fuel g' nodo = DFS fuel g_ejemplo nodo ∧
           getAristasSubgrafo fuel g' nodo prof
             = getAristasSubgrafo fuel g_ejemplo nodo prof).
Proof.
  split; [reflexivity|].
  apply (cargarDatos_no_abre fs_ejemplo "no_existe.txt" g_ejemplo). reflexivity.
Defined.

(** ** The node of highest out-degree *)

Lemma obtenerGrado_valido g i :
  Z.of_nat (length (row_ptr g)) = numNodos g + 1 →
  0 ≤ i < numNodos g →
  ∃ a b, vget (row_ptr g) i = Some a ∧ vget (row_ptr g) (i + 1) = Some b ∧
         obtenerGrado g i = Some (b - a).
Proof.
  intros Hlen Hi.
  destruct (vget_is_Some (row_ptr g) i) as [a Ha]; [lia|].
  destruct (vget_is_Some (row_ptr g) (i + 1)) as [b Hb]; [lia|].
  exists a, b. unfold obtenerGrado, nodo_invalido.
  rewrite decide_False by lia. by rewrite Ha, Hb.
Qed.

Lemma getNodoMayorGrado_inv g :
  (0 < numNodos g → Z.of_nat (length (row_ptr g)) = numNodos g + 1) →
  ∃ nodoMax maxGrado,
    getNodoMayorGrado g = Some (nodoMax, maxGrado) ∧
    (∀ i, 0 ≤ i < numNodos g → ∃ d, obtenerGrado g i = Some d ∧ d ≤ maxGrado) ∧
    ((nodoMax = -1 ∧ maxGrado = 0) ∨
     (0 ≤ nodoMax < numNodos g ∧ 0 < maxGrado ∧
      obtenerGrado g nodoMax = Some maxGrado ∧
      ∀ i, 0 ≤ i < nodoMax → ∃ d, obtenerGrado g i = Some d ∧ d < maxGrado)).
Proof.
  intros Hlen. unfold getNodoMayorGrado.
  set (I := λ (done : list Z) (st : Z * Z),
    let j := Z.of_nat (length done) in
    (∀ i, 0 ≤ i < j → ∃ d, obtenerGrado g i = Some d ∧ d ≤ st.2) ∧
    ((st.1 = -1 ∧ st.2 = 0) ∨
     (0 ≤ st.1 < j ∧ 0 < st.2 ∧ obtenerGrado g st.1 = Some st.2 ∧
      ∀ i, 0 ≤ i < st.1 → ∃ d, obtenerGrado g i = Some d ∧ d < st.2))).
  destruct (foldM_inv I (mayor_paso g) (seqZ 0 (numNodos g)) (-1, 0))
    as ([nodoMax maxGrado] & Hrun & Hall & Hmax).
  - split; [simpl; lia|]. by left.
  - intros done x [nodoMax maxGrado] [rest Hsplit] [Hall Hmax]. simpl in *.
    apply seqZ_split in Hsplit as (Hx & Hlt & _). simpl in Hx.
    destruct (obtenerGrado_valido g x) as (a & b & _ & _ & Hg); [apply Hlen; lia|lia|].
    rewrite Hg. simpl. case_decide as Hcmp.
    + eexists. split; [done|]. unfold I. simpl. rewrite length_app. simpl. split.
      * intros i Hi. destruct (decide (i = x)) as [->|]; [eauto with lia|].
        destruct (Hall i) as (d & ? & ?); [lia|]. exists d. split; [done|lia].
      * right. split; [lia|]. split; [destruct Hmax; lia|]. split; [done|].
        intros i Hi. destruct (Hall i) as (d & ? & ?); [lia|].
        exists d. split; [done|lia].
    + eexists. split; [done|]. unfold I. simpl. rewrite length_app. simpl. split.
      * intros i Hi. destruct (decide (i = x)) as [->|]; [eauto with lia|].
        apply Hall. lia.
      * destruct Hmax as [?|(? & ? & ? & ?)]; [by left|]. right.
        split; [lia|]. done.
  - exists nodoMax, maxGrado. split; [done|].
    unfold I in *. rewrite length_seqZ in *. simpl in *. split.
    + intros i Hi. apply Hall. lia.
    + destruct Hmax as [?|(? & ? & ? & ?)]; [by left|]. right.
      split; [lia|]. done.
Qed.

(** C8.  On every state in which [row_ptr] has [numNodos + 1] entries
    when there are nodes (the constructor and every load leave such a
    state), [getNodoMayorGrado] has a result [(nodoMax, maxGrado)].
    When some node has a positive out-degree, [maxGrado] is the
    greatest out-degree and [nodoMax] the lowest node id that has it;
    when the graph has no node, or every node has out-degree 0, the
    result is [(-1, 0)]. *)
Theorem getNodoMayorGrado_correcto (g : GrafoDisperso) :
  (0 < numNodos g → Z.of_nat (length (row_ptr g)) = numNodos g + 1) →
  ∃ nodoMax maxGrado,
    getNodoMayorGrado g = Some (nodoMax, maxGrado) ∧
    ((∃ i d, 0 ≤ i < numNodos g ∧ obtenerGrado g i = Some d ∧ 0 < d) →
       0 ≤ nodoMax < numNodos g ∧
       obtenerGrado g nodoMax = Some maxGrado ∧
       (∀ i d, 0 ≤ i < numNodos g → obtenerGrado g i = Some d → d ≤ maxGrado) ∧
       (∀ i d, 0 ≤ i < nodoMax → obtenerGrado g i = Some d → d < maxGrado)) ∧
    (numNodos g = 0 → (nodoMax, maxGrado) = (-1, 0)) ∧
    ((∀ i, 0 ≤ i < numNodos g → obtenerGrado g i = Some 0) →
       (nodoMax, maxGrado) = (-1, 0)).
Proof.
  intros Hlen.
  destruct (getNodoMayorGrado_inv g Hlen) as (nodoMax & maxGrado & Hrun & Hall & Hmax).
  exists nodoMax, maxGrado. split; [done|]. split; [|split].
  - intros (i & d & Hi & Hd & Hpos).
    destruct (Hall i Hi) as (d' & Hd' & Hle). simplify_eq.
    destruct Hmax as [[-> ->]|(Hr & Hp & Hg & Hlow)]; [lia|].
    split; [done|]. split; [done|]. split.
    + intros j dj Hj Hdj. destruct (Hall j Hj) as (? & ? & ?). by simplify_eq.
    + intros j dj Hj Hdj. destruct (Hlow j Hj) as (? & ? & ?). by simplify_eq.
  - intros Hn. destruct Hmax as [[-> ->]|(Hr & _)]; [done|lia].
  - intros Hz. destruct Hmax as [[-> ->]|(Hr & Hp & Hg & _)]; [done|].
    rewrite Hz in Hg by done. simplify_eq. lia.
Qed.

Lemma getNodoMayorGrado_correcto_witness :
  (0 < numNodos g_ejemplo →
   Z.of_nat (length (row_ptr g_ejemplo)) = numNodos g_ejemplo + 1) ∧
  ∃ nodoMax maxGrado,
    getNodoMayorGrado g_ejemplo = Some (nodoMax, maxGrado) ∧
    ((∃ i d, 0 ≤ i < numNodos g_ejemplo ∧ obtenerGrado g_ejemplo i = Some d ∧ 0 < d) →
       0 ≤ nodoMax < numNodos g_ejemplo ∧
       obtenerGrado g_ejemplo nodoMax = Some maxGrado ∧
       (∀ i d, 0 ≤ i < numNodos g_ejemplo → obtenerGrado g_ejemplo i = Some d → d ≤ maxGrado) ∧
       (∀ i d, 0 ≤ i < nodoMax → obtenerGrado g_ejemplo i = Some d → d < maxGrado)) ∧
    (numNodos g_ejemplo = 0 → (nodoMax, maxGrado) = (-1, 0)) ∧
    ((∀ i, 0 ≤ i < numNodos g_ejemplo → obtenerGrado g_ejemplo i = Some 0) →
       (nodoMax, maxGrado) = (-1, 0)).
Proof.
  split; [reflexivity|].
  apply (getNodoMayorGrado_correcto g_ejemplo). reflexivity.
Defined.

Example getNodoMayorGrado_sin_nodos :
  getNodoMayorGrado GrafoDisperso_init = Some (-1, 0).
Proof. reflexivity. Qed.

Example getNodoMayorGrado_ejemplo : getNodoMayorGrado g_ejemplo = Some (0, 2).
Proof. reflexivity. Qed.

Example getNodoMayorGrado_sin_aristas :
  getNodoMayorGrado (mkGrafo [0; 0] [] [] 1 0 [0]) = Some (-1, 0).
Proof. reflexivity. Qed.

(** ** Well-formed CSR states *)

Lemma Sorted_le_lookup (l : list Z) (i j : nat) (x y : Z) :
  Sorted Z.le l → (i ≤ j)%nat → l !! i = Some x → l !! j = Some y → x ≤ y.
Proof.
  intros Hs Hij Hx Hy.
  destruct (decide (i = j)) as [->|Hne]; [simplify_eq; lia|].
  apply (Sorted_StronglySorted _) in Hs.
  rewrite <-(take_drop j l) in Hs.
  eapply StronglySorted_app_1_elem_of; [exact Hs| |].
  - apply elem_of_take. exists i. split; [done|lia].
  - apply list_elem_of_lookup. exists 0%nat. rewrite lookup_drop.
    by rewrite Nat.add_0_r.
Qed.

Lemma foldM_acumula (cs acc : list Z) :
  foldM (λ vecinos c, Some (vecinos ++ [c])) cs acc = Some (acc ++ cs).
Proof.
  revert acc. induction cs as [|c cs IH]; intros acc; simpl.
  - by rewrite app_nil_r.
  - rewrite IH. by rewrite <-app_assoc.
Qed.

Section csr.
Context (g : GrafoDisperso) (Hok : csr_ok g).

Lemma csr_ok_numNodos : 0 ≤ numNodos g.
Proof.
  destruct Hok as (Hlen & H0 & _). apply lookup_lt_Some in H0. lia.
Qed.

Lemma csr_ok_fila u :
  0 ≤ u < numNodos g →
  ∃ a b, vget (row_ptr g) u = Some a ∧ vget (row_ptr g) (u + 1) = Some b ∧
         0 ≤ a ∧ a ≤ b ∧ b ≤ Z.of_nat (length (column_indices g)).
Proof.
  intros Hu. destruct Hok as (Hlen & H0 & Hs & Hlast & _).
  destruct (vget_is_Some (row_ptr g) u) as [a Ha]; [lia|].
  destruct (vget_is_Some (row_ptr g) (u + 1)) as [b Hb]; [lia|].
  exists a, b. split; [done|]. split; [done|].
  apply vget_Some in Ha as [_ Ha]. apply vget_Some in Hb as [_ Hb].
  rewrite last_lookup in Hlast.
  split; [|split].
  - eapply (Sorted_le_lookup _ 0%nat); [done| |done|done]. lia.
  - eapply Sorted_le_lookup; [done| |done|done]. lia.
  - eapply Sorted_le_lookup; [done| |done|done]. lia.
Qed.

Lemma getVecinos_slice u a b :
  0 ≤ u < numNodos g →
  vget (row_ptr g) u = Some a → vget (row_ptr g) (u + 1) = Some b →
  0 ≤ a → b ≤ Z.of_nat (length (column_indices g)) →
  getVecinos g u = Some (slice (column_indices g) a b).
Proof.
  intros Hu Ha Hb Ha0 Hbl. unfold getVecinos, nodo_invalido.
  rewrite decide_False by lia. rewrite Ha, Hb. simpl.
  erewrite (foldM_vget _ _ (λ vecinos c, Some (vecinos ++ [c])));
    [|done|by apply mapM_vget_seqZ].
  apply foldM_acumula.
Qed.

Lemma csr_ok_vecinos u :
  0 ≤ u < numNodos g →
  ∃ a b, vget (row_ptr g) u = Some a ∧ vget (row_ptr g) (u + 1) = Some b ∧
         mapM (vget (column_indices g)) (seqZ a (b - a)) = Some (vecinos g u) ∧
         getVecinos g u = Some (vecinos g u).
Proof.
  intros Hu. destruct (csr_ok_fila u Hu) as (a & b & Ha & Hb & ? & ? & ?).
  exists a, b. split; [done|]. split; [done|].
  unfold vecinos. rewrite (getVecinos_slice u a b) by done. simpl.
  split; [|done]. by apply mapM_vget_seqZ.
Qed.

Lemma vecinos_validos u w : w ∈ vecinos g u → 0 ≤ w < numNodos g.
Proof.
  intros Hw.
  destruct (decide (0 ≤ u < numNodos g)) as [Hu|Hu].
  - destruct (csr_ok_fila u Hu) as (a & b & Ha & Hb & ? & ? & ?).
    unfold vecinos in Hw. rewrite (getVecinos_slice u a b) in Hw by done.
    simpl in Hw. unfold slice in Hw.
    destruct Hok as (_ & _ & _ & _ & Hcols & _).
    rewrite Forall_forall in Hcols. apply Hcols.
    eapply list_elem_of_lookup in Hw as [i Hi].
    apply lookup_take_Some in Hi as [Hi _]. rewrite lookup_drop in Hi.
    by eapply list_elem_of_lookup_2.
  - unfold vecinos, getVecinos, nodo_invalido in Hw.
    rewrite decide_True in Hw by lia. by apply elem_of_nil in Hw.
Qed.

Lemma vecinos_ordenados u : Sorted Z.le (vecinos g u).
Proof.
  destruct (decide (0 ≤ u < numNodos g)) as [Hu|Hu].
  - destruct Hok as (_ & _ & _ & _ & _ & Hs).
    rewrite Forall_forall in Hs. apply Hs, elem_of_seqZ. lia.
  - unfold vecinos, getVecinos, nodo_invalido.
    rewrite decide_True by lia. constructor.
Qed.

Lemma camino_nonneg s v k : camino g s v k → 0 ≤ k.
Proof. induction 1; lia. Qed.

Lemma camino_valido s v k : 0 ≤ s < numNodos g → camino g s v k → 0 ≤ v < numNodos g.
Proof. intros Hs. induction 1; [done|]. by eapply vecinos_validos. Qed.

Lemma distancia_unica s v d1 d2 : distancia g s v d1 → distancia g s v d2 → d1 = d2.
Proof. intros [H1 M1] [H2 M2]. apply M1 in H2. apply M2 in H1. lia. Qed.
End csr.

(** ** BFS *)

Lemma Sorted_le_snoc (l : list Z) (x : Z) :
  Sorted Z.le l → (∀ y, y ∈ l → y ≤ x) → Sorted Z.le (l ++ [x]).
Proof.
  induction 1 as [|y l Hs IH Hhd]; intros Hle; simpl.
  - repeat constructor.
  - constructor.
    + apply IH. intros z Hz. apply Hle. by right.
    + destruct Hhd; simpl; constructor; [|done]. apply Hle. by left.
Qed.

Lemma Sorted_le_cons_inv (l : list Z) (x y : Z) :
  Sorted Z.le (x :: l) → y ∈ l → x ≤ y.
Proof.
  intros Hs Hy. apply (Sorted_StronglySorted _) in Hs.
  apply StronglySorted_inv in Hs as [_ Hall].
  rewrite Forall_forall in Hall. by apply Hall.
Qed.

(** A duplicate-free list of nodes is no longer than the node count. *)
Lemma NoDup_nodos_length (n : Z) (l : list Z) :
  NoDup l → (∀ v, v ∈ l → 0 ≤ v < n) → (length l ≤ Z.to_nat n)%nat.
Proof.
  intros Hnd Hin.
  rewrite <-(length_seqZ 0 n). apply submseteq_length, NoDup_submseteq; [done|].
  intros v Hv. apply elem_of_seqZ. apply Hin in Hv. lia.
Qed.

Section bfs.
Context (g : GrafoDisperso) (Hok : csr_ok g).
Context (s prof : Z).

Lemma BFS_vecino_marcar nivel st i :
  BFS_vecino g nivel st i = c ← vget (column_indices g) i; BFS_marcar nivel st c.
Proof. by destruct st. Qed.

(** Every node that a path of at most [L] edges reaches has been
    discovered. *)
Lemma bfs_descubiertos L pend vis cola res v k :
  bfs_inv g s prof L pend vis cola res →
  camino g s v k → k ≤ L → v ∈ (res ++ cola).*1.
Proof.
  intros (Hlen & Hvis & Hnd & Hs & Hdist & Hres & Hcola & Hsort & HL & Hcl).
  induction 1 as [|y w k Hpath IH Hedge]; intros Hk; [done|].
  assert (y ∈ (res ++ cola).*1) as Hy by (apply IH; lia).
  apply list_elem_of_fmap in Hy as ([y' ly] & -> & Hin). simpl in *.
  destruct (Hdist _ _ Hin) as [[Hc Hmin] Hlp].
  pose proof (Hmin k Hpath). pose proof (camino_nonneg g _ _ _ Hc).
  apply elem_of_app in Hin as [Hin|Hin].
  - destruct (Hcl _ _ w Hin) as [?|[? ?]]; [lia|done|done|lia].
  - apply Hcola in Hin. lia.
Qed.

(** One iteration of the inner loop. *)
Lemma BFS_marcar_inv L w pend vis cola res u :
  bfs_inv g s prof L (w :: pend) vis cola res →
  (u, L) ∈ res → L < prof → w ∈ vecinos g u →
  ∃ vis' cola', BFS_marcar L (vis, cola) w = Some (vis', cola') ∧
                bfs_inv g s prof L pend vis' cola' res.
Proof.
  intros Hinv Hu HLp Hw.
  pose proof (λ k, bfs_descubiertos _ _ _ _ _ w k Hinv) as Hmin.
  destruct Hinv as (Hlen & Hvis & Hnd & Hs & Hdist & Hres & Hcola & Hsort & HL & Hcl).
  pose proof (vecinos_validos g Hok _ _ Hw) as Hwv.
  destruct (vget_is_Some vis w) as [b Hb]; [lia|].
  unfold BFS_marcar. rewrite Hb. simpl. destruct b.
  - exists vis, cola. split; [done|].
    refine (conj Hlen (conj Hvis (conj Hnd (conj Hs (conj Hdist
             (conj Hres (conj Hcola (conj Hsort (conj HL _))))))))).
    intros y ly w' Hy Hly Hw'.
    destruct (Hcl y ly w' Hy Hly Hw') as [?|[-> Hp]]; [by left|].
    apply elem_of_cons in Hp as [->|Hp]; [|by right].
    left. by apply Hvis.
  - rewrite vset_lt by lia. simpl. eexists _, _. split; [done|].
    assert (w ∉ (res ++ cola).*1) as Hfresh.
    { intros Hin. apply Hvis in Hin. congruence. }
    assert (∀ v, v ∈ (res ++ cola ++ [(w, L + 1)]).*1 ↔ v ∈ (res ++ cola).*1 ∨ v = w) as Hnodos.
    { intros v. rewrite app_assoc, fmap_app, elem_of_app. simpl.
      by rewrite list_elem_of_singleton. }
    assert (distancia g s w (L + 1)) as Hdw.
    { split.
      - apply camino_S with u; [|done]. by apply (Hdist u L), elem_of_app; left.
      - intros k Hk. destruct (decide (L + 1 ≤ k)); [done|].
        destruct Hfresh. apply (Hmin k); [done|lia]. }
    split; [by rewrite length_insert|]. split; [|split; [|split; [|split]]].
    + intros v. rewrite Hnodos.
      rewrite (vget_vset vis w v true (<[Z.to_nat w:=true]> vis))
        by (apply vset_lt; lia).
      case_decide as Hvw; [split; [by right|done]|].
      rewrite Hvis. split; [by left|]. by intros [?|?].
    + rewrite app_assoc, fmap_app. simpl. apply NoDup_app.
      split; [done|]. split; [|apply NoDup_singleton].
      intros v Hv. rewrite list_elem_of_singleton. by intros ->.
    + apply Hnodos. by left.
    + intros v l. rewrite app_assoc, elem_of_app, list_elem_of_singleton.
      intros [Hin|[= -> ->]]; [by apply Hdist|]. split; [done|lia].
    + split; [done|]. split; [|split; [|split]].
      * intros v l. rewrite elem_of_app, list_elem_of_singleton.
        intros [Hin|[= -> ->]]; [by apply (Hcola v)|lia].
      * rewrite fmap_app. simpl. apply Sorted_le_snoc; [done|].
        intros l Hl. apply list_elem_of_fmap in Hl as ([v l'] & -> & Hin).
        simpl. apply Hcola in Hin. lia.
      * done.
      * intros y ly w' Hy Hly Hw'. rewrite Hnodos.
        destruct (Hcl y ly w' Hy Hly Hw') as [?|[-> Hp]]; [by left; left|].
        apply elem_of_cons in Hp as [->|Hp]; [by left; right|by right].
Qed.

(** Dequeuing the front [(u, l)] of the queue. *)
Lemma bfs_inv_pop L vis u l cola res :
  bfs_inv g s prof L [] vis ((u, l) :: cola) res →
  bfs_inv g s prof l (if decide (l >= prof) then [] else vecinos g u)
          vis cola (res ++ [(u, l)]).
Proof.
  intros (Hlen & Hvis & Hnd & Hs & Hdist & Hres & Hcola & Hsort & HL & Hcl).
  unfold bfs_inv. rewrite <-!app_assoc. simpl.
  assert (L ≤ l ≤ L + 1) as HLl by (apply (Hcola u); by left).
  split; [done|]. split; [done|]. split; [done|]. split; [done|].
  split; [done|]. split; [|split; [|split; [|split]]].
  - intros v l'. rewrite elem_of_app, list_elem_of_singleton.
    intros [Hin|[= -> ->]]; [apply Hres in Hin; lia|lia].
  - intros v l' Hin. split.
    + simpl in Hsort. eapply Sorted_le_cons_inv; [done|].
      apply list_elem_of_fmap. by exists (v, l').
    + assert (L ≤ l' ≤ L + 1) by (apply (Hcola v); by right). lia.
  - simpl in Hsort. by apply Sorted_inv in Hsort as [? _].
  - apply (Hdist u l), elem_of_app. right. by left.
  - intros y ly w. rewrite elem_of_app, list_elem_of_singleton.
    intros [Hin|[= -> ->]] Hly Hw.
    + destruct (Hcl y ly w Hin Hly Hw) as [?|[_ Hp]]; [by left|].
      by apply elem_of_nil in Hp.
    + right. split; [done|]. by rewrite decide_False by lia.
Qed.

Lemma bfs_inv_nodos L pend vis cola res v :
  bfs_inv g s prof L pend vis cola res →
  v ∈ (res ++ cola).*1 → 0 ≤ v < numNodos g.
Proof.
  intros (Hlen & Hvis & _) Hv. apply Hvis, vget_lt in Hv. lia.
Qed.

(** One iteration of the outer loop. *)
Lemma BFS_paso_inv L vis u l cola res :
  bfs_inv g s prof L [] vis ((u, l) :: cola) res →
  ∃ vis' cola',
    BFS_paso g prof u l vis cola res = Some (vis', cola', res ++ [(u, l)]) ∧
    bfs_inv g s prof l [] vis' cola' (res ++ [(u, l)]).
Proof.
  intros Hinv.
  assert (0 ≤ u < numNodos g) as Hu.
  { eapply bfs_inv_nodos; [done|]. rewrite fmap_app, elem_of_app. right. by left. }
  apply bfs_inv_pop in Hinv. unfold BFS_paso.
  case_decide as Hl; [by eauto|].
  destruct (csr_ok_vecinos g Hok u Hu) as (a & b & -> & -> & Hmap & _). simpl.
  erewrite (foldM_vget _ _ (BFS_marcar l));
    [|apply BFS_vecino_marcar|done].
  set (I := λ (done : list Z) (st : list bool * list (Z * Z)),
    ∃ rest, vecinos g u = done ++ rest ∧
            bfs_inv g s prof l rest st.1 st.2 (res ++ [(u, l)])).
  destruct (foldM_inv I (BFS_marcar l) (vecinos g u) (vis, cola))
    as ([vis' cola'] & Hrun & rest & Hrest & Hinv').
  - by exists (vecinos g u).
  - intros done w [vis1 cola1] [rest Hsplit] (rest' & Hsplit' & Hinv1).
    simpl in *. rewrite Hsplit in Hsplit'.
    apply app_inv_head in Hsplit'. subst rest'.
    destruct (BFS_marcar_inv l w rest vis1 cola1 (res ++ [(u, l)]) u)
      as (vis2 & cola2 & Hm & Hinv2); [done| |lia| |].
    + apply elem_of_app. right. by left.
    + rewrite Hsplit. apply elem_of_app. right. by left.
    + exists (vis2, cola2). split; [done|]. exists rest.
      split; [by rewrite <-app_assoc|done].
  - rewrite Hrun. simpl. exists vis', cola'. split; [done|].
    assert (rest = []) as ->; [|done].
    apply (app_inv_head (vecinos g u)). by rewrite app_nil_r.
Qed.

Lemma BFS_bucle_inv fuel L vis cola res :
  bfs_inv g s prof L [] vis cola res →
  (Z.to_nat (numNodos g) ≤ fuel + length res)%nat →
  ∃ out L' vis', BFS_bucle fuel g prof vis cola res = Some out ∧
                 bfs_inv g s prof L' [] vis' [] out.
Proof.
  revert L vis cola res. induction fuel as [|fuel IH]; intros L vis cola res Hinv Hfuel.
  - destruct cola as [|[u l] cola]; [by simpl; eauto|]. exfalso.
    destruct Hinv as (Hl & Hvis & Hnd & _).
    assert (length (res ++ (u, l) :: cola).*1 ≤ Z.to_nat (numNodos g))%nat as Hlen.
    { apply NoDup_nodos_length; [done|].
      intros v Hv. apply Hvis, vget_lt in Hv. lia. }
    rewrite length_fmap, length_app in Hlen. simpl in *. lia.
  - destruct cola as [|[u l] cola]; [by simpl; eauto|]. simpl.
    destruct (BFS_paso_inv _ _ _ _ _ _ Hinv) as (vis' & cola' & -> & Hinv'). simpl.
    apply (IH l); [done|]. rewrite length_app. simpl. lia.
Qed.
End bfs.

Section bfs_final.
Context (g : GrafoDisperso) (Hok : csr_ok g).
Context (s prof : Z) (Hs : 0 ≤ s < numNodos g).

Lemma bfs_inv_inicio :
  ∃ vis, vset (replicate (Z.to_nat (numNodos g)) false) s true = Some vis ∧
         bfs_inv g s prof 0 [] vis [(s, 0)] [].
Proof.
  eexists. split; [apply vset_lt; rewrite length_replicate; lia|].
  unfold bfs_inv. simpl.
  split; [rewrite length_insert, length_replicate; lia|].
  split; [|split; [apply NoDup_singleton|split; [by left|split; [|split]]]].
  - intros v. rewrite list_elem_of_singleton.
    rewrite (vget_vset (replicate (Z.to_nat (numNodos g)) false) s v true)
      by (apply vset_lt; rewrite length_replicate; lia).
    case_decide as Hv; [done|]. split; [|done].
    rewrite vget_Some. intros [_ Hr]. by apply lookup_replicate in Hr as [? _].
  - intros v l. rewrite list_elem_of_singleton. intros [= -> ->].
    split; [|lia]. split; [constructor|]. apply camino_nonneg.
  - intros v l Hin. by apply elem_of_nil in Hin.
  - split; [|split; [repeat constructor|split; [lia|]]].
    + intros v l. rewrite list_elem_of_singleton. intros [= -> ->]. lia.
    + intros u l w Hin. by apply elem_of_nil in Hin.
Qed.

(** At the end of the loop every node within [prof] edges is in the
    output. *)
Lemma bfs_completo L vis out v k :
  bfs_inv g s prof L [] vis [] out →
  camino g s v k → k ≤ prof → v ∈ out.*1.
Proof.
  intros (Hlen & Hvis & Hnd & Hst & Hdist & Hres & Hcola & Hsort & HL & Hcl).
  rewrite app_nil_r in *.
  induction 1 as [|y w k Hpath IH Hedge]; intros Hk; [done|].
  assert (y ∈ out.*1) as Hy by (apply IH; lia).
  apply list_elem_of_fmap in Hy as ([y' ly] & -> & Hin). simpl in *.
  destruct (Hdist _ _ Hin) as [[_ Hmin] _]. pose proof (Hmin k Hpath).
  destruct (Hcl _ _ w Hin) as [?|[_ Hp]]; [lia|done|done|].
  by apply elem_of_nil in Hp.
Qed.

Lemma BFS_termina fuel :
  (Z.to_nat (numNodos g) ≤ fuel)%nat →
  ∃ out L vis, BFS fuel g s prof = Some out ∧ bfs_inv g s prof L [] vis [] out.
Proof.
  intros Hfuel. unfold BFS, nodo_invalido. rewrite decide_False by lia.
  destruct bfs_inv_inicio as (vis & -> & Hinv). simpl.
  apply (BFS_bucle_inv g Hok s prof fuel 0); [done|simpl; lia].
Qed.
End bfs_final.

(** C1.  On a well-formed graph, for a valid start node [s] and a depth
    bound [prof >= 0], [BFS] (given at least [numNodos] iterations) returns
    a sequence of pairs in which no node occurs twice and which holds
    exactly the pairs [(v, d)] where [d] is the least number of edges
    from [s] to [v] and [d <= prof]: every node within [prof] edges is
    there once, with its true distance, the nodes at distance [prof]
    included.  A node dequeued at a level [>= prof] is output and the
    iteration ends: the queue and the visited marks stay as they are, so
    no neighbour is explored through it. *)
Theorem BFS_correcto (g : GrafoDisperso) (s prof : Z) (fuel : nat) :
  csr_ok g → 0 ≤ s < numNodos g → 0 ≤ prof →
  (Z.to_nat (numNodos g) ≤ fuel)%nat →
  ∃ out, BFS fuel g s prof = Some out ∧
         NoDup out.*1 ∧
         (∀ v d, (v, d) ∈ out ↔ distancia g s v d ∧ d ≤ prof) ∧
         (∀ u l vis cola res, l >= prof →
            BFS_paso g prof u l vis cola res = Some (vis, cola, res ++ [(u, l)])).
Proof.
  intros Hok Hs Hprof Hfuel.
  destruct (BFS_termina g Hok s prof Hs fuel Hfuel) as (out & L & vis & Hrun & Hinv).
  exists out. split; [done|].
  pose proof (bfs_completo g s prof L vis out) as Hcomp.
  destruct Hinv as (Hlen & Hvis & Hnd & Hst & Hdist & Hres & Hcola & Hsort & HL & Hcl).
  rewrite app_nil_r in *.
  split; [done|]. split.
  - intros v d. split.
    + intros Hin. destruct (Hdist v d Hin). split; [done|lia].
    + intros [Hd Hle].
      assert (v ∈ out.*1) as Hv.
      { apply (Hcomp v d); [|by destruct Hd|done].
        unfold bfs_inv. rewrite app_nil_r. done. }
      apply list_elem_of_fmap in Hv as ([v' l] & -> & Hin). simpl in *.
      destruct (Hdist _ _ Hin) as [Hd' _].
      by rewrite (distancia_unica g s v' d l Hd Hd').
  - intros u l vis' cola res Hl. unfold BFS_paso. by rewrite decide_True.
Qed.

Lemma csr_ok_g_ejemplo : csr_ok g_ejemplo.
Proof. apply (bool_decide_unpack _). vm_compute. exact I. Defined.

Lemma BFS_correcto_witness :
  csr_ok g_ejemplo ∧ 0 ≤ 0 < numNodos g_ejemplo ∧ 0 ≤ 1 ∧
  (Z.to_nat (numNodos g_ejemplo) ≤ 3)%nat ∧
  ∃ out, BFS 3 g_ejemplo 0 1 = Some out ∧
         NoDup out.*1 ∧
         (∀ v d, (v, d) ∈ out ↔ distancia g_ejemplo 0 v d ∧ d ≤ 1) ∧
         (∀ u l vis cola res, l >= 1 →
            BFS_paso g_ejemplo 1 u l vis cola res = Some (vis, cola, res ++ [(u, l)])).
Proof.
  split; [exact csr_ok_g_ejemplo|].
  split; [simpl; lia|]. split; [lia|]. split; [simpl; lia|].
  apply (BFS_correcto g_ejemplo 0 1 3); [exact csr_ok_g_ejemplo|simpl; lia|lia|simpl; lia].
Defined.

Example BFS_ejemplo : BFS 3 g_ejemplo 0 1 = Some [(0, 0); (1, 1); (2, 1)].
Proof. reflexivity. Qed.

(** The example of the specification: the edges (0,1), (0,2), (1,2), (2,0). *)
Example consultas_ejemplo :
  getNumNodos g_ejemplo = 3 ∧ getNumAristas g_ejemplo = 4 ∧
  obtenerGrado g_ejemplo 0 = Some 2 ∧ obtenerGradoEntrada g_ejemplo 0 = Some 1 ∧
  getVecinos g_ejemplo 0 = Some [1; 2].
Proof. repeat split; reflexivity. Qed.

Example cargar_ejemplo :
  cargarDatos fs_ejemplo "ejemplo.txt" GrafoDisperso_init = Some (true, g_ejemplo).
Proof. reflexivity. Qed.

(** ** getAristasSubgrafo *)

Section subgrafo.
Context (g : GrafoDisperso) (Hok : csr_ok g).
Context (prof : Z).

Lemma sub_vecino_marcar u l st i :
  sub_vecino g u l st i = c ← vget (column_indices g) i; sub_marcar u l st c.
Proof. by destruct st as [[??]?]. Qed.

(** The inner loop: every edge is recorded, and a neighbour is
    enqueued when, and only the first time, it is found outside the
    membership set. *)
Lemma sub_marcar_fold u l ws nodos cola ar :
  ∃ nuevos,
    foldM (sub_marcar u l) ws (nodos, cola, ar)
      = Some (list_to_set ws ∪ nodos,
              cola ++ ((λ w, (w, l + 1)) <$> nuevos),
              ar ++ (pair u <$> ws)) ∧
    NoDup nuevos ∧
    (∀ w, w ∈ nuevos ↔ w ∈ ws ∧ w ∉ nodos).
Proof.
  revert nodos cola ar. induction ws as [|w ws IH]; intros nodos cola ar.
  - exists []. simpl. rewrite !app_nil_r, (left_id_L ∅ (∪)).
    split; [done|]. split; [constructor|].
    intros w. rewrite elem_of_nil. tauto.
  - simpl. case_decide as Hw; simpl.
    + destruct (IH nodos cola (ar ++ [(u, w)])) as (nuevos & -> & Hnd & Hin).
      exists nuevos. split; [|split; [done|]].
      * rewrite <-app_assoc. simpl. do 3 f_equal. set_solver.
      * intros w'. rewrite Hin, elem_of_cons. split; [tauto|].
        intros [[->|?] ?]; tauto.
    + destruct (IH ({[w]} ∪ nodos) (cola ++ [(w, l + 1)]) (ar ++ [(u, w)]))
        as (nuevos & -> & Hnd & Hin).
      exists (w :: nuevos). split; [|split].
      * rewrite <-!app_assoc. simpl. do 3 f_equal. set_solver.
      * apply NoDup_cons. split; [|done]. rewrite Hin. set_solver.
      * intros w'. rewrite !elem_of_cons, Hin.
        destruct (decide (w' = w)) as [->|]; set_solver.
Qed.

(** The body of [getAristasSubgrafo] on a dequeued node below the depth bound. *)
Lemma sub_paso_aristas u l nodos cola ar :
  0 ≤ u < numNodos g → ¬ l >= prof →
  ∃ nuevos,
    sub_paso g prof u l nodos cola ar
      = Some (list_to_set (vecinos g u) ∪ nodos,
              cola ++ ((λ w, (w, l + 1)) <$> nuevos),
              ar ++ (pair u <$> vecinos g u)) ∧
    NoDup nuevos ∧
    (∀ w, w ∈ nuevos ↔ w ∈ vecinos g u ∧ w ∉ nodos).
Proof.
  intros Hu Hl. unfold sub_paso. rewrite decide_False by done.
  destruct (csr_ok_vecinos g Hok u Hu) as (a & b & -> & -> & Hmap & _). simpl.
  erewrite (foldM_vget _ _ (sub_marcar u l)); [|apply sub_vecino_marcar|done].
  apply sub_marcar_fold.
Qed.

(** The inner loops of [BFS] and [getAristasSubgrafo] enqueue the same nodes. *)
Lemma BFS_marcar_sub u l ws vis cola vis' cola' nodos ar :
  foldM (BFS_marcar l) ws (vis, cola) = Some (vis', cola') →
  mismas_marcas g vis nodos →
  ∃ nodos', foldM (sub_marcar u l) ws (nodos, cola, ar)
              = Some (nodos', cola', ar ++ (pair u <$> ws)) ∧
            mismas_marcas g vis' nodos'.
Proof.
  revert vis cola nodos ar. induction ws as [|w ws IH]; intros vis cola nodos ar.
  - simpl. intros [= <- <-] Hrel. exists nodos. by rewrite app_nil_r.
  - simpl. destruct (vget vis w) as [b|] eqn:Hb; simpl; [|done].
    destruct b; simpl.
    + intros Hrun Hrel. rewrite decide_True by (by apply Hrel). simpl.
      destruct (IH _ _ nodos (ar ++ [(u, w)]) Hrun Hrel) as (nodos' & -> & Hrel').
      exists nodos'. by rewrite <-app_assoc.
    + destruct (vset vis w true) as [vis1|] eqn:Hset; simpl; [|done].
      intros Hrun Hrel.
      rewrite decide_False by (intros Hin; apply Hrel in Hin; congruence).
      simpl. destruct (IH _ _ ({[w]} ∪ nodos) (ar ++ [(u, w)]) Hrun) as (nodos' & -> & Hrel').
      * intros v. rewrite (vget_vset vis w v true vis1 Hset).
        case_decide as Hv; [set_solver|]. rewrite (Hrel v). set_solver.
      * exists nodos'. by rewrite <-app_assoc.
Qed.

Lemma BFS_paso_sub u l vis cola res vis' cola' res' nodos ar :
  0 ≤ u < numNodos g →
  BFS_paso g prof u l vis cola res = Some (vis', cola', res') →
  mismas_marcas g vis nodos →
  ∃ nodos', sub_paso g prof u l nodos cola ar
              = Some (nodos', cola', ar ++ aristas_nodo g prof (u, l)) ∧
            mismas_marcas g vis' nodos'.
Proof.
  intros Hu. unfold BFS_paso, sub_paso, aristas_nodo. simpl.
  case_decide as Hl.
  - intros [= <- <- <-] Hrel. exists nodos. by rewrite app_nil_r.
  - destruct (csr_ok_vecinos g Hok u Hu) as (a & b & -> & -> & Hmap & _). simpl.
    erewrite (foldM_vget _ _ (BFS_marcar l)); [|apply BFS_vecino_marcar|done].
    erewrite (foldM_vget _ _ (sub_marcar u l)); [|apply sub_vecino_marcar|done].
    destruct (foldM (BFS_marcar l) (vecinos g u) (vis, cola))
      as [[vis1 cola1]|] eqn:Hrun; simpl; [|done].
    intros [= <- <- <-] Hrel.
    by apply (BFS_marcar_sub u l _ _ _ _ _ _ ar Hrun).
Qed.

Lemma sub_bucle_BFS s fuel L vis cola res nodos :
  bfs_inv g s prof L [] vis cola res →
  mismas_marcas g vis nodos →
  (Z.to_nat (numNodos g) ≤ fuel + length res)%nat →
  ∃ out L' vis',
    BFS_bucle fuel g prof vis cola res = Some out ∧
    bfs_inv g s prof L' [] vis' [] out ∧
    sub_bucle fuel g prof nodos cola (res ≫= aristas_nodo g prof)
      = Some (out ≫= aristas_nodo g prof).
Proof.
  revert L vis cola res nodos.
  induction fuel as [|fuel IH]; intros L vis cola res nodos Hinv Hrel Hfuel.
  - destruct (BFS_bucle_inv g Hok s prof 0 L vis cola res Hinv Hfuel)
      as (out & L' & vis' & Hrun & Hinv').
    destruct cola as [|[u l] cola]; [|done].
    simpl in *. simplify_eq. eauto 6.
  - destruct cola as [|[u l] cola]; [by simpl; eauto 6|]. simpl.
    assert (0 ≤ u < numNodos g) as Hu.
    { eapply bfs_inv_nodos; [done|]. rewrite fmap_app, elem_of_app. right. by left. }
    destruct (BFS_paso_inv g Hok s prof _ _ _ _ _ _ Hinv) as (vis' & cola' & Hpaso & Hinv').
    destruct (BFS_paso_sub u l _ _ _ _ _ _ nodos (res ≫= aristas_nodo g prof)
                Hu Hpaso Hrel) as (nodos' & -> & Hrel').
    rewrite Hpaso. simpl.
    destruct (IH l vis' cola' (res ++ [(u, l)]) nodos' Hinv' Hrel')
      as (out & L' & vis'' & Hrun & Hfin & Hsub).
    { rewrite length_app. simpl. lia. }
    exists out, L', vis''. split; [done|]. split; [done|].
    rewrite <-Hsub. f_equal. rewrite bind_app. simpl. by rewrite app_nil_r.
Qed.
End subgrafo.

(** C6.  On a well-formed graph and for a valid start node,
    [getAristasSubgrafo] runs the queue of [BFS]: with [visita] the
    sequence of dequeued [(node, level)] pairs (no node occurs twice in
    it, so every node is enqueued once), the output is, in that order
    and for every dequeued node whose level is below [prof], the list
    of all its outgoing edges [(node, neighbour)].  In one iteration on
    such a node every outgoing edge is appended, whether or not its
    destination is in the membership set already, and the queue grows
    by exactly the neighbours outside the set, each of them once. *)
Theorem getAristasSubgrafo_correcto (g : GrafoDisperso) (s prof : Z) (fuel : nat) :
  csr_ok g → 0 ≤ s < numNodos g →
  (Z.to_nat (numNodos g) ≤ fuel)%nat →
  (∃ visita,
     BFS fuel g s prof = Some visita ∧ NoDup visita.*1 ∧
     getAristasSubgrafo fuel g s prof = Some (visita ≫= aristas_nodo g prof)) ∧
  (∀ u l nodos cola ar,
     0 ≤ u < numNodos g → l < prof →
     ∃ nuevos,
       sub_paso g prof u l nodos cola ar
         = Some (list_to_set (vecinos g u) ∪ nodos,
                 cola ++ ((λ w, (w, l + 1)) <$> nuevos),
                 ar ++ (pair u <$> vecinos g u)) ∧
       NoDup nuevos ∧
       (∀ w, w ∈ nuevos ↔ w ∈ vecinos g u ∧ w ∉ nodos)).
Proof.
  intros Hok Hs Hfuel. split.
  - unfold BFS, getAristasSubgrafo, nodo_invalido. rewrite !decide_False by lia.
    destruct (bfs_inv_inicio g s prof Hs) as (vis & Hvis & Hinv).
    rewrite Hvis. simpl.
    destruct (sub_bucle_BFS g Hok prof s fuel 0 vis [(s, 0)] [] {[s]} Hinv)
      as (out & L' & vis' & Hrun & Hfin & Hsub).
    + intros v. destruct Hinv as (_ & Hv & _). rewrite Hv. simpl. set_solver.
    + simpl. lia.
    + exists out. split; [done|]. split; [|done].
      destruct Hfin as (_ & _ & Hnd & _). by rewrite app_nil_r in Hnd.
  - intros u l nodos cola ar Hu Hl. apply sub_paso_aristas; [done|done|lia].
Qed.

Lemma getAristasSubgrafo_correcto_witness :
  csr_ok g_ejemplo ∧ 0 ≤ 0 < numNodos g_ejemplo ∧
  (Z.to_nat (numNodos g_ejemplo) ≤ 3)%nat ∧
  (∃ visita,
     BFS 3 g_ejemplo 0 2 = Some visita ∧ NoDup visita.*1 ∧
     getAristasSubgrafo 3 g_ejemplo 0 2 = Some (visita ≫= aristas_nodo g_ejemplo 2)) ∧
  (∀ u l nodos cola ar,
     0 ≤ u < numNodos g_ejemplo → l < 2 →
     ∃ nuevos,
       sub_paso g_ejemplo 2 u l nodos cola ar
         = Some (list_to_set (vecinos g_ejemplo u) ∪ nodos,
                 cola ++ ((λ w, (w, l + 1)) <$> nuevos),
                 ar ++ (pair u <$> vecinos g_ejemplo u)) ∧
       NoDup nuevos ∧
       (∀ w, w ∈ nuevos ↔ w ∈ vecinos g_ejemplo u ∧ w ∉ nodos)).
Proof.
  split; [exact csr_ok_g_ejemplo|].
  split; [simpl; lia|]. split; [simpl; lia|].
  apply (getAristasSubgrafo_correcto g_ejemplo 0 2 3);
    [exact csr_ok_g_ejemplo|simpl; lia|simpl; lia].
Defined.

Example getAristasSubgrafo_ejemplo :
  getAristasSubgrafo 3 g_ejemplo 0 2 = Some [(0, 1); (0, 2); (1, 2); (2, 0)].
Proof. reflexivity. Qed.

(** ** DFS *)

Lemma sum_list_with_submseteq {A} (f : A → nat) (l1 l2 : list A) :
  l1 ⊆+ l2 → (sum_list_with f l1 ≤ sum_list_with f l2)%nat.
Proof. induction 1; simpl; lia. Qed.

Section dfs_recursivo.
Context (g : GrafoDisperso) (Hok : csr_ok g).


Lemma camino_prepend x w v k :
  w ∈ vecinos g x → camino g w v k → camino g x v (1 + k).
Proof.
  intros Hw. induction 1 as [|y z k _ IH Hz].
  - change (1 + 0) with (0 + 1). apply camino_S with x; [constructor|done].
  - replace (1 + (k + 1)) with ((1 + k) + 1) by lia. by apply camino_S with y.
Qed.

Lemma alcanzable_vecino x w v :
  w ∈ vecinos g x → alcanzable g w v → alcanzable g x v.
Proof. intros Hw [k Hk]. exists (1 + k). by apply camino_prepend with w. Qed.

Lemma dfs_recursivo_aux_S n vistos u :
  dfs_recursivo_aux (S n) g vistos u =
  if decide (u ∈ vistos) then vistos
  else fold_left (dfs_recursivo_aux n g) (vecinos g u) (vistos ++ [u]).
Proof. done. Qed.

(** The recursive traversal: what it appends to [res]. *)
Lemma dfs_recursivo_props n :
  ∀ xs res,
    NoDup res → (∀ v, v ∈ res → (0 ≤ v < numNodos g)) → (∀ x, x ∈ xs → (0 ≤ x < numNodos g)) →
    (Z.to_nat (numNodos g) < n + length res)%nat →
    ∃ nuevos,
      fold_left (dfs_recursivo_aux n g) xs res = res ++ nuevos ∧
      NoDup (res ++ nuevos) ∧
      (∀ v, v ∈ nuevos → (0 ≤ v < numNodos g)) ∧
      (∀ v, v ∈ nuevos → ∃ x, x ∈ xs ∧ alcanzable g x v) ∧
      (∀ x, x ∈ xs → x ∈ res ++ nuevos) ∧
      (∀ v w, v ∈ nuevos → w ∈ vecinos g v → w ∈ res ++ nuevos).
Proof.
  induction n as [|n IHn]; intros xs res Hnd Hres Hxs Hn.
  { pose proof (NoDup_nodos_length (numNodos g) res Hnd Hres). lia. }
  revert res Hnd Hres Hn. induction xs as [|x xs IHxs]; intros res Hnd Hres Hn.
  { exists []. simpl. rewrite app_nil_r.
    split; [done|]. split; [done|].
    split; [|split; [|split]].
    - intros v Hv. by apply elem_of_nil in Hv.
    - intros v Hv. by apply elem_of_nil in Hv.
    - intros v Hv. by apply elem_of_nil in Hv.
    - intros v w Hv. by apply elem_of_nil in Hv. }
  assert (∀ y, y ∈ xs → (0 ≤ y < numNodos g)) as Hxs' by (intros; apply Hxs; by right).
  change (fold_left (dfs_recursivo_aux (S n) g) (x :: xs) res)
    with (fold_left (dfs_recursivo_aux (S n) g) xs (dfs_recursivo_aux (S n) g res x)).
  rewrite dfs_recursivo_aux_S. case_decide as Hx.
  - destruct (IHxs Hxs' res Hnd Hres Hn) as (nuevos & -> & Hnd' & Hval & Hreach & Hin & Hcl).
    exists nuevos. split; [done|]. split; [done|]. split; [done|].
    split; [|split; [|done]].
    + intros v Hv. destruct (Hreach v Hv) as (y & ? & ?). exists y.
      split; [by right|done].
    + intros y. rewrite elem_of_cons. intros [->|?]; [|by apply Hin].
      apply elem_of_app. by left.
  - assert (NoDup (res ++ [x])) as Hnd1.
    { apply NoDup_app. split; [done|]. split; [|apply NoDup_singleton].
      intros v Hv. rewrite list_elem_of_singleton. by intros ->. }
    assert (∀ v, v ∈ res ++ [x] → (0 ≤ v < numNodos g)) as Hres1.
    { intros v. rewrite elem_of_app, list_elem_of_singleton.
      intros [?| ->]; [by apply Hres|]. apply Hxs. by left. }
    destruct (IHn (vecinos g x) (res ++ [x]) Hnd1 Hres1)
      as (n1 & Heq1 & Hnd2 & Hval1 & Hreach1 & Hin1 & Hcl1).
    { intros w. apply (vecinos_validos g Hok). }
    { rewrite length_app. simpl. lia. }
    rewrite Heq1.
    destruct (IHxs Hxs' ((res ++ [x]) ++ n1) Hnd2)
      as (n2 & -> & Hnd3 & Hval2 & Hreach2 & Hin2 & Hcl2).
    { intros v. rewrite elem_of_app. intros [?|?]; [by apply Hres1|by apply Hval1]. }
    { rewrite !length_app. simpl. lia. }
    exists (x :: n1 ++ n2).
    assert (((res ++ [x]) ++ n1) ++ n2 = res ++ x :: n1 ++ n2) as Heq
      by (by rewrite <-!app_assoc).
    rewrite Heq in *. split; [done|]. split; [done|].
    assert (∀ v, v ∈ (res ++ [x]) ++ n1 → v ∈ res ++ x :: n1 ++ n2) as Hsub.
    { intros v Hv. rewrite <-Heq. apply elem_of_app. by left. }
    split; [|split; [|split]].
    + intros v. rewrite elem_of_cons, elem_of_app.
      intros [->|[?|?]]; [apply Hxs; by left|by apply Hval1|by apply Hval2].
    + intros v. rewrite elem_of_cons, elem_of_app. intros [->|[Hv|Hv]].
      * exists x. split; [by left|]. exists 0. constructor.
      * destruct (Hreach1 v Hv) as (w & Hw & Hwv). exists x.
        split; [by left|]. by apply alcanzable_vecino with w.
      * destruct (Hreach2 v Hv) as (y & ? & ?). exists y. split; [by right|done].
    + intros y. rewrite elem_of_cons. intros [->|?]; [|by apply Hin2].
      apply Hsub. apply elem_of_app. left. apply elem_of_app. right. by left.
    + intros v w. rewrite elem_of_cons, elem_of_app. intros [->|[Hv|Hv]] Hw.
      * by apply Hsub, Hin1.
      * by apply Hsub, (Hcl1 v).
      * by apply (Hcl2 v).
Qed.

(** Telescoping sum of the row lengths. *)
Lemma peso_prefijo (k : nat) :
  Z.of_nat k ≤ numNodos g →
  row_ptr g !! k = Some (Z.of_nat (peso g (seqZ 0 (Z.of_nat k)))).
Proof.
  induction k as [|k IH]; intros Hk.
  - destruct Hok as (_ & H0 & _). by rewrite H0.
  - rewrite seqZ_S. unfold peso in *. rewrite sum_list_with_app. simpl.
    destruct (csr_ok_fila g Hok (Z.of_nat k)) as (a & b & Ha & Hb & ? & ? & ?); [lia|].
    rewrite vget_nat in Ha. rewrite IH in Ha by lia. injection Ha as Ha.
    replace (Z.of_nat k + 1) with (Z.of_nat (S k)) in Hb by lia.
    rewrite vget_nat in Hb. rewrite Hb. f_equal.
    rewrite Z.add_0_l.
    assert (vecinos g (Z.of_nat k) = slice (column_indices g) a b) as ->.
    { unfold vecinos. rewrite (getVecinos_slice g (Z.of_nat k) a b); try done; try lia.
      - rewrite vget_nat. rewrite IH by lia. by rewrite Ha.
      - replace (Z.of_nat k + 1) with (Z.of_nat (S k)) by lia. by rewrite vget_nat. }
    unfold slice. rewrite length_take, length_drop. lia.
Qed.

Lemma peso_total : peso g (seqZ 0 (numNodos g)) = length (column_indices g).
Proof.
  pose proof (csr_ok_numNodos g Hok) as Hn.
  pose proof (peso_prefijo (Z.to_nat (numNodos g))) as Hp.
  rewrite Z2Nat.id in Hp by done. specialize (Hp ltac:(lia)).
  destruct Hok as (Hlen & _ & _ & Hlast & _).
  rewrite last_lookup in Hlast.
  replace (pred (length (row_ptr g))) with (Z.to_nat (numNodos g)) in Hlast by lia.
  rewrite Hp in Hlast. injection Hlast. lia.
Qed.

Lemma peso_acotado l :
  NoDup l → (∀ v, v ∈ l → (0 ≤ v < numNodos g)) → (peso g l ≤ length (column_indices g))%nat.
Proof.
  intros Hnd Hval. rewrite <-peso_total. apply sum_list_with_submseteq.
  apply NoDup_submseteq; [done|]. intros v Hv. apply elem_of_seqZ.
  apply Hval in Hv. lia.
Qed.
End dfs_recursivo.

Section dfs.
Context (g : GrafoDisperso) (Hok : csr_ok g).


Lemma DFS_vecino_apilar vis pila i :
  DFS_vecino g vis pila i = c ← vget (column_indices g) i; DFS_apilar vis pila c.
Proof. done. Qed.

(** The inner loop pushes the neighbours not yet visited; the first
    of them in row order ends on top. *)
Lemma DFS_apilar_fold vis res ws pila :
  marcas_de g vis res → (∀ w, w ∈ ws → (0 ≤ w < numNodos g)) →
  foldM (DFS_apilar vis) (reverse ws) pila
    = Some (filter (λ w, w ∉ res) ws ++ pila).
Proof.
  intros [Hlen Hvis]. induction ws as [|w ws IH]; intros Hws; [done|].
  rewrite reverse_cons, foldM_snoc, IH by (intros; apply Hws; by right).
  simpl. unfold DFS_apilar.
  destruct (vget_is_Some vis w) as [b Hb].
  { assert ((0 ≤ w < numNodos g)) by (apply Hws; by left). lia. }
  rewrite Hb. simpl. destruct b.
  - rewrite filter_cons_False; [done|]. intros Hw. by apply Hw, Hvis.
  - rewrite filter_cons_True; [done|]. intros Hw. apply Hvis in Hw. congruence.
Qed.

Lemma DFS_paso_visto u vis pila res :
  marcas_de g vis res → u ∈ res →
  DFS_paso g u vis pila res = Some (vis, pila, res).
Proof.
  intros [Hlen Hvis] Hu. unfold DFS_paso.
  apply Hvis in Hu. by rewrite Hu.
Qed.

Lemma DFS_paso_nuevo u vis pila res :
  marcas_de g vis res → (0 ≤ u < numNodos g) → u ∉ res →
  ∃ vis',
    DFS_paso g u vis pila res
      = Some (vis', filter (λ w, w ∉ res ++ [u]) (vecinos g u) ++ pila, res ++ [u]) ∧
    marcas_de g vis' (res ++ [u]).
Proof.
  intros [Hlen Hvis] Hu Hnew. unfold DFS_paso.
  destruct (vget_is_Some vis u) as [b Hb]; [lia|].
  rewrite Hb. simpl. destruct b; [by apply Hvis in Hb|].
  rewrite vset_lt by lia. simpl.
  assert (marcas_de g (<[Z.to_nat u:=true]> vis) (res ++ [u])) as Hrel.
  { split; [by rewrite length_insert|]. intros v.
    rewrite (vget_vset vis u v true) by (apply vset_lt; lia).
    rewrite elem_of_app, list_elem_of_singleton.
    case_decide; [split; [by right|done]|].
    rewrite Hvis. split; [by left|]. by intros [?|?]. }
  eexists. split; [|done].
  destruct (csr_ok_vecinos g Hok u Hu) as (a & b & -> & -> & Hmap & _). simpl.
  erewrite (foldM_vget _ _ (DFS_apilar _));
    [|apply DFS_vecino_apilar|by apply mapM_reverse].
  erewrite DFS_apilar_fold; [done|done|].
  intros w. apply (vecinos_validos g Hok).
Qed.

(** The loop, started with the not yet excluded part of [xs] on top
    of [pila], reaches after [k] iterations the state in which [pila]
    is the stack and the output is what the recursive traversal of
    [xs] gives. *)
Lemma dfs_simula n :
  ∀ (xs V0 pila : list Z) vis res,
    marcas_de g vis res → NoDup res → (∀ v, v ∈ res → (0 ≤ v < numNodos g)) →
    (∀ x, x ∈ xs → (0 ≤ x < numNodos g)) → (∀ v, v ∈ V0 → v ∈ res) →
    (Z.to_nat (numNodos g) < n + length res)%nat →
    ∃ k vis' nuevos,
      fold_left (dfs_recursivo_aux n g) xs res = res ++ nuevos ∧
      marcas_de g vis' (res ++ nuevos) ∧
      (k ≤ length xs + peso g nuevos)%nat ∧
      ∀ fuel, DFS_bucle (k + fuel) g vis (filter (λ x, x ∉ V0) xs ++ pila) res
              = DFS_bucle fuel g vis' pila (res ++ nuevos).
Proof.
  induction n as [|n IHn]; intros xs V0 pila vis res Hrel Hnd Hres Hxs HV0 Hn.
  { pose proof (NoDup_nodos_length (numNodos g) res Hnd Hres). lia. }
  revert vis res Hrel Hnd Hres HV0 Hn.
  induction xs as [|x xs IHxs]; intros vis res Hrel Hnd Hres HV0 Hn.
  { exists 0%nat, vis, []. rewrite app_nil_r. simpl. done. }
  assert (∀ y, y ∈ xs → (0 ≤ y < numNodos g)) as Hxs' by (intros; apply Hxs; by right).
  assert ((0 ≤ x < numNodos g)) as Hx by (apply Hxs; by left).
  change (fold_left (dfs_recursivo_aux (S n) g) (x :: xs) res)
    with (fold_left (dfs_recursivo_aux (S n) g) xs (dfs_recursivo_aux (S n) g res x)).
  rewrite dfs_recursivo_aux_S.
  destruct (decide (x ∈ res)) as [Hin|Hnew].
  - destruct (IHxs Hxs' vis res Hrel Hnd Hres HV0 Hn)
      as (k & vis' & nuevos & Heq & Hrel' & Hk & Hrun).
    destruct (decide (x ∈ V0)) as [HxV|HxV].
    + exists k, vis', nuevos. split; [done|]. split; [done|].
      split; [simpl; lia|]. intros fuel.
      rewrite filter_cons_False by (by intros ?). apply Hrun.
    + exists (S k), vis', nuevos. split; [done|]. split; [done|].
      split; [simpl; lia|]. intros fuel.
      rewrite filter_cons_True by done. simpl.
      rewrite (DFS_paso_visto x vis _ res Hrel Hin). simpl. apply Hrun.
  - assert (x ∉ V0) as HxV by (intros ?; by apply Hnew, HV0).
    destruct (DFS_paso_nuevo x vis (filter (λ x, x ∉ V0) xs ++ pila) res Hrel Hx Hnew)
      as (vis1 & Hpaso & Hrel1).
    assert (NoDup (res ++ [x])) as Hnd1.
    { apply NoDup_app. split; [done|]. split; [|apply NoDup_singleton].
      intros v Hv. rewrite list_elem_of_singleton. by intros ->. }
    assert (∀ v, v ∈ res ++ [x] → (0 ≤ v < numNodos g)) as Hres1.
    { intros v. rewrite elem_of_app, list_elem_of_singleton.
      intros [?| ->]; [by apply Hres|done]. }
    assert (∀ w, w ∈ vecinos g x → (0 ≤ w < numNodos g)) as Hvec
      by (intros w; apply (vecinos_validos g Hok)).
    assert (Z.to_nat (numNodos g) < n + length (res ++ [x]))%nat as Hn1
      by (rewrite length_app; simpl; lia).
    destruct (dfs_recursivo_props g Hok n (vecinos g x) (res ++ [x]) Hnd1 Hres1 Hvec Hn1)
      as (n1' & Heq1' & Hnd2 & Hval1 & _).
    destruct (IHn (vecinos g x) (res ++ [x]) (filter (λ x, x ∉ V0) xs ++ pila)
                vis1 (res ++ [x]) Hrel1 Hnd1 Hres1 Hvec (λ v H, H) Hn1)
      as (k1 & vis2 & n1 & Heq1 & Hrel2 & Hk1 & Hrun1).
    assert (n1' = n1) as ->.
    { apply (app_inv_head (res ++ [x])). by rewrite <-Heq1, <-Heq1'. }
    rewrite Heq1.
    destruct (IHxs Hxs' vis2 ((res ++ [x]) ++ n1) Hrel2 Hnd2)
      as (k2 & vis3 & n2 & Heq2 & Hrel3 & Hk2 & Hrun2).
    { intros v. rewrite elem_of_app. intros [?|?]; [by apply Hres1|by apply Hval1]. }
    { intros v Hv. apply elem_of_app. left. apply elem_of_app. left. by apply HV0. }
    { rewrite !length_app. simpl. lia. }
    assert (((res ++ [x]) ++ n1) ++ n2 = res ++ x :: n1 ++ n2) as Happ
      by (by rewrite <-!app_assoc).
    rewrite Happ in *.
    exists (S (k1 + k2)), vis3, (x :: n1 ++ n2).
    split; [done|]. split; [done|]. split.
    + unfold peso in *. simpl. rewrite sum_list_with_app. lia.
    + intros fuel. rewrite filter_cons_True by done. simpl.
      rewrite Hpaso. simpl.
      replace (k1 + k2 + fuel)%nat with (k1 + (k2 + fuel))%nat by lia.
      rewrite Hrun1. apply Hrun2.
Qed.
End dfs.

(** C5.  On a well-formed graph and for a valid start node, [DFS]
    (given at least [numAristas + 1] iterations) returns the list the
    recursive preorder traversal [dfs_recursivo] returns, in which a
    node is followed by what the traversal of its neighbours, taken in
    the ascending order of its row, visits; no node occurs twice in it,
    and its nodes are exactly those reachable from the start node, at
    whatever depth. *)
Theorem DFS_correcto (g : GrafoDisperso) (s : Z) (fuel : nat) :
  csr_ok g → 0 ≤ s < numNodos g →
  (length (column_indices g) + 1 ≤ fuel)%nat →
  ∃ out, DFS fuel g s = Some out ∧
         out = dfs_recursivo g s ∧
         NoDup out ∧
         (∀ v, v ∈ out ↔ alcanzable g s v) ∧
         (∀ u, Sorted Z.le (vecinos g u)).
Proof.
  intros Hok Hs Hfuel.
  pose proof (csr_ok_numNodos g Hok) as Hn0.
  set (n := S (Z.to_nat (numNodos g))).
  assert (marcas_de g (replicate (Z.to_nat (numNodos g)) false) []) as Hrel.
  { split; [rewrite length_replicate; lia|]. intros v. rewrite elem_of_nil.
    split; [|done]. rewrite vget_Some. intros [_ Hr].
    by apply lookup_replicate in Hr as [? _]. }
  assert (∀ x, x ∈ [s] → 0 ≤ x < numNodos g) as Hxs
    by (intros x; rewrite list_elem_of_singleton; by intros ->).
  assert (∀ v : Z, v ∈ [] → 0 ≤ v < numNodos g) as Hres
    by (intros v Hv; by apply elem_of_nil in Hv).
  assert (Z.to_nat (numNodos g) < n + length (@nil Z))%nat as Hn by (simpl; lia).
  destruct (dfs_recursivo_props g Hok n [s] [] (NoDup_nil_2) Hres Hxs Hn)
    as (out & Heq & Hnd & Hval & Hreach & Hin & Hcl).
  destruct (dfs_simula g Hok n [s] [] [] _ [] Hrel (NoDup_nil_2) Hres Hxs (λ v H, H) Hn)
    as (k & vis' & out' & Heq' & Hrel' & Hk & Hrun).
  assert (out' = out) as -> by (by rewrite Heq in Heq').
  simpl in *. exists out. split; [|split; [done|split; [done|split]]].
  - unfold DFS, nodo_invalido. rewrite decide_False by lia.
    pose proof (peso_acotado g Hok out Hnd Hval).
    replace fuel with (k + (fuel - k))%nat by lia.
    rewrite (Hrun (fuel - k)%nat). by destruct (fuel - k)%nat.
  - intros v. split.
    + intros Hv. destruct (Hreach v Hv) as (x & Hx & Hxv).
      apply list_elem_of_singleton in Hx. by subst.
    + intros [k' Hk']. induction Hk' as [|y w k' _ IH Hw].
      * apply Hin. by left.
      * by apply (Hcl y).
  - apply (vecinos_ordenados g Hok).
Qed.

Lemma DFS_correcto_witness :
  csr_ok g_ejemplo ∧ 0 ≤ 0 < numNodos g_ejemplo ∧
  (length (column_indices g_ejemplo) + 1 ≤ 5)%nat ∧
  ∃ out, DFS 5 g_ejemplo 0 = Some out ∧
         out = dfs_recursivo g_ejemplo 0 ∧
         NoDup out ∧
         (∀ v, v ∈ out ↔ alcanzable g_ejemplo 0 v) ∧
         (∀ u, Sorted Z.le (vecinos g_ejemplo u)).
Proof.
  split; [exact csr_ok_g_ejemplo|].
  split; [simpl; lia|]. split; [simpl; lia|].
  apply (DFS_correcto g_ejemplo 0 5); [exact csr_ok_g_ejemplo|simpl; lia|simpl; lia].
Defined.

Example DFS_ejemplo : DFS 5 g_ejemplo 0 = Some [0; 1; 2].
Proof. reflexivity. Qed.

Example dfs_recursivo_ejemplo : dfs_recursivo g_ejemplo 0 = [0; 1; 2].
Proof. reflexivity. Qed.

(** ** construirCSR on a freshly constructed engine *)

Section conteos.
Implicit Types (es : list (Z * Z)) (k : Z).

Lemma cuenta_origen_app es1 es2 k :
  cuenta_origen (es1 ++ es2) k = cuenta_origen es1 k + cuenta_origen es2 k.
Proof. unfold cuenta_origen. rewrite filter_app, length_app. lia. Qed.

Lemma cuenta_destino_app es1 es2 k :
  cuenta_destino (es1 ++ es2) k = cuenta_destino es1 k + cuenta_destino es2 k.
Proof. unfold cuenta_destino. rewrite filter_app, length_app. lia. Qed.

Lemma cuenta_origen_1 o d k :
  cuenta_origen [(o, d)] k = if decide (o = k) then 1 else 0.
Proof.
  unfold cuenta_origen. case_decide.
  - by rewrite filter_cons_True.
  - by rewrite filter_cons_False.
Qed.

Lemma cuenta_destino_1 o d k :
  cuenta_destino [(o, d)] k = if decide (d = k) then 1 else 0.
Proof.
  unfold cuenta_destino. case_decide.
  - by rewrite filter_cons_True.
  - by rewrite filter_cons_False.
Qed.

Lemma cuenta_origen_rango es k :
  0 ≤ cuenta_origen es k ∧ cuenta_origen es k ≤ Z.of_nat (length es).
Proof. unfold cuenta_origen. pose proof (length_filter (λ e, e.1 = k) es). lia. Qed.

Lemma cuenta_destino_rango es k :
  0 ≤ cuenta_destino es k ∧ cuenta_destino es k ≤ Z.of_nat (length es).
Proof. unfold cuenta_destino. pose proof (length_filter (λ e, e.2 = k) es). lia. Qed.

Lemma prefijo_rango es k :
  0 ≤ prefijo es k ∧ prefijo es k ≤ Z.of_nat (length es).
Proof. unfold prefijo. pose proof (length_filter (λ e, e.1 < k) es). lia. Qed.

Lemma prefijo_succ es k :
  prefijo es (k + 1) = prefijo es k + cuenta_origen es k.
Proof.
  unfold prefijo, cuenta_origen. induction es as [|[o d] es IH]; [done|].
  rewrite !filter_cons. simpl. repeat case_decide; simpl; lia.
Qed.

Lemma prefijo_mono es k k' : k ≤ k' → prefijo es k ≤ prefijo es k'.
Proof.
  intros Hk. unfold prefijo. induction es as [|[o d] es IH]; [done|].
  rewrite !filter_cons. simpl. repeat case_decide; simpl; lia.
Qed.

Lemma prefijo_0 M es : aristas_validas M es → prefijo es 0 = 0.
Proof.
  unfold prefijo. induction 1 as [|[o d] es [[??]_] _ IH]; [done|].
  simpl in *. rewrite filter_cons_False by (simpl; lia). done.
Qed.

Lemma prefijo_total M es :
  aristas_validas M es → prefijo es (M + 1) = Z.of_nat (length es).
Proof.
  unfold prefijo. induction 1 as [|[o d] es [[??]_] _ IH]; [done|].
  simpl in *. rewrite filter_cons_True by (simpl; lia). simpl. lia.
Qed.

Lemma destinos_app es1 es2 k : destinos (es1 ++ es2) k = destinos es1 k ++ destinos es2 k.
Proof. unfold destinos. by rewrite filter_app, fmap_app. Qed.

Lemma destinos_1 o d k : destinos [(o, d)] k = if decide (o = k) then [d] else [].
Proof.
  unfold destinos. case_decide.
  - by rewrite filter_cons_True.
  - by rewrite filter_cons_False.
Qed.

Lemma length_destinos es k : Z.of_nat (length (destinos es k)) = cuenta_origen es k.
Proof. unfold destinos, cuenta_origen. by rewrite length_fmap. Qed.

Lemma destinos_validos M es k d :
  aristas_validas M es → d ∈ destinos es k → 0 ≤ d ≤ M.
Proof.
  unfold aristas_validas, destinos. rewrite Forall_forall. intros Hval Hd.
  apply list_elem_of_fmap in Hd as ([o d'] & -> & Hin).
  apply list_elem_of_filter in Hin as [_ Hin]. by apply Hval in Hin as [_ ?].
Qed.

Lemma suma_insert (l : list Z) (i : nat) (x y : Z) :
  l !! i = Some x → suma (<[i:=y]> l) = suma l - x + y.
Proof.
  revert i. induction l as [|z l IH]; intros [|i] Hi; simplify_eq/=; [lia|].
  rewrite (IH i) by done. lia.
Qed.

Lemma suma_replicate (n : nat) : suma (replicate n 0) = 0.
Proof. induction n; simpl; [done|]. unfold suma in *. simpl. lia. Qed.
End conteos.

(** Slices and [sort_range]. *)
Section rebanadas.
Implicit Types (v : list Z) (a b c d : Z).

Lemma slice_lookup v a b (i : nat) :
  0 ≤ a →
  slice v a b !! i = if decide (Z.of_nat i < b - a) then v !! (Z.to_nat a + i)%nat else None.
Proof.
  intros Ha. unfold slice. rewrite lookup_take, lookup_drop.
  destruct (decide (i < Z.to_nat (b - a))%nat), (decide (Z.of_nat i < b - a));
    done || lia.
Qed.

Lemma length_slice v a b :
  0 ≤ a → a ≤ b → b ≤ Z.of_nat (length v) → Z.of_nat (length (slice v a b)) = b - a.
Proof. intros. unfold slice. rewrite length_take, length_drop. lia. Qed.

Lemma slice_ext v v' c d :
  0 ≤ c →
  (∀ p : nat, c ≤ Z.of_nat p < d → v' !! p = v !! p) →
  slice v' c d = slice v c d.
Proof.
  intros Hc Hp. apply list_eq. intros i. rewrite !slice_lookup by done.
  case_decide; [|done]. apply Hp. lia.
Qed.

Lemma slice_partes v a b :
  0 ≤ a → a ≤ b → b ≤ Z.of_nat (length v) →
  v = take (Z.to_nat a) v ++ slice v a b ++ drop (Z.to_nat b) v.
Proof.
  intros. unfold slice.
  rewrite <-(take_drop (Z.to_nat a) v) at 1. f_equal.
  rewrite <-(take_drop (Z.to_nat (b - a)) (drop (Z.to_nat a) v)) at 1. f_equal.
  rewrite drop_drop. f_equal. lia.
Qed.

Lemma sort_range_props v a b v' :
  sort_range v a b = Some v' →
  (0 ≤ a ∧ a ≤ b ∧ b ≤ Z.of_nat (length v)) ∧
  length v' = length v ∧
  v' ≡ₚ v ∧
  slice v' a b = merge_sort Z.le (slice v a b) ∧
  (∀ p : nat, Z.of_nat p < a ∨ b ≤ Z.of_nat p → v' !! p = v !! p).
Proof.
  unfold sort_range. case_decide as Hr; [|done]. intros [= <-].
  destruct Hr as (Ha & Hab & Hb). split; [done|].
  fold (slice v a b).
  pose proof (merge_sort_Permutation Z.le (slice v a b)) as Hperm.
  pose proof (Permutation_length Hperm) as Hlen.
  pose proof (length_slice v a b Ha Hab Hb) as Hls.
  assert (length (take (Z.to_nat a) v) = Z.to_nat a) as Hla
    by (rewrite length_take; lia).
  split; [|split; [|split]].
  - rewrite (slice_partes v a b) at 4 by done.
    rewrite !length_app. lia.
  - rewrite (slice_partes v a b) at 4 by done. by rewrite Hperm.
  - unfold slice at 1. rewrite drop_app_length' by done.
    rewrite take_app_length' by lia. done.
  - intros p Hp. rewrite (slice_partes v a b) at 4 by done.
    destruct Hp as [Hp|Hp].
    + rewrite !lookup_app_l by lia. done.
    + repeat rewrite lookup_app_r by lia. f_equal. lia.
Qed.

Lemma sort_range_Some v a b :
  0 ≤ a → a ≤ b → b ≤ Z.of_nat (length v) → is_Some (sort_range v a b).
Proof. intros. unfold sort_range. by rewrite decide_True. Qed.
End rebanadas.

Section fresco.
Context (es : list (Z * Z)) (M : Z).
Context (HM : 0 ≤ M ≤ INT_MAX - 2).
Context (HE : Z.of_nat (length es) ≤ INT_MAX).
Context (Hval : aristas_validas M es).


Lemma arista_valida done o d rest :
  es = done ++ (o, d) :: rest → (0 ≤ o ∧ o ≤ M) ∧ (0 ≤ d ∧ d ≤ M).
Proof.
  intros Hes. unfold aristas_validas in Hval. rewrite Forall_forall in Hval.
  apply (Hval (o, d)). rewrite Hes. apply elem_of_app. right. by left.
Qed.

Lemma length_done done e rest :
  es = done ++ e :: rest → Z.of_nat (length done) < Z.of_nat (length es).
Proof. intros ->. rewrite length_app. simpl. lia. Qed.

(** First pass: the out-degree and in-degree tallies. *)
Lemma contar_fresco :
  ∃ rp ge,
    foldM contar es (replicate (Z.to_nat ((M + 1) + 1)) 0, replicate (Z.to_nat (M + 1)) 0)
      = Some (rp, ge) ∧
    Z.of_nat (length rp) = M + 1 + 1 ∧
    vget rp 0 = Some 0 ∧
    (∀ k, 0 ≤ k < M + 1 → vget rp (k + 1) = Some (cuenta_origen es k)) ∧
    Z.of_nat (length ge) = M + 1 ∧
    (∀ k, 0 ≤ k < M + 1 → vget ge k = Some (cuenta_destino es k)) ∧
    suma ge = Z.of_nat (length es).
Proof.
  set (I := λ (done : list (Z * Z)) (st : list Z * list Z),
    Z.of_nat (length st.1) = M + 1 + 1 ∧
    vget st.1 0 = Some 0 ∧
    (∀ k, 0 ≤ k < M + 1 → vget st.1 (k + 1) = Some (cuenta_origen done k)) ∧
    Z.of_nat (length st.2) = M + 1 ∧
    (∀ k, 0 ≤ k < M + 1 → vget st.2 k = Some (cuenta_destino done k)) ∧
    suma st.2 = Z.of_nat (length done)).
  destruct (foldM_inv I contar es
              (replicate (Z.to_nat ((M + 1) + 1)) 0, replicate (Z.to_nat (M + 1)) 0))
    as ([rp ge] & Hrun & HI).
  - unfold I. simpl. rewrite !length_replicate.
    split; [lia|]. split; [|split; [|split; [lia|split]]].
    + rewrite vget_Some. split; [done|]. apply lookup_replicate_2. lia.
    + intros k Hk. rewrite vget_Some. split; [lia|]. apply lookup_replicate_2. lia.
    + intros k Hk. rewrite vget_Some. split; [lia|]. apply lookup_replicate_2. lia.
    + apply suma_replicate.
  - intros done [o d] [rp ge] [rest Hes] (Hlrp & Hrp0 & Hrp & Hlge & Hge & Hsum).
    simpl in *.
    destruct (arista_valida _ _ _ _ Hes) as [[??][??]].
    pose proof (length_done _ _ _ Hes) as Hdone.
    pose proof (cuenta_origen_rango done o). pose proof (cuenta_destino_rango done d).
    unfold contar. simpl.
    rewrite int_add_Some by (unfold in_int, INT_MIN, INT_MAX in *; lia). simpl.
    rewrite Hrp by lia. simpl.
    rewrite int_add_Some by (unfold in_int, INT_MIN, INT_MAX in *; lia). simpl.
    rewrite vset_lt by lia. simpl.
    rewrite Hge by lia. simpl.
    rewrite int_add_Some by (unfold in_int, INT_MIN, INT_MAX in *; lia). simpl.
    rewrite vset_lt by lia. simpl.
    eexists. split; [done|]. unfold I. simpl.
    rewrite !length_insert.
    split; [done|]. split; [|split; [|split; [done|split]]].
    + rewrite (vget_vset rp (o + 1) 0 (cuenta_origen done o + 1)) by (apply vset_lt; lia).
      by rewrite decide_False by lia.
    + intros k Hk.
      rewrite (vget_vset rp (o + 1) (k + 1) (cuenta_origen done o + 1))
        by (apply vset_lt; lia).
      rewrite cuenta_origen_app, cuenta_origen_1.
      destruct (decide (o = k)) as [->|Hne].
      * by rewrite decide_True by lia.
      * rewrite decide_False by lia. rewrite Hrp by done. f_equal. lia.
    + intros k Hk.
      rewrite (vget_vset ge d k (cuenta_destino done d + 1)) by (apply vset_lt; lia).
      rewrite cuenta_destino_app, cuenta_destino_1.
      destruct (decide (d = k)) as [->|Hne].
      * by rewrite decide_True by lia.
      * rewrite decide_False by lia. rewrite Hge by done. f_equal. lia.
    + pose proof (Hge d ltac:(lia)) as Hd. apply vget_Some in Hd as [_ Hd].
      rewrite (suma_insert _ _ _ _ Hd), length_app. simpl. lia.
  - exists rp, ge. split; [done|]. exact HI.
Qed.

(** Prefix sums. *)
Lemma acumular_fresco rp :
  Z.of_nat (length rp) = M + 1 + 1 →
  vget rp 0 = Some 0 →
  (∀ k, 0 ≤ k < M + 1 → vget rp (k + 1) = Some (cuenta_origen es k)) →
  ∃ rp', foldM acumular (seqZ 1 (M + 1)) rp = Some rp' ∧
         Z.of_nat (length rp') = M + 1 + 1 ∧
         (∀ k, 0 ≤ k ≤ M + 1 → vget rp' k = Some (prefijo es k)).
Proof.
  intros Hlen H0 Hcnt.
  set (I := λ (done : list Z) (rp : list Z),
    let j := Z.of_nat (length done) in
    Z.of_nat (length rp) = M + 1 + 1 ∧
    (∀ k, 0 ≤ k ≤ j → vget rp k = Some (prefijo es k)) ∧
    (∀ k, j < k ≤ M + 1 → vget rp k = Some (cuenta_origen es (k - 1)))).
  destruct (foldM_inv I acumular (seqZ 1 (M + 1)) rp) as (rp' & Hrun & HI).
  - unfold I. simpl. split; [done|]. split.
    + intros k Hk. replace k with 0 by lia. by rewrite (prefijo_0 M).
    + intros k Hk. replace k with ((k - 1) + 1) at 1 by lia. apply Hcnt. lia.
  - intros done x rp1 [rest Hsplit] (Hl1 & Hpre & Hrest). simpl in *.
    apply seqZ_split in Hsplit as (Hx & Hlt & _).
    pose proof (prefijo_rango es (x - 1 + 1)) as Hr.
    rewrite prefijo_succ in Hr.
    unfold acumular. rewrite (Hrest x) by lia. simpl. rewrite (Hpre (x - 1)) by lia. simpl.
    rewrite int_add_Some by (unfold in_int, INT_MIN, INT_MAX in *; lia). simpl.
    rewrite vset_lt by lia. eexists. split; [done|].
    unfold I. rewrite length_insert, length_app. simpl.
    split; [done|]. split.
    + intros k Hk.
      rewrite (vget_vset rp1 x k (cuenta_origen es (x - 1) + prefijo es (x - 1)))
        by (apply vset_lt; lia).
      case_decide; [|apply Hpre; lia]. subst k. f_equal.
      replace x with (x - 1 + 1) at 3 by lia. rewrite prefijo_succ. lia.
    + intros k Hk.
      rewrite (vget_vset rp1 x k (cuenta_origen es (x - 1) + prefijo es (x - 1)))
        by (apply vset_lt; lia).
      rewrite decide_False by lia. apply Hrest. lia.
  - exists rp'. split; [done|]. destruct HI as (Hl & Hpre & _).
    split; [done|]. intros k Hk. apply Hpre. rewrite length_seqZ. lia.
Qed.

Lemma cuenta_origen_done done e rest k :
  es = done ++ e :: rest →
  cuenta_origen done k + (if decide (e.1 = k) then 1 else 0) ≤ cuenta_origen es k.
Proof.
  intros ->. rewrite cuenta_origen_app, (cuenta_origen_app [e] rest).
  destruct e as [o d]. rewrite cuenta_origen_1. simpl.
  pose proof (cuenta_origen_rango rest k). lia.
Qed.

Lemma prefijo_fila k k' : k < k' → prefijo es k + cuenta_origen es k ≤ prefijo es k'.
Proof. intros Hk. rewrite <-prefijo_succ. apply prefijo_mono. lia. Qed.

(** Second pass: each destination lands in the row of its origin, in
    the order of the edge list. *)
Lemma colocar_fresco cp ci :
  Z.of_nat (length cp) = M + 1 →
  (∀ k, 0 ≤ k < M + 1 → vget cp k = Some (prefijo es k)) →
  length ci = length es →
  Forall (λ c, 0 ≤ c ≤ M) ci →
  ∃ cp' ci',
    foldM colocar es (cp, ci) = Some (cp', ci') ∧
    length ci' = length es ∧
    Forall (λ c, 0 ≤ c ≤ M) ci' ∧
    (∀ k (j : nat) d, 0 ≤ k < M + 1 → destinos es k !! j = Some d →
       vget ci' (prefijo es k + Z.of_nat j) = Some d).
Proof.
  intros Hlcp Hcp Hlci Hfci.
  set (I := λ (done : list (Z * Z)) (st : list Z * list Z),
    Z.of_nat (length st.1) = M + 1 ∧
    (∀ k, 0 ≤ k < M + 1 → vget st.1 k = Some (prefijo es k + cuenta_origen done k)) ∧
    length st.2 = length es ∧
    Forall (λ c, 0 ≤ c ≤ M) st.2 ∧
    (∀ k (j : nat) d, 0 ≤ k < M + 1 → destinos done k !! j = Some d →
       vget st.2 (prefijo es k + Z.of_nat j) = Some d)).
  destruct (foldM_inv I colocar es (cp, ci)) as ([cp' ci'] & Hrun & HI).
  - unfold I. simpl. split; [done|]. split; [|split; [done|split; [done|]]].
    + intros k Hk. rewrite Hcp by done. f_equal. unfold cuenta_origen. simpl. lia.
    + intros k j d _ Hj. done.
  - intros done [o d] [cp1 ci1] [rest Hes] (Hl1 & Hcp1 & Hlci1 & Hf1 & Hrows).
    simpl in *.
    destruct (arista_valida _ _ _ _ Hes) as [[??][??]].
    pose proof (cuenta_origen_done _ _ _ o Hes) as Hcnt. simpl in Hcnt.
    rewrite decide_True in Hcnt by done.
    pose proof (cuenta_origen_rango done o).
    pose proof (prefijo_rango es o). pose proof (prefijo_rango es (o + 1)) as Hp1.
    rewrite prefijo_succ in Hp1.
    unfold colocar. simpl. rewrite (Hcp1 o) by lia. simpl.
    rewrite int_add_Some by (unfold in_int, INT_MIN, INT_MAX in *; lia). simpl.
    rewrite vset_lt by lia. simpl. rewrite vset_lt by lia. simpl.
    eexists. split; [done|]. unfold I. simpl. rewrite !length_insert.
    split; [done|]. split; [|split; [done|split]].
    + intros k Hk.
      rewrite (vget_vset cp1 o k (prefijo es o + cuenta_origen done o + 1))
        by (apply vset_lt; lia).
      rewrite cuenta_origen_app, cuenta_origen_1.
      destruct (decide (o = k)) as [->|Hne].
      * rewrite decide_True by done. f_equal. lia.
      * rewrite decide_False by lia. rewrite Hcp1 by done. f_equal. lia.
    + apply Forall_insert; [done|]. simpl. lia.
    + intros k j d' Hk.
      rewrite (vget_vset ci1 (prefijo es o + cuenta_origen done o)
                 (prefijo es k + Z.of_nat j) d) by (apply vset_lt; lia).
      rewrite destinos_app, destinos_1.
      pose proof (length_destinos done k) as Hld.
      pose proof (cuenta_origen_done _ _ _ k Hes) as Hck. simpl in Hck.
      destruct (decide (o = k)) as [->|Hne]; simpl in Hck.
      * rewrite lookup_app_Some. intros [Hj|[Hge Hj]].
        -- apply lookup_lt_Some in Hj as Hlt.
           rewrite decide_False by lia. by apply Hrows.
        -- apply list_lookup_singleton_Some in Hj as [Hj ->].
           rewrite decide_True by lia. done.
      * rewrite app_nil_r. intros Hj. apply lookup_lt_Some in Hj as Hlt.
        rewrite decide_False; [by apply Hrows|].
        destruct (decide (k < o)).
        -- pose proof (prefijo_fila k o ltac:(lia)). lia.
        -- pose proof (prefijo_fila o k ltac:(lia)). lia.
  - exists cp', ci'. split; [done|]. destruct HI as (_ & _ & ? & ? & ?). done.
Qed.

(** Third pass: every row is sorted; the other rows stay. *)
Lemma ordenar_fresco rp ci :
  (∀ k, 0 ≤ k ≤ M + 1 → vget rp k = Some (prefijo es k)) →
  length ci = length es →
  Forall (λ c, 0 ≤ c ≤ M) ci →
  (∀ k, 0 ≤ k < M + 1 →
     slice ci (prefijo es k) (prefijo es (k + 1)) = destinos es k) →
  ∃ ci',
    foldM (ordenar rp) (seqZ 0 (M + 1)) ci = Some ci' ∧
    length ci' = length es ∧
    Forall (λ c, 0 ≤ c ≤ M) ci' ∧
    (∀ k, 0 ≤ k < M + 1 →
       slice ci' (prefijo es k) (prefijo es (k + 1))
         = merge_sort Z.le (destinos es k)).
Proof.
  intros Hrp Hlci Hfci Hrows.
  set (I := λ (done : list Z) (ci : list Z),
    let j := Z.of_nat (length done) in
    length ci = length es ∧
    Forall (λ c, 0 ≤ c ≤ M) ci ∧
    (∀ k, 0 ≤ k < M + 1 →
       slice ci (prefijo es k) (prefijo es (k + 1))
         = if decide (k < j) then merge_sort Z.le (destinos es k) else destinos es k)).
  destruct (foldM_inv I (ordenar rp) (seqZ 0 (M + 1)) ci) as (ci' & Hrun & HI).
  - unfold I. simpl. split; [done|]. split; [done|].
    intros k Hk. rewrite decide_False by lia. by apply Hrows.
  - intros done x ci1 [rest Hsplit] (Hl1 & Hf1 & Hr1). simpl in *.
    apply seqZ_split in Hsplit as (Hx & Hlt & _). rewrite Z.add_0_l in *.
    pose proof (prefijo_rango es x). pose proof (prefijo_rango es (x + 1)).
    pose proof (prefijo_mono es x (x + 1) ltac:(lia)).
    unfold ordenar. rewrite (Hrp x) by lia. simpl. rewrite (Hrp (x + 1)) by lia. simpl.
    destruct (sort_range_Some ci1 (prefijo es x) (prefijo es (x + 1))) as [ci2 Hsort];
      [lia|lia|lia|].
    rewrite Hsort. exists ci2. split; [done|].
    apply sort_range_props in Hsort as (_ & Hl2 & Hperm & Hsame & Hout).
    unfold I. rewrite length_app. simpl.
    split; [lia|]. split; [by rewrite Hperm|].
    intros k Hk. destruct (decide (k = x)) as [->|Hne].
    + rewrite decide_True by lia. rewrite Hsame, Hr1 by lia.
      by rewrite decide_False by lia.
    + pose proof (prefijo_rango es k).
      rewrite (slice_ext ci1 ci2); [|lia|].
      * rewrite Hr1 by done. destruct (decide (k < x)).
        -- by rewrite !decide_True by lia.
        -- by rewrite !decide_False by lia.
      * intros p Hp. apply Hout.
        destruct (decide (k < x)).
        -- left. pose proof (prefijo_mono es (k + 1) x ltac:(lia)). lia.
        -- right. pose proof (prefijo_mono es (x + 1) k ltac:(lia)). lia.
  - exists ci'. split; [done|]. destruct HI as (? & ? & Hr).
    split; [done|]. split; [done|]. intros k Hk. rewrite Hr by done.
    rewrite length_seqZ. by rewrite decide_True by lia.
Qed.

Lemma to_int_id z : 0 ≤ z ≤ INT_MAX → to_int z = z.
Proof.
  unfold to_int, INT_MAX. intros Hz.
  rewrite Z.mod_small by lia. lia.
Qed.

(** [construirCSR] on the state the constructor leaves. *)
Lemma construirCSR_fresco :
  ∃ g, construirCSR es M GrafoDisperso_init = Some g ∧ csr_de es M g.
Proof.
  unfold construirCSR.
  rewrite int_add_Some by (unfold in_int, INT_MIN, INT_MAX in *; lia). simpl.
  rewrite int_add_Some by (unfold in_int, INT_MIN, INT_MAX in *; lia). simpl.
  rewrite to_int_id by lia.
  rewrite !vresize_Some by lia. simpl. rewrite !take_nil. simpl.
  rewrite !Nat.sub_0_r.
  destruct contar_fresco as (rp1 & ge & Hrun1 & Hl1 & H10 & Hcnt & Hlge & Hge & Hsum).
  rewrite Hrun1. simpl.
  destruct (acumular_fresco rp1 Hl1 H10 Hcnt) as (rp & Hrun2 & Hlrp & Hrp).
  rewrite Hrun2. simpl. rewrite Nat2Z.id.
  destruct (colocar_fresco (take (length rp - 1) rp) (replicate (length es) 0))
    as (cp & ci3 & Hrun3 & Hl3 & Hf3 & Hrows3).
  { rewrite length_take. lia. }
  { intros k Hk. rewrite <-Hrp by lia. unfold vget. rewrite !decide_True by lia.
    apply lookup_take_lt. lia. }
  { apply length_replicate. }
  { apply Forall_replicate. lia. }
  rewrite Hrun3. simpl.
  destruct (ordenar_fresco rp ci3 Hrp Hl3 Hf3) as (ci & Hrun4 & Hlci & Hfci & Hrows).
  { intros k Hk. apply list_eq. intros i.
    pose proof (prefijo_rango es k). rewrite slice_lookup by lia.
    rewrite prefijo_succ. pose proof (length_destinos es k) as Hld.
    case_decide as Hi.
    - destruct (lookup_lt_is_Some_2 (destinos es k) i) as [d Hd]; [lia|].
      rewrite Hd. specialize (Hrows3 k i d Hk Hd).
      apply vget_Some in Hrows3 as [_ <-]. f_equal. lia.
    - symmetry. apply lookup_ge_None. lia. }
  rewrite Hrun4. simpl. eexists. split; [done|].
  unfold csr_de. simpl.
  split; [done|]. split; [done|]. split; [lia|]. split; [done|].
  split; [done|]. split; [done|]. split; [done|].
  split; [intros; apply Hrows; lia|]. split; [done|].
  split; [intros; apply Hge; lia|done].
Qed.
End fresco.

Lemma Sorted_le_from_lookup (l : list Z) :
  (∀ i x y, l !! i = Some x → l !! S i = Some y → x ≤ y) → Sorted Z.le l.
Proof.
  induction l as [|x l IH]; intros H; [constructor|]. constructor.
  - apply IH. intros i a b Ha Hb. by apply (H (S i)).
  - destruct l as [|y l]; constructor. by apply (H 0%nat).
Qed.

Section csr_de.
Context (es : list (Z * Z)) (M : Z) (g : GrafoDisperso).
Context (HM : 0 ≤ M) (Hval : aristas_validas M es) (Hg : csr_de es M g).

Lemma csr_de_row_ptr (k : nat) :
  Z.of_nat k ≤ M + 1 → row_ptr g !! k = Some (prefijo es (Z.of_nat k)).
Proof.
  intros Hk. destruct Hg as (_ & _ & _ & Hrp & _).
  rewrite <-vget_nat. apply Hrp. lia.
Qed.

Lemma csr_de_getVecinos u :
  0 ≤ u ≤ M → getVecinos g u = Some (merge_sort Z.le (destinos es u)).
Proof.
  intros Hu. destruct Hg as (HnN & _ & _ & Hrp & Hlci & _ & _ & Hrows & _).
  pose proof (prefijo_rango es u). pose proof (prefijo_rango es (u + 1)).
  rewrite <-Hrows by done.
  apply getVecinos_slice; [lia|apply Hrp; lia|apply Hrp; lia|lia|lia].
Qed.

Lemma csr_de_vecinos u :
  0 ≤ u ≤ M → vecinos g u = merge_sort Z.le (destinos es u).
Proof. intros Hu. unfold vecinos. by rewrite csr_de_getVecinos. Qed.

(** What the degree queries return on the CSR form of [es]. *)
Lemma csr_de_grados u :
  0 ≤ u ≤ M →
  obtenerGrado g u = Some (cuenta_origen es u) ∧
  obtenerGradoEntrada g u = Some (cuenta_destino es u).
Proof.
  intros Hu. destruct Hg as (HnN & _ & _ & Hrp & _ & _ & _ & _ & _ & Hge & _).
  unfold obtenerGrado, obtenerGradoEntrada, nodo_invalido.
  rewrite !decide_False by lia.
  rewrite (Hrp (u + 1)), (Hrp u) by lia. simpl. rewrite prefijo_succ.
  split; [f_equal; lia|]. by apply Hge.
Qed.

(** The CSR form of a valid edge list is a well-formed state. *)
Lemma csr_de_ok : csr_ok g.
Proof.
  pose proof Hg as (HnN & HnA & Hlrp & Hrp & Hlci & Hfci & Hvals & Hrows & _).
  unfold csr_ok. split; [lia|]. split; [|split; [|split; [|split]]].
  - rewrite (csr_de_row_ptr 0) by lia. f_equal. by apply (prefijo_0 M).
  - apply Sorted_le_from_lookup. intros i x y Hx Hy.
    apply lookup_lt_Some in Hy as Hi.
    rewrite csr_de_row_ptr in Hx, Hy by lia. simplify_eq.
    apply prefijo_mono. lia.
  - rewrite last_lookup.
    replace (pred (length (row_ptr g))) with (Z.to_nat (M + 1)) by lia.
    rewrite csr_de_row_ptr by lia. rewrite Z2Nat.id by lia.
    rewrite (prefijo_total M), Hlci by done. done.
  - eapply Forall_impl; [done|]. simpl. lia.
  - apply Forall_seqZ. intros u Hu. rewrite csr_de_vecinos by lia.
    apply Sorted_merge_sort. apply _.
Qed.
End csr_de.

(** ** cargarDatos *)

Lemma leer_aristas_fold (lineas : list string) (es : list (Z * Z)) (m : Z) :
  fold_left procesar_linea lineas (es, m)
  = (es ++ (lineas ≫= aristas_de_linea),
     fold_left (λ m e, Z.max m (Z.max e.1 e.2)) (lineas ≫= aristas_de_linea) m).
Proof.
  revert es m. induction lineas as [|l ls IH]; intros es m.
  - simpl. by rewrite app_nil_r.
  - change (fold_left procesar_linea (l :: ls) (es, m))
      with (fold_left procesar_linea ls (procesar_linea (es, m) l)).
    change ((l :: ls) ≫= aristas_de_linea)
      with (aristas_de_linea l ++ (ls ≫= aristas_de_linea)).
    assert (procesar_linea (es, m) l
            = (es ++ aristas_de_linea l,
               fold_left (λ m e, Z.max m (Z.max e.1 e.2)) (aristas_de_linea l) m)) as ->.
    { unfold procesar_linea, aristas_de_linea.
      destruct l as [|c l']; [by rewrite app_nil_r|].
      destruct (extraer_arista (String c l')) as [[o d]|];
        destruct c as [[] [] [] [] [] [] [] []]; simpl; by rewrite ?app_nil_r. }
    rewrite IH, fold_left_app. by rewrite <-app_assoc.
Qed.

(** The edge list a file loads is the concatenation, in the order of
    the lines, of what each line contributes. *)
Lemma leer_aristas_lineas (contenido : string) :
  leer_aristas contenido
  = (getlines contenido ≫= aristas_de_linea,
     maxNodo_de (getlines contenido ≫= aristas_de_linea)).
Proof. unfold leer_aristas. by rewrite leer_aristas_fold. Qed.

Lemma maxNodo_de_cota (es : list (Z * Z)) (m : Z) :
  let M := fold_left (λ m e, Z.max m (Z.max e.1 e.2)) es m in
  m ≤ M ∧ Forall (λ e, e.1 ≤ M ∧ e.2 ≤ M) es.
Proof.
  revert m. induction es as [|e es IH]; intros m; simpl; [split; [lia|constructor]|].
  destruct (IH (Z.max m (Z.max e.1 e.2))) as [Hm Hall].
  split; [lia|]. constructor; [lia|done].
Qed.

Lemma aristas_validas_maxNodo (es : list (Z * Z)) :
  Forall (λ e, 0 ≤ e.1 ∧ 0 ≤ e.2) es → aristas_validas (maxNodo_de es) es.
Proof.
  intros Hpos. destruct (maxNodo_de_cota es 0) as [_ Hall].
  unfold aristas_validas. rewrite Forall_forall in *.
  intros e He. specialize (Hpos e He). specialize (Hall e He).
  unfold maxNodo_de. lia.
Qed.

(** A load on a freshly constructed engine. *)
Lemma cargarDatos_fresco (fs : string → option string) (filename contenido : string) :
  let es := (leer_aristas contenido).1 in
  let M := (leer_aristas contenido).2 in
  fs filename = Some contenido →
  Forall (λ e, 0 ≤ e.1 ∧ 0 ≤ e.2) es →
  M ≤ INT_MAX - 2 →
  Z.of_nat (length es) ≤ INT_MAX →
  ∃ g, cargarDatos fs filename GrafoDisperso_init = Some (true, g) ∧
       csr_de es M g ∧ csr_ok g.
Proof.
  intros es M Hfs Hpos HM HE. unfold cargarDatos. rewrite Hfs.
  subst es M. rewrite leer_aristas_lineas in *. simpl in *.
  set (es := getlines contenido ≫= aristas_de_linea) in *.
  assert (0 ≤ maxNodo_de es) as HM0 by apply (maxNodo_de_cota es 0).
  pose proof (aristas_validas_maxNodo es Hpos) as Hval.
  destruct (construirCSR_fresco es (maxNodo_de es)) as (g & -> & Hg); [lia|done|done|].
  simpl. exists g. split; [done|]. split; [done|].
  by apply (csr_de_ok es (maxNodo_de es)).
Qed.

(** C10, as the code has it.  On a freshly constructed engine, every
    file that can be opened and whose accepted lines carry node ids in
    [[0, INT_MAX - 2]] loads with success, whatever else it holds; when
    no line yields an edge the load succeeds too and leaves one node
    and no edge. *)
Theorem cargarDatos_exito (fs : string → option string) (filename contenido : string) :
  let es := (leer_aristas contenido).1 in
  let M := (leer_aristas contenido).2 in
  fs filename = Some contenido →
  Forall (λ e, 0 ≤ e.1 ∧ 0 ≤ e.2) es →
  M ≤ INT_MAX - 2 →
  Z.of_nat (length es) ≤ INT_MAX →
  ∃ g, cargarDatos fs filename GrafoDisperso_init = Some (true, g) ∧
       numNodos g = M + 1 ∧
       numAristas g = Z.of_nat (length es) ∧
       (es = [] → numNodos g = 1 ∧ numAristas g = 0).
Proof.
  intros es M Hfs Hpos HM HE.
  destruct (cargarDatos_fresco fs filename contenido Hfs Hpos HM HE)
    as (g & Hrun & (HnN & HnA & _) & _).
  exists g. split; [done|]. split; [done|]. split; [done|].
  intros Hes. fold es M in HnN, HnA. rewrite HnN, HnA.
  subst es M. rewrite leer_aristas_lineas in *. simpl in *.
  rewrite Hes. done.
Qed.

Lemma cargarDatos_exito_witness :
  fs_ejemplo "comentarios.txt" = Some "# nada
% tampoco
"%string ∧
  Forall (λ e, 0 ≤ e.1 ∧ 0 ≤ e.2) [] ∧
  0 ≤ INT_MAX - 2 ∧
  0 ≤ INT_MAX ∧
  ∃ g, cargarDatos fs_ejemplo "comentarios.txt" GrafoDisperso_init = Some (true, g) ∧
       numNodos g = 0 + 1 ∧
       numAristas g = 0 ∧
       (@nil (Z * Z) = [] → numNodos g = 1 ∧ numAristas g = 0).
Proof.
  split; [reflexivity|]. split; [constructor|].
  split; [vm_compute; discriminate|]. split; [vm_compute; discriminate|].
  apply (cargarDatos_exito fs_ejemplo "comentarios.txt" "# nada
% tampoco
"); [reflexivity|constructor|vm_compute; discriminate|vm_compute; discriminate].
Defined.

(** C10 as stated fails: a file that opens and holds the line [0 -1]
    makes the first pass of [construirCSR] write [gradoEntrada[-1]];
    the load has no defined result. *)
Lemma cargarDatos_id_negativo :
  fs_ejemplo "negativo.txt" = Some "0 -1"%string ∧
  leer_aristas "0 -1" = ([(0, -1)], 0) ∧
  cargarDatos fs_ejemplo "negativo.txt" GrafoDisperso_init = None.
Proof. split; [reflexivity|]. split; reflexivity. Qed.

(** ** A second load on the same engine *)

(** C2 at a concrete input.  After [otro.txt] (the edge 5 -> 0) has
    been loaded, loading [uno.txt] (the edge 0 -> 1) leaves the
    in-degree 1 at node 0, where the second file alone gives 0:
    [resize] keeps the tallies of the first load. *)
Theorem segunda_carga_grado_entrada :
  ∃ g1 g2 g2',
    cargarDatos fs_ejemplo "otro.txt" GrafoDisperso_init = Some (true, g1) ∧
    cargarDatos fs_ejemplo "uno.txt" g1 = Some (true, g2) ∧
    cargarDatos fs_ejemplo "uno.txt" GrafoDisperso_init = Some (true, g2') ∧
    obtenerGradoEntrada g2 0 = Some 1 ∧
    obtenerGradoEntrada g2' 0 = Some 0.
Proof. by eexists _, _, _. Qed.

(** C3 at a concrete input (the defect of C2, seen from
    [construirCSR]): built over the state the edge list [[(5, 0)]]
    left, the construction from [[(0, 1)]] succeeds with one edge and
    in-degrees that sum to 2. *)
Theorem construirCSR_segunda_vez :
  ∃ g1 g2,
    construirCSR [(5, 0)] 5 GrafoDisperso_init = Some g1 ∧
    construirCSR [(0, 1)] 1 g1 = Some g2 ∧
    numAristas g2 = 1 ∧
    gradoEntrada g2 = [1; 1] ∧
    suma (gradoEntrada g2) = 2.
Proof. by eexists _, _. Qed.

(** Loading the same one-edge file twice: the second construction
    sorts row 0 over [[0, 2)] in a vector of length 1. *)
Example segunda_carga_sin_resultado :
  ∃ g1,
    cargarDatos fs_ejemplo "uno.txt" GrafoDisperso_init = Some (true, g1) ∧
    cargarDatos fs_ejemplo "uno.txt" g1 = None.
Proof. by eexists. Qed.

(** X1.  On a freshly constructed engine the invariants hold: for a valid
    edge list over the nodes [0 .. M], [construirCSR] has a result in
    which [row_ptr] has
    [numNodos + 1] entries, is non-decreasing and ends at
    [numAristas], which is the length of the edge list, of
    [column_indices] and of [values]; every row is sorted ascending and
    the in-degrees sum to [numAristas]. *)
Lemma construirCSR_invariantes (es : list (Z * Z)) (M : Z) :
  0 ≤ M ≤ INT_MAX - 2 →
  Z.of_nat (length es) ≤ INT_MAX →
  aristas_validas M es →
  ∃ g, construirCSR es M GrafoDisperso_init = Some g ∧
       numNodos g = M + 1 ∧
       Z.of_nat (length (row_ptr g)) = numNodos g + 1 ∧
       Sorted Z.le (row_ptr g) ∧
       vget (row_ptr g) (numNodos g) = Some (numAristas g) ∧
       numAristas g = Z.of_nat (length es) ∧
       length (column_indices g) = length es ∧
       length (values g) = length es ∧
       (∀ i a b, 0 ≤ i < numNodos g →
          vget (row_ptr g) i = Some a → vget (row_ptr g) (i + 1) = Some b →
          Sorted Z.le (slice (column_indices g) a b)) ∧
       suma (gradoEntrada g) = numAristas g.
Proof.
  intros HM HE Hval.
  destruct (construirCSR_fresco es M HM HE Hval) as (g & Hrun & Hg).
  pose proof (csr_de_ok es M g ltac:(lia) Hval Hg) as (Hl & _ & Hs & _).
  destruct Hg as (HnN & HnA & Hlrp & Hrp & Hlci & Hfci & Hvals & Hrows & _ & _ & Hsum).
  exists g. split; [done|]. split; [done|]. split; [done|]. split; [done|].
  split; [|split; [done|split; [done|split; [|split]]]].
  - rewrite Hrp, HnN, HnA by lia. by rewrite (prefijo_total M).
  - by rewrite Hvals, length_replicate.
  - intros i a b Hi Ha Hb. rewrite Hrp in Ha, Hb by lia. simplify_eq.
    rewrite Hrows by lia. apply Sorted_merge_sort. apply _.
  - by rewrite Hsum, HnA.
Qed.

(** ** The lines that yield an edge *)

Section lineas.
Implicit Types (s sp ds rest : string) (c : ascii).

Lemma append_cons c s t : String c s +:+ t = String c (s +:+ t).
Proof. done. Qed.

Lemma append_nil s : EmptyString +:+ s = s.
Proof. done. Qed.

Lemma append_assoc s t u : (s +:+ t) +:+ u = s +:+ t +:+ u.
Proof. induction s as [|c s IH]; [done|]. rewrite ?append_cons. by f_equal. Qed.

Lemma append_nil_r s : s +:+ EmptyString = s.
Proof. induction s as [|c s IH]; [done|]. rewrite ?append_cons. by f_equal. Qed.

Lemma isspace_no_digito c :
  isspace c = true → digito c = None ∧ c ≠ "+"%char ∧ c ≠ "-"%char.
Proof. destruct c as [[] [] [] [] [] [] [] []]; by vm_compute. Qed.

Lemma digito_no_espacio c d :
  digito c = Some d → isspace c = false ∧ c ≠ "+"%char ∧ c ≠ "-"%char.
Proof. destruct c as [[] [] [] [] [] [] [] []]; by vm_compute. Qed.

Lemma skipws_app sp s : solo_espacios sp = true → skipws (sp +:+ s) = skipws s.
Proof.
  induction sp as [|c sp IH]; [done|]. simpl.
  intros [Hc Hsp]%andb_prop. rewrite ?append_cons. simpl. rewrite Hc. by apply IH.
Qed.

Lemma skipws_partes s : ∃ sp, s = sp +:+ skipws s ∧ solo_espacios sp = true.
Proof.
  induction s as [|c s (sp & Hs & Hsp)]; [by exists EmptyString|].
  simpl. destruct (isspace c) eqn:Hc.
  - exists (String c sp). rewrite ?append_cons, <-Hs. split; [done|].
    simpl. by rewrite Hc.
  - by exists EmptyString.
Qed.

Lemma skipws_inicio s :
  match skipws s with String c _ => isspace c = false | EmptyString => True end.
Proof.
  induction s as [|c s IH]; [done|]. simpl.
  destruct (isspace c) eqn:Hc; [done|]. simpl. done.
Qed.

Lemma leer_digitos_app ds rest acc :
  solo_digitos ds = true → sin_digito_inicial rest →
  leer_digitos (ds +:+ rest) acc = (valor_decimal ds acc, rest).
Proof.
  revert acc. induction ds as [|c ds IH]; intros acc Hds Hrest.
  - rewrite ?append_nil. simpl. destruct rest as [|c r]; [done|].
    simpl in *. by rewrite Hrest.
  - rewrite ?append_cons. simpl in *. destruct (digito c); [|done]. by apply IH.
Qed.

Lemma leer_digitos_partes s acc v rest :
  leer_digitos s acc = (v, rest) →
  ∃ ds, s = ds +:+ rest ∧ solo_digitos ds = true ∧
        v = valor_decimal ds acc ∧ sin_digito_inicial rest.
Proof.
  revert acc. induction s as [|c s IH]; intros acc; simpl.
  - intros [= <- <-]. by exists EmptyString.
  - destruct (digito c) as [d|] eqn:Hc.
    + intros Hrun. destruct (IH _ Hrun) as (ds & -> & Hds & -> & Hrest).
      exists (String c ds). simpl. by rewrite Hc.
    + intros [= <- <-]. exists EmptyString. by simpl.
Qed.

(** [extraer_int] with the match on the sign character spelled out. *)
Lemma extraer_int_signo s :
  extraer_int s =
  let s1 := skipws s in
  let '(neg, s2) :=
    match s1 with
    | String c s' =>
        if decide (c = "-"%char) then (true, s')
        else if decide (c = "+"%char) then (false, s')
        else (false, s1)
    | EmptyString => (false, s1)
    end in
  match s2 with
  | String c _ =>
      match digito c with
      | Some _ =>
          let '(v, rest) := leer_digitos s2 0 in
          let v := if neg : bool then - v else v in
          if decide (in_int v) then Some (v, rest) else None
      | None => None
      end
  | EmptyString => None
  end.
Proof.
  unfold extraer_int. destruct (skipws s) as [|c s']; [done|].
  destruct c as [[] [] [] [] [] [] [] []]; reflexivity.
Qed.

(** An integer literal, white space before it and no digit after it
    is what [extraer_int] reads, and nothing else. *)
Lemma extraer_int_iff s v rest :
  extraer_int s = Some (v, rest) ↔
  ∃ sp lit, s = sp +:+ lit +:+ rest ∧ solo_espacios sp = true ∧
            literal_entero lit v ∧ in_int v ∧ sin_digito_inicial rest.
Proof.
  rewrite extraer_int_signo. split.
  - destruct (skipws_partes s) as (sp & Hs & Hsp). cbv zeta.
    destruct (skipws s) as [|c s1] eqn:Hs1; [done|].
    assert (∀ (neg : bool) s2,
      match s2 with
      | String c _ =>
          match digito c with
          | Some _ =>
              let '(v, rest) := leer_digitos s2 0 in
              let v := if neg then - v else v in
              if decide (in_int v) then Some (v, rest) else None
          | None => None
          end
      | EmptyString => None
      end = Some (v, rest) →
      ∃ ds, s2 = ds +:+ rest ∧ ds ≠ EmptyString ∧ solo_digitos ds = true ∧
            v = (if neg then - valor_decimal ds 0 else valor_decimal ds 0) ∧
            in_int v ∧ sin_digito_inicial rest) as Hcuerpo.
    { intros neg s2. destruct s2 as [|c2 s2']; [done|].
      destruct (digito c2) as [d|] eqn:Hc2; [|done].
      destruct (leer_digitos (String c2 s2') 0) as [v0 r0] eqn:Hrun.
      cbv zeta. case_decide as Hin; [|done]. intros [= <- <-].
      destruct (leer_digitos_partes _ _ _ _ Hrun) as (ds & Heq & Hds & -> & Hr).
      exists ds. split; [done|]. split; [|done].
      intros ->. rewrite ?append_nil in Heq. subst r0. simpl in Hr. congruence. }
    destruct (decide (c = "-"%char)) as [->|Hm];
      [|destruct (decide (c = "+"%char)) as [->|Hp]].
    + intros Hrun. destruct (Hcuerpo true s1 Hrun) as (ds & -> & Hne & Hds & -> & Hin & Hr).
      exists sp, (String "-"%char ds). rewrite ?append_cons.
      split; [done|]. split; [done|]. split; [|done].
      exists ds. split; [done|]. split; [done|]. right. right. done.
    + intros Hrun. destruct (Hcuerpo false s1 Hrun) as (ds & -> & Hne & Hds & -> & Hin & Hr).
      exists sp, (String "+"%char ds). rewrite ?append_cons.
      split; [done|]. split; [done|]. split; [|done].
      exists ds. split; [done|]. split; [done|]. right. left. done.
    + intros Hrun.
      destruct (Hcuerpo false (String c s1) Hrun) as (ds & Heq & Hne & Hds & -> & Hin & Hr).
      exists sp, ds. rewrite <-Heq. split; [done|]. split; [done|]. split; [|done].
      exists ds. split; [done|]. split; [done|]. left. done.
  - intros (sp & lit & -> & Hsp & (ds & Hne & Hds & Hlit) & Hin & Hr).
    rewrite skipws_app by done. cbv zeta.
    destruct ds as [|c0 ds0]; [done|].
    assert (∃ d0, digito c0 = Some d0) as [d0 Hc0].
    { simpl in Hds. destruct (digito c0); [eauto|done]. }
    destruct (digito_no_espacio c0 d0 Hc0) as (Hs0 & Hp0 & Hm0).
    pose proof (leer_digitos_app (String c0 ds0) rest 0 Hds Hr) as Hrun.
    rewrite ?append_cons in Hrun.
    destruct Hlit as [[-> ->]|[[-> ->]|[-> ->]]].
    + rewrite ?append_cons. simpl skipws. rewrite Hs0.
      destruct (decide (c0 = "-"%char)); [done|].
      destruct (decide (c0 = "+"%char)); [done|].
      cbv beta iota. rewrite Hc0, Hrun. by destruct (decide (in_int _)).
    + rewrite ?append_cons. simpl skipws.
      replace (isspace "+") with false by (by vm_compute). cbv beta iota.
      destruct (decide ("+"%char = "-"%char)); [done|].
      destruct (decide ("+"%char = "+"%char)); [|done].
      cbv beta iota. rewrite Hc0, Hrun. by destruct (decide (in_int _)).
    + rewrite ?append_cons. simpl skipws.
      replace (isspace "-") with false by (by vm_compute). cbv beta iota.
      destruct (decide ("-"%char = "-"%char)); [|done].
      cbv beta iota. rewrite Hc0, Hrun. by destruct (decide (in_int _)).
Qed.
End lineas.

Section aristas_de_lineas.
Implicit Types (s t linea : string) (c : ascii).

Lemma literal_entero_no_vacio lit v : literal_entero lit v → lit ≠ EmptyString.
Proof. intros (ds & Hne & _ & [[-> _]|[[-> _]|[-> _]]]); done. Qed.

Lemma sin_digito_inicial_app s t :
  s ≠ EmptyString → sin_digito_inicial (s +:+ t) ↔ sin_digito_inicial s.
Proof. by destruct s. Qed.

Lemma append_no_vacio s t : t ≠ EmptyString → s +:+ t ≠ EmptyString.
Proof. by destruct s. Qed.

(** The lines from which [iss >> origen >> destino] succeeds. *)
Lemma extraer_arista_iff linea a b :
  extraer_arista linea = Some (a, b) ↔ empieza_con_dos_enteros linea a b.
Proof.
  unfold extraer_arista, empieza_con_dos_enteros. split.
  - destruct (extraer_int linea) as [[a' r1]|] eqn:H1; simpl; [|done].
    destruct (extraer_int r1) as [[b' r2]|] eqn:H2; simpl; [|done].
    intros [= -> ->].
    apply extraer_int_iff in H1 as (sp1 & lit1 & -> & Hsp1 & Hlit1 & Hin1 & Hr1).
    apply extraer_int_iff in H2 as (sp2 & lit2 & -> & Hsp2 & Hlit2 & Hin2 & Hr2).
    exists sp1, lit1, sp2, lit2, r2. repeat (split; [done|]). split; [|done].
    rewrite <-(append_assoc sp2 lit2 r2) in Hr1.
    apply sin_digito_inicial_app in Hr1; [done|].
    apply append_no_vacio. by eapply literal_entero_no_vacio.
  - intros (sp1 & lit1 & sp2 & lit2 & resto & -> & Hsp1 & Hlit1 & Hin1
            & Hsp2 & Hlit2 & Hin2 & Hr1 & Hr2).
    assert (extraer_int (sp1 +:+ lit1 +:+ sp2 +:+ lit2 +:+ resto)
            = Some (a, sp2 +:+ lit2 +:+ resto)) as ->.
    { apply extraer_int_iff. exists sp1, lit1. repeat (split; [done|]).
      rewrite <-(append_assoc sp2 lit2 resto).
      apply sin_digito_inicial_app; [|done].
      apply append_no_vacio. by eapply literal_entero_no_vacio. }
    simpl.
    assert (extraer_int (sp2 +:+ lit2 +:+ resto) = Some (b, resto)) as ->.
    { apply extraer_int_iff. by exists sp2, lit2. }
    done.
Qed.

Lemma procesar_linea_no_comentario c linea st :
  c ≠ "#"%char →
  procesar_linea st (String c linea) =
  match extraer_arista (String c linea) with
  | Some (origen, destino) =>
      (st.1 ++ [(origen, destino)], Z.max st.2 (Z.max origen destino))
  | None => st
  end.
Proof.
  intros Hc. destruct st as [aristas maxNodo]. unfold procesar_linea.
  destruct c as [[] [] [] [] [] [] [] []]; done.
Qed.
End aristas_de_lineas.

(** C7, as the code has it.  A non-empty line that does not start with
    [#] adds an edge exactly when it starts with two integers that fit
    an [int]: white space, an integer, white space (which may be
    missing before a sign), an integer, and then any text that does not
    go on with a digit.  The edge is made of the two values and the
    loop goes on with the next lines.  Every other such line is
    skipped: the edge list and the maximum stay as they are and the
    loop goes on with the next lines. *)
Theorem linea_aporta_arista (c : ascii) (linea : string)
    (st : list (Z * Z) * Z) (lineas : list string) :
  c ≠ "#"%char →
  (∀ a b, empieza_con_dos_enteros (String c linea) a b →
     fold_left procesar_linea (String c linea :: lineas) st
     = fold_left procesar_linea lineas
         (st.1 ++ [(a, b)], Z.max st.2 (Z.max a b))) ∧
  ((∀ a b, ¬ empieza_con_dos_enteros (String c linea) a b) →
     fold_left procesar_linea (String c linea :: lineas) st
     = fold_left procesar_linea lineas st).
Proof.
  intros Hc.
  change (fold_left procesar_linea (String c linea :: lineas) st)
    with (fold_left procesar_linea lineas (procesar_linea st (String c linea))).
  rewrite procesar_linea_no_comentario by done. split.
  - intros a b Hab. apply extraer_arista_iff in Hab. by rewrite Hab.
  - intros Hno. destruct (extraer_arista (String c linea)) as [[a b]|] eqn:He; [|done].
    apply extraer_arista_iff in He. by destruct (Hno a b).
Qed.

Lemma linea_aporta_arista_witness :
  "1"%char ≠ "#"%char ∧
  (∀ a b, empieza_con_dos_enteros "1 2 3" a b →
     fold_left procesar_linea ["1 2 3"; "x"]%string ([], 0)
     = fold_left procesar_linea ["x"]%string ([] ++ [(a, b)], Z.max 0 (Z.max a b))) ∧
  ((∀ a b, ¬ empieza_con_dos_enteros "1 2 3" a b) →
     fold_left procesar_linea ["1 2 3"; "x"]%string ([], 0)
     = fold_left procesar_linea ["x"]%string ([], 0)).
Proof.
  split; [discriminate|].
  apply (linea_aporta_arista "1" " 2 3" ([], 0) ["x"]%string). discriminate.
Defined.

(** C7 as stated fails in both directions: the line [1 2 3] holds three
    integers and adds the edge [(1, 2)]; the line [99999999999 1] holds
    exactly two integers and adds nothing, the first one not fitting an
    [int]. *)
Lemma dos_enteros_contraejemplo :
  spec_dos_enteros "1 2 3" = false ∧
  procesar_linea ([], 0) "1 2 3" = ([(1, 2)], 2) ∧
  spec_dos_enteros "99999999999 1" = true ∧
  procesar_linea ([], 0) "99999999999 1" = ([], 0).
Proof. repeat split; reflexivity. Qed.

Example empieza_con_dos_enteros_ejemplo : empieza_con_dos_enteros "1 2 3" 1 2.
Proof. by apply extraer_arista_iff. Qed.

Example spec_dos_enteros_ejemplo : spec_dos_enteros "  7	8 " = true.
Proof. reflexivity. Qed.

(** ** Every defined load on a fresh engine is a well-formed graph *)

Lemma contar_destinos (es : list (Z * Z)) (st st' : list Z * list Z) :
  foldM contar es st = Some st' → Forall (λ e, 0 ≤ e.2) es.
Proof.
  intros Hrun.
  apply (foldM_inv_Some (λ done _, Forall (λ e : Z * Z, 0 ≤ e.2) done) _ _ _ _ Hrun);
    [constructor|].
  intros done e [rp ge] s' _ Hdone Hstep. apply Forall_app. split; [done|].
  constructor; [|constructor]. unfold contar in Hstep.
  destruct (int_add e.1 1) as [k|]; simpl in Hstep; [|done].
  destruct (vget rp k) as [c|]; simpl in Hstep; [|done].
  destruct (int_add c 1) as [c'|]; simpl in Hstep; [|done].
  destruct (vset rp k c'); simpl in Hstep; [|done].
  destruct (vget ge e.2) eqn:Hd; simpl in Hstep; [|done].
  by apply vget_Some in Hd as [? _].
Qed.

Lemma colocar_origenes (es : list (Z * Z)) (st st' : list Z * list Z) :
  foldM colocar es st = Some st' → Forall (λ e, 0 ≤ e.1) es.
Proof.
  intros Hrun.
  apply (foldM_inv_Some (λ done _, Forall (λ e : Z * Z, 0 ≤ e.1) done) _ _ _ _ Hrun);
    [constructor|].
  intros done e [cp ci] s' _ Hdone Hstep. apply Forall_app. split; [done|].
  constructor; [|constructor]. unfold colocar in Hstep.
  destruct (vget cp e.1) eqn:Ho; simpl in Hstep; [|done].
  by apply vget_Some in Ho as [? _].
Qed.

(** When [construirCSR] has a result on the fresh engine, no edge had a
    negative endpoint, and the result is the CSR form of the edge list. *)
Lemma construirCSR_definido (es : list (Z * Z)) (M : Z) (g : GrafoDisperso) :
  construirCSR es M GrafoDisperso_init = Some g →
  0 ≤ M → Forall (λ e, e.1 ≤ M ∧ e.2 ≤ M) es →
  Z.of_nat (length es) ≤ INT_MAX →
  aristas_validas M es ∧ csr_de es M g ∧ csr_ok g.
Proof.
  intros Hrun HM Hmax HE.
  assert (M ≤ INT_MAX - 2 ∧ aristas_validas M es) as [HM2 Hval].
  { unfold construirCSR in Hrun.
    apply bind_Some in Hrun as (nN & HnN & Hrun).
    apply int_add_inv in HnN as [-> _].
    apply bind_Some in Hrun as (nN1 & HnN1 & Hrun).
    apply int_add_inv in HnN1 as [-> HnN1].
    apply bind_Some in Hrun as (rp0 & _ & Hrun).
    apply bind_Some in Hrun as (ge0 & _ & Hrun).
    apply bind_Some in Hrun as ([rp1 ge] & Hcontar & Hrun).
    apply bind_Some in Hrun as (rp & _ & Hrun).
    apply bind_Some in Hrun as (ci0 & _ & Hrun).
    apply bind_Some in Hrun as (vals & _ & Hrun).
    apply bind_Some in Hrun as ([cp ci1] & Hcolocar & _).
    apply contar_destinos in Hcontar. apply colocar_origenes in Hcolocar.
    split; [unfold in_int, INT_MAX in *; lia|].
    unfold aristas_validas. rewrite Forall_forall in *.
    intros e He. specialize (Hmax e He). specialize (Hcontar e He).
    specialize (Hcolocar e He). simpl in *. lia. }
  destruct (construirCSR_fresco es M) as (g' & Hrun' & Hg); [lia|done|done|].
  rewrite Hrun in Hrun'. injection Hrun' as <-.
  split; [done|]. split; [done|]. by apply (csr_de_ok es M).
Qed.

(** X6.  Every graph a load leaves on a freshly constructed engine is
    well-formed: the traversal theorems apply to it. *)
Lemma cargarDatos_csr_ok (fs : string → option string) (filename : string)
    (g : GrafoDisperso) :
  cargarDatos fs filename GrafoDisperso_init = Some (true, g) →
  (∀ contenido, fs filename = Some contenido →
     Z.of_nat (length (leer_aristas contenido).1) ≤ INT_MAX) →
  csr_ok g.
Proof.
  unfold cargarDatos. destruct (fs filename) as [contenido|]; [|done].
  intros Hrun HE. specialize (HE contenido eq_refl).
  rewrite leer_aristas_lineas in *. simpl in *.
  set (es := getlines contenido ≫= aristas_de_linea) in *.
  destruct (construirCSR es (maxNodo_de es) GrafoDisperso_init) as [g'|] eqn:Hc;
    simpl in Hrun; [|done].
  injection Hrun as <-.
  destruct (maxNodo_de_cota es 0) as [HM Hall].
  by destruct (construirCSR_definido es (maxNodo_de es) g' Hc HM Hall HE) as (_ & _ & ?).
Qed.

(** The depth bound of [dfs_recursivo] is not reached: every larger
    bound gives the same traversal. *)
Lemma dfs_recursivo_estable (g : GrafoDisperso) (s : Z) (n : nat) :
  csr_ok g → 0 ≤ s < numNodos g → (Z.to_nat (numNodos g) < n)%nat →
  dfs_recursivo_aux n g [] s = dfs_recursivo g s.
Proof.
  intros Hok Hs Hn.
  assert (marcas_de g (replicate (Z.to_nat (numNodos g)) false) []) as Hrel.
  { split; [rewrite length_replicate; lia|]. intros v. rewrite elem_of_nil.
    split; [|done]. rewrite vget_Some. intros [_ Hr].
    by apply lookup_replicate in Hr as [? _]. }
  assert (∀ x, x ∈ [s] → 0 ≤ x < numNodos g) as Hxs
    by (intros x; rewrite list_elem_of_singleton; by intros ->).
  assert (∀ v : Z, v ∈ [] → 0 ≤ v < numNodos g) as Hres
    by (intros v Hv; by apply elem_of_nil in Hv).
  destruct (dfs_simula g Hok n [s] [] [] _ [] Hrel (NoDup_nil_2) Hres Hxs (λ v H, H))
    as (k1 & vis1 & out1 & Heq1 & _ & _ & Hrun1); [simpl; lia|].
  destruct (dfs_simula g Hok (S (Z.to_nat (numNodos g))) [s] [] [] _ []
              Hrel (NoDup_nil_2) Hres Hxs (λ v H, H))
    as (k2 & vis2 & out2 & Heq2 & _ & _ & Hrun2); [simpl; lia|].
  specialize (Hrun1 k2). specialize (Hrun2 k1).
  rewrite (Nat.add_comm k2 k1), Hrun1 in Hrun2.
  unfold dfs_recursivo. simpl in *. rewrite Heq1, Heq2.
  destruct k1, k2; simpl in Hrun2; congruence.
Qed.

(** * Further properties of the code *)

(** ** The first load *)

Lemma construirCSR_invariantes_witness :
  0 ≤ 2 ≤ INT_MAX - 2 ∧
  Z.of_nat (length [(0, 1); (0, 2); (1, 2); (2, 0)]) ≤ INT_MAX ∧
  aristas_validas 2 [(0, 1); (0, 2); (1, 2); (2, 0)] ∧
  ∃ g, construirCSR [(0, 1); (0, 2); (1, 2); (2, 0)] 2 GrafoDisperso_init = Some g ∧
       numNodos g = 2 + 1 ∧
       Z.of_nat (length (row_ptr g)) = numNodos g + 1 ∧
       Sorted Z.le (row_ptr g) ∧
       vget (row_ptr g) (numNodos g) = Some (numAristas g) ∧
       numAristas g = Z.of_nat (length [(0, 1); (0, 2); (1, 2); (2, 0)]) ∧
       length (column_indices g) = length [(0, 1); (0, 2); (1, 2); (2, 0)] ∧
       length (values g) = length [(0, 1); (0, 2); (1, 2); (2, 0)] ∧
       (∀ i a b, 0 ≤ i < numNodos g →
          vget (row_ptr g) i = Some a → vget (row_ptr g) (i + 1) = Some b →
          Sorted Z.le (slice (column_indices g) a b)) ∧
       suma (gradoEntrada g) = numAristas g.
Proof.
  assert (0 ≤ 2 ≤ INT_MAX - 2) as H1 by (by vm_compute).
  assert (Z.of_nat (length [(0, 1); (0, 2); (1, 2); (2, 0)]) ≤ INT_MAX) as H2
    by (by vm_compute).
  assert (aristas_validas 2 [(0, 1); (0, 2); (1, 2); (2, 0)]) as H3
    by (apply (bool_decide_unpack _); by vm_compute).
  split; [exact H1|]. split; [exact H2|]. split; [exact H3|].
  exact (construirCSR_invariantes [(0, 1); (0, 2); (1, 2); (2, 0)] 2 H1 H2 H3).
Defined.

(** X2.  After a load on a freshly constructed engine, [getVecinos] of a
    node is the ascending list of the destinations of the edges of the
    file that leave the node, an edge written twice counting twice. *)
Theorem primera_carga_vecinos (fs : string → option string)
    (filename contenido : string) :
  let es := (leer_aristas contenido).1 in
  let M := (leer_aristas contenido).2 in
  fs filename = Some contenido →
  Forall (λ e, 0 ≤ e.1 ∧ 0 ≤ e.2) es →
  M ≤ INT_MAX - 2 →
  Z.of_nat (length es) ≤ INT_MAX →
  ∃ g, cargarDatos fs filename GrafoDisperso_init = Some (true, g) ∧
       ∀ u, 0 ≤ u < numNodos g →
         ∃ l, getVecinos g u = Some l ∧ Sorted Z.le l ∧ l ≡ₚ destinos es u.
Proof.
  intros es M Hfs Hpos HM HE.
  destruct (cargarDatos_fresco fs filename contenido Hfs Hpos HM HE)
    as (g & Hrun & Hg & Hok).
  exists g. split; [done|]. intros u Hu.
  assert (numNodos g = M + 1) as HnN by (by destruct Hg as (? & _)).
  exists (merge_sort Z.le (destinos es u)).
  split; [apply (csr_de_getVecinos es M g Hg); subst M; lia|].
  split; [apply Sorted_merge_sort; apply _|apply merge_sort_Permutation].
Qed.

(** X3.  After a load on a freshly constructed engine, the out-degree of a
    node is the number of edges of the file that leave it and its
    in-degree the number of edges that enter it. *)
Theorem primera_carga_grados (fs : string → option string)
    (filename contenido : string) :
  let es := (leer_aristas contenido).1 in
  let M := (leer_aristas contenido).2 in
  fs filename = Some contenido →
  Forall (λ e, 0 ≤ e.1 ∧ 0 ≤ e.2) es →
  M ≤ INT_MAX - 2 →
  Z.of_nat (length es) ≤ INT_MAX →
  ∃ g, cargarDatos fs filename GrafoDisperso_init = Some (true, g) ∧
       ∀ u, 0 ≤ u < numNodos g →
         obtenerGrado g u = Some (cuenta_origen es u) ∧
         obtenerGradoEntrada g u = Some (cuenta_destino es u).
Proof.
  intros es M Hfs Hpos HM HE.
  destruct (cargarDatos_fresco fs filename contenido Hfs Hpos HM HE)
    as (g & Hrun & Hg & Hok).
  exists g. split; [done|]. intros u Hu.
  assert (numNodos g = M + 1) as HnN by (by destruct Hg as (? & _)).
  apply (csr_de_grados es M g Hg). subst M. lia.
Qed.

Lemma ejemplo_hipotesis :
  fs_ejemplo "ejemplo.txt" = Some contenido_ejemplo ∧
  Forall (λ e, 0 ≤ e.1 ∧ 0 ≤ e.2) (leer_aristas contenido_ejemplo).1 ∧
  (leer_aristas contenido_ejemplo).2 ≤ INT_MAX - 2 ∧
  Z.of_nat (length (leer_aristas contenido_ejemplo).1) ≤ INT_MAX.
Proof.
  split; [reflexivity|]. split; [|split; by vm_compute].
  apply (bool_decide_unpack _). by vm_compute.
Defined.

Lemma primera_carga_vecinos_witness :
  fs_ejemplo "ejemplo.txt" = Some contenido_ejemplo ∧
  Forall (λ e, 0 ≤ e.1 ∧ 0 ≤ e.2) (leer_aristas contenido_ejemplo).1 ∧
  (leer_aristas contenido_ejemplo).2 ≤ INT_MAX - 2 ∧
  Z.of_nat (length (leer_aristas contenido_ejemplo).1) ≤ INT_MAX ∧
  ∃ g, cargarDatos fs_ejemplo "ejemplo.txt" GrafoDisperso_init = Some (true, g) ∧
       ∀ u, 0 ≤ u < numNodos g →
         ∃ l, getVecinos g u = Some l ∧ Sorted Z.le l ∧
              l ≡ₚ destinos (leer_aristas contenido_ejemplo).1 u.
Proof.
  destruct ejemplo_hipotesis as (H1 & H2 & H3 & H4).
  split; [exact H1|]. split; [exact H2|]. split; [exact H3|]. split; [exact H4|].
  exact (primera_carga_vecinos fs_ejemplo "ejemplo.txt" contenido_ejemplo H1 H2 H3 H4).
Defined.

Lemma primera_carga_grados_witness :
  fs_ejemplo "ejemplo.txt" = Some contenido_ejemplo ∧
  Forall (λ e, 0 ≤ e.1 ∧ 0 ≤ e.2) (leer_aristas contenido_ejemplo).1 ∧
  (leer_aristas contenido_ejemplo).2 ≤ INT_MAX - 2 ∧
  Z.of_nat (length (leer_aristas contenido_ejemplo).1) ≤ INT_MAX ∧
  ∃ g, cargarDatos fs_ejemplo "ejemplo.txt" GrafoDisperso_init = Some (true, g) ∧
       ∀ u, 0 ≤ u < numNodos g →
         obtenerGrado g u = Some (cuenta_origen (leer_aristas contenido_ejemplo).1 u) ∧
         obtenerGradoEntrada g u
           = Some (cuenta_destino (leer_aristas contenido_ejemplo).1 u).
Proof.
  destruct ejemplo_hipotesis as (H1 & H2 & H3 & H4).
  split; [exact H1|]. split; [exact H2|]. split; [exact H3|]. split; [exact H4|].
  exact (primera_carga_grados fs_ejemplo "ejemplo.txt" contenido_ejemplo H1 H2 H3 H4).
Defined.

(** ** Every load, whatever the engine held before *)

Lemma foldM_preserva {A S} (P : S → Prop) (f : S → A → option S) (l : list A) (s s' : S) :
  (∀ s x s', P s → f s x = Some s' → P s') →
  P s → foldM f l s = Some s' → P s'.
Proof.
  intros Hstep H0 Hrun.
  apply (foldM_inv_Some (λ _ s, P s) f l s s' Hrun H0).
  intros done x s1 s2 _. apply Hstep.
Qed.

Lemma to_int_no_envuelve (z : Z) : 0 ≤ z ≤ INT_MAX → to_int z = z.
Proof.
  unfold to_int, INT_MAX. intros Hz. rewrite Z.mod_small; lia.
Qed.

(** The steps a construction with a result went through. *)
Lemma construirCSR_inv (es : list (Z * Z)) (M : Z) (g g' : GrafoDisperso) :
  construirCSR es M g = Some g' →
  let nA := to_int (Z.of_nat (length es)) in
  ∃ rp0 ge0 rp1 ge rp ci0 vals cp ci1 ci,
    in_int (M + 1) ∧ in_int (M + 1 + 1) ∧
    vresize (M + 1 + 1) 0 (row_ptr g) = Some rp0 ∧
    vresize (M + 1) 0 (gradoEntrada g) = Some ge0 ∧
    foldM contar es (rp0, ge0) = Some (rp1, ge) ∧
    foldM acumular (seqZ 1 (M + 1)) rp1 = Some rp ∧
    vresize nA 0 (column_indices g) = Some ci0 ∧
    vresize nA 1 (values g) = Some vals ∧
    foldM colocar es (take (length rp - 1) rp, ci0) = Some (cp, ci1) ∧
    foldM (ordenar rp) (seqZ 0 (M + 1)) ci1 = Some ci ∧
    g' = mkGrafo rp ci vals (M + 1) nA ge.
Proof.
  intros Hrun nA. unfold construirCSR in Hrun.
  apply bind_Some in Hrun as (nN & HnN & Hrun).
  apply int_add_inv in HnN as [-> HnN].
  apply bind_Some in Hrun as (nN1 & HnN1 & Hrun).
  apply int_add_inv in HnN1 as [-> HnN1].
  apply bind_Some in Hrun as (rp0 & Hrp0 & Hrun).
  apply bind_Some in Hrun as (ge0 & Hge0 & Hrun).
  apply bind_Some in Hrun as ([rp1 ge] & Hcontar & Hrun).
  apply bind_Some in Hrun as (rp & Hrp & Hrun).
  apply bind_Some in Hrun as (ci0 & Hci0 & Hrun).
  apply bind_Some in Hrun as (vals & Hvals & Hrun).
  apply bind_Some in Hrun as ([cp ci1] & Hcolocar & Hrun).
  apply bind_Some in Hrun as (ci & Hci & Hrun).
  injection Hrun as <-.
  by exists rp0, ge0, rp1, ge, rp, ci0, vals, cp, ci1, ci.
Qed.

Lemma vresize_longitud {A} (n : Z) (x : A) (v v' : list A) :
  vresize n x v = Some v' → Z.of_nat (length v') = n.
Proof.
  unfold vresize. case_decide; [|done]. intros [= <-].
  rewrite length_app, length_take, length_replicate. lia.
Qed.

Lemma contar_longitud es rp ge rp' ge' :
  foldM contar es (rp, ge) = Some (rp', ge') →
  length rp' = length rp ∧ length ge' = length ge.
Proof.
  apply (foldM_preserva (λ st, length st.1 = length rp ∧ length st.2 = length ge));
    [|done].
  intros [rp1 ge1] e [rp2 ge2] [Hl1 Hl2] Hstep. simpl in *. unfold contar in Hstep.
  destruct (int_add e.1 1) as [k|]; simpl in Hstep; [|done].
  destruct (vget rp1 k) as [c|]; simpl in Hstep; [|done].
  destruct (int_add c 1) as [c'|]; simpl in Hstep; [|done].
  destruct (vset rp1 k c') as [rp3|] eqn:Hs1; simpl in Hstep; [|done].
  destruct (vget ge1 e.2) as [d|]; simpl in Hstep; [|done].
  destruct (int_add d 1) as [d'|]; simpl in Hstep; [|done].
  destruct (vset ge1 e.2 d') as [ge3|] eqn:Hs2; simpl in Hstep; [|done].
  injection Hstep as <- <-.
  apply vset_length in Hs1, Hs2. split; congruence.
Qed.

Lemma acumular_longitud idx rp rp' :
  foldM acumular idx rp = Some rp' → length rp' = length rp.
Proof.
  apply (foldM_preserva (λ v, length v = length rp)); [|done].
  intros rp1 i rp2 Hl Hstep. unfold acumular in Hstep.
  destruct (vget rp1 i) as [a|]; simpl in Hstep; [|done].
  destruct (vget rp1 (i - 1)) as [b|]; simpl in Hstep; [|done].
  destruct (int_add a b) as [c|]; simpl in Hstep; [|done].
  apply vset_length in Hstep. congruence.
Qed.

Lemma colocar_longitud es cp ci cp' ci' :
  foldM colocar es (cp, ci) = Some (cp', ci') → length ci' = length ci.
Proof.
  apply (foldM_preserva (λ st, length st.2 = length ci)); [|done].
  intros [cp1 ci1] e [cp2 ci2] Hl Hstep. simpl in *. unfold colocar in Hstep.
  destruct (vget cp1 e.1) as [pos|]; simpl in Hstep; [|done].
  destruct (int_add pos 1) as [pos'|]; simpl in Hstep; [|done].
  destruct (vset cp1 e.1 pos') as [cp3|]; simpl in Hstep; [|done].
  destruct (vset ci1 pos e.2) as [ci3|] eqn:Hs; simpl in Hstep; [|done].
  injection Hstep as <- <-. apply vset_length in Hs. congruence.
Qed.

Lemma ordenar_longitud rp idx ci ci' :
  foldM (ordenar rp) idx ci = Some ci' → length ci' = length ci.
Proof.
  apply (foldM_preserva (λ v, length v = length ci)); [|done].
  intros ci1 i ci2 Hl Hstep. unfold ordenar in Hstep.
  destruct (vget rp i) as [a|]; simpl in Hstep; [|done].
  destruct (vget rp (i + 1)) as [b|]; simpl in Hstep; [|done].
  apply sort_range_props in Hstep as (_ & Hlen & _). congruence.
Qed.

(** X7.  Whatever the engine held before, a load that returns leaves the
    counts of the file it read and vectors of the matching sizes: at
    least one node, as many edges as accepted lines, [numNodos + 1] row
    pointers, [numNodos] in-degrees and [numAristas] column indices and
    weights. *)
Theorem cargarDatos_tamanos (fs : string → option string)
    (filename contenido : string) (g g' : GrafoDisperso) (b : bool) :
  fs filename = Some contenido →
  cargarDatos fs filename g = Some (b, g') →
  Z.of_nat (length (leer_aristas contenido).1) ≤ INT_MAX →
  b = true ∧
  getNumNodos g' = (leer_aristas contenido).2 + 1 ∧
  1 ≤ getNumNodos g' ∧
  getNumAristas g' = Z.of_nat (length (leer_aristas contenido).1) ∧
  Z.of_nat (length (row_ptr g')) = numNodos g' + 1 ∧
  Z.of_nat (length (gradoEntrada g')) = numNodos g' ∧
  Z.of_nat (length (column_indices g')) = numAristas g' ∧
  Z.of_nat (length (values g')) = numAristas g'.
Proof.
  intros Hfs Hrun HE. unfold cargarDatos in Hrun. rewrite Hfs in Hrun.
  destruct (leer_aristas contenido) as [es M] eqn:Hleer. simpl in *.
  assert (0 ≤ M) as HM.
  { rewrite leer_aristas_lineas in Hleer. injection Hleer as _ <-.
    apply (maxNodo_de_cota _ 0). }
  destruct (construirCSR es M g) as [g1|] eqn:Hc; simpl in Hrun; [|done].
  injection Hrun as <- <-. split; [done|].
  apply construirCSR_inv in Hc
    as (rp0 & ge0 & rp1 & ge & rp & ci0 & vals & cp & ci1 & ci
        & _ & _ & Hrp0 & Hge0 & Hcontar & Hacum & Hci0 & Hvals & Hcol & Hord & ->).
  rewrite (to_int_no_envuelve (Z.of_nat (length es))) in * by lia.
  unfold getNumNodos, getNumAristas. simpl.
  apply vresize_longitud in Hrp0, Hge0, Hci0, Hvals.
  apply contar_longitud in Hcontar as [Hl1 Hl2].
  apply acumular_longitud in Hacum. apply colocar_longitud in Hcol.
  apply ordenar_longitud in Hord.
  repeat split; try lia.
Qed.

Example cargar_otro_uno :
  cargarDatos fs_ejemplo "otro.txt" GrafoDisperso_init = Some (true, g_otro) ∧
  cargarDatos fs_ejemplo "uno.txt" g_otro = Some (true, g_otro_uno).
Proof. split; reflexivity. Qed.

Lemma cargarDatos_tamanos_witness :
  fs_ejemplo "uno.txt" = Some "0 1"%string ∧
  cargarDatos fs_ejemplo "uno.txt" g_otro = Some (true, g_otro_uno) ∧
  Z.of_nat (length (leer_aristas "0 1").1) ≤ INT_MAX ∧
  true = true ∧
  getNumNodos g_otro_uno = (leer_aristas "0 1").2 + 1 ∧
  1 ≤ getNumNodos g_otro_uno ∧
  getNumAristas g_otro_uno = Z.of_nat (length (leer_aristas "0 1").1) ∧
  Z.of_nat (length (row_ptr g_otro_uno)) = numNodos g_otro_uno + 1 ∧
  Z.of_nat (length (gradoEntrada g_otro_uno)) = numNodos g_otro_uno ∧
  Z.of_nat (length (column_indices g_otro_uno)) = numAristas g_otro_uno ∧
  Z.of_nat (length (values g_otro_uno)) = numAristas g_otro_uno.
Proof.
  assert (fs_ejemplo "uno.txt" = Some "0 1"%string) as H1 by reflexivity.
  assert (cargarDatos fs_ejemplo "uno.txt" g_otro = Some (true, g_otro_uno)) as H2
    by reflexivity.
  assert (Z.of_nat (length (leer_aristas "0 1").1) ≤ INT_MAX) as H3 by (by vm_compute).
  split; [exact H1|]. split; [exact H2|]. split; [exact H3|].
  exact (cargarDatos_tamanos fs_ejemplo "uno.txt" "0 1" g_otro g_otro_uno true H1 H2 H3).
Defined.

(** X8.  Every weight stays 1: a load on an engine whose [values] are all 1
    (the fresh engine, and so every engine reached by loads) leaves
    [values] all 1. *)
Theorem cargarDatos_pesos (fs : string → option string) (filename : string)
    (g g' : GrafoDisperso) (b : bool) :
  Forall (λ w, w = 1) (values g) →
  cargarDatos fs filename g = Some (b, g') →
  Forall (λ w, w = 1) (values g').
Proof.
  intros Hunos Hrun. unfold cargarDatos in Hrun.
  destruct (fs filename) as [contenido|]; [|by injection Hrun as <- <-].
  destruct (leer_aristas contenido) as [es M].
  destruct (construirCSR es M g) as [g1|] eqn:Hc; simpl in Hrun; [|done].
  injection Hrun as <- <-.
  apply construirCSR_inv in Hc
    as (rp0 & ge0 & rp1 & ge & rp & ci0 & vals & cp & ci1 & ci
        & _ & _ & _ & _ & _ & _ & _ & Hvals & _ & _ & ->).
  simpl. unfold vresize in Hvals. case_decide; [|done]. injection Hvals as <-.
  apply Forall_app. split; [by apply Forall_take|by apply Forall_replicate].
Qed.

Lemma cargarDatos_pesos_witness :
  Forall (λ w, w = 1) (values g_otro) ∧
  cargarDatos fs_ejemplo "uno.txt" g_otro = Some (true, g_otro_uno) ∧
  Forall (λ w, w = 1) (values g_otro_uno).
Proof.
  assert (Forall (λ w, w = 1) (values g_otro)) as H1 by (by repeat constructor).
  assert (cargarDatos fs_ejemplo "uno.txt" g_otro = Some (true, g_otro_uno)) as H2
    by reflexivity.
  split; [exact H1|]. split; [exact H2|].
  exact (cargarDatos_pesos fs_ejemplo "uno.txt" g_otro g_otro_uno true H1 H2).
Defined.

(** X9.  A file that opens and holds an accepted line with a node id that
    is negative or above [INT_MAX - 2] has no defined load, on any
    engine: a negative id indexes [gradoEntrada] or [currentPos] before
    their start, and a larger one makes [maxNodo + 1] or [numNodos + 1]
    overflow. *)
Theorem cargarDatos_id_fuera_de_rango (fs : string → option string)
    (filename contenido : string) (g : GrafoDisperso) (e : Z * Z) :
  fs filename = Some contenido →
  e ∈ (leer_aristas contenido).1 →
  e.1 < 0 ∨ e.2 < 0 ∨ INT_MAX - 2 < e.1 ∨ INT_MAX - 2 < e.2 →
  cargarDatos fs filename g = None.
Proof.
  intros Hfs He Hout. unfold cargarDatos. rewrite Hfs.
  pose proof (leer_aristas_lineas contenido) as Hleer.
  destruct (leer_aristas contenido) as [es M]. simpl in He.
  injection Hleer as Hes HM.
  destruct (construirCSR es M g) as [g1|] eqn:Hc; [|done]. exfalso.
  apply construirCSR_inv in Hc
    as (rp0 & ge0 & rp1 & ge & rp & ci0 & vals & cp & ci1 & ci
        & _ & Hin & _ & _ & Hcontar & _ & _ & _ & Hcol & _).
  apply contar_destinos in Hcontar. apply colocar_origenes in Hcol.
  rewrite Forall_forall in Hcontar, Hcol.
  specialize (Hcontar e He). specialize (Hcol e He).
  destruct (maxNodo_de_cota es 0) as [_ Hmax]. rewrite Forall_forall in Hmax.
  specialize (Hmax e He). fold (maxNodo_de es) in Hmax.
  rewrite <-Hes in HM. rewrite <-HM in Hmax.
  unfold in_int, INT_MAX in *. simpl in Hmax. lia.
Qed.

Lemma cargarDatos_id_fuera_de_rango_witness :
  fs_ejemplo "negativo.txt" = Some "0 -1"%string ∧
  (0, -1) ∈ (leer_aristas "0 -1").1 ∧
  ((0, -1).1 < 0 ∨ (0, -1).2 < 0 ∨ INT_MAX - 2 < (0, -1).1 ∨ INT_MAX - 2 < (0, -1).2) ∧
  cargarDatos fs_ejemplo "negativo.txt" g_ejemplo = None.
Proof.
  assert (fs_ejemplo "negativo.txt" = Some "0 -1"%string) as H1 by reflexivity.
  assert ((0, -1) ∈ (leer_aristas "0 -1").1) as H2 by (vm_compute; by left).
  assert ((0, -1).1 < 0 ∨ (0, -1).2 < 0 ∨ INT_MAX - 2 < (0, -1).1 ∨ INT_MAX - 2 < (0, -1).2)
    as H3 by (right; left; simpl; lia).
  split; [exact H1|]. split; [exact H2|]. split; [exact H3|].
  exact (cargarDatos_id_fuera_de_rango fs_ejemplo "negativo.txt" "0 -1" g_ejemplo
           (0, -1) H1 H2 H3).
Defined.

Example cargar_id_maximo :
  cargarDatos (λ _, Some "2147483646 0"%string) "f" GrafoDisperso_init = None.
Proof. reflexivity. Qed.

Lemma vresize_lookup (n : Z) (v v' : list Z) (k : Z) :
  vresize n 0 v = Some v' → 0 ≤ k < n →
  vget v' k = Some (default 0 (v !! Z.to_nat k)).
Proof.
  unfold vresize. case_decide; [|done]. intros [= <-] Hk.
  unfold vget. rewrite decide_True by lia.
  destruct (decide (Z.to_nat k < length v)%nat) as [Hlt|Hge].
  - rewrite lookup_app_l by (rewrite length_take; lia).
    rewrite lookup_take_lt by lia.
    destruct (lookup_lt_is_Some_2 v (Z.to_nat k) Hlt) as [x ->]. done.
  - rewrite lookup_app_r by (rewrite length_take; lia).
    rewrite (lookup_ge_None_2 v) by lia. simpl.
    apply lookup_replicate_2. rewrite length_take. lia.
Qed.

(** X10.  The in-degree tallies accumulate over loads: after a load that
    returns, the in-degree of a node is what [gradoEntrada] held for it
    before the load (0 beyond its end) plus the number of edges of the
    file that enter the node. *)
Theorem cargarDatos_grado_entrada_acumula (fs : string → option string)
    (filename contenido : string) (g g' : GrafoDisperso) (b : bool) :
  fs filename = Some contenido →
  cargarDatos fs filename g = Some (b, g') →
  ∀ k, 0 ≤ k < numNodos g' →
    obtenerGradoEntrada g' k
    = Some (default 0 (gradoEntrada g !! Z.to_nat k)
            + cuenta_destino (leer_aristas contenido).1 k).
Proof.
  intros Hfs Hrun k Hk. unfold cargarDatos in Hrun. rewrite Hfs in Hrun.
  destruct (leer_aristas contenido) as [es M]. simpl.
  destruct (construirCSR es M g) as [g1|] eqn:Hc; simpl in Hrun; [|done].
  injection Hrun as <- <-.
  apply construirCSR_inv in Hc
    as (rp0 & ge0 & rp1 & ge & rp & ci0 & vals & cp & ci1 & ci
        & _ & _ & _ & Hge0 & Hcontar & _ & _ & _ & _ & _ & ->).
  simpl in *. unfold obtenerGradoEntrada, nodo_invalido. simpl.
  rewrite decide_False by lia.
  set (base := λ j, default 0 (gradoEntrada g !! Z.to_nat j)).
  enough (∀ j, 0 ≤ j < M + 1 → vget ge j = Some (base j + cuenta_destino es j)) as Hall
    by (by apply Hall).
  apply (foldM_inv_Some
           (λ done (st : list Z * list Z),
              ∀ j, 0 ≤ j < M + 1 → vget st.2 j = Some (base j + cuenta_destino done j))
           _ _ _ _ Hcontar).
  - intros j Hj. simpl. rewrite (vresize_lookup _ _ _ j Hge0 Hj).
    unfold base, cuenta_destino. simpl. f_equal. lia.
  - intros done [o d] [rpa gea] [rpb geb] _ Hinv Hstep j Hj. simpl in *.
    unfold contar in Hstep. simpl in Hstep.
    destruct (int_add o 1) as [i|]; simpl in Hstep; [|done].
    destruct (vget rpa i) as [c|]; simpl in Hstep; [|done].
    destruct (int_add c 1) as [c'|]; simpl in Hstep; [|done].
    destruct (vset rpa i c') as [rpc|]; simpl in Hstep; [|done].
    destruct (vget gea d) as [x|] eqn:Hx; simpl in Hstep; [|done].
    destruct (int_add x 1) as [x'|] eqn:Hx'; simpl in Hstep; [|done].
    destruct (vset gea d x') as [gec|] eqn:Hs; simpl in Hstep; [|done].
    injection Hstep as <- <-. apply int_add_inv in Hx' as [-> _].
    rewrite (vget_vset gea d j (x + 1) gec Hs).
    rewrite cuenta_destino_app, cuenta_destino_1.
    destruct (decide (j = d)) as [->|Hne].
    + rewrite decide_True by done. apply vget_lt in Hx as Hd.
      rewrite Hinv in Hx by (apply vset_Some in Hs as [? _]; lia).
      injection Hx as <-. f_equal. lia.
    + rewrite decide_False by done. rewrite Hinv by done. f_equal. lia.
Qed.

Lemma cargarDatos_grado_entrada_acumula_witness :
  fs_ejemplo "uno.txt" = Some "0 1"%string ∧
  cargarDatos fs_ejemplo "uno.txt" g_otro = Some (true, g_otro_uno) ∧
  ∀ k, 0 ≤ k < numNodos g_otro_uno →
    obtenerGradoEntrada g_otro_uno k
    = Some (default 0 (gradoEntrada g_otro !! Z.to_nat k)
            + cuenta_destino (leer_aristas "0 1").1 k).
Proof.
  assert (fs_ejemplo "uno.txt" = Some "0 1"%string) as H1 by reflexivity.
  assert (cargarDatos fs_ejemplo "uno.txt" g_otro = Some (true, g_otro_uno)) as H2
    by reflexivity.
  split; [exact H1|]. split; [exact H2|].
  exact (cargarDatos_grado_entrada_acumula fs_ejemplo "uno.txt" "0 1"
           g_otro g_otro_uno true H1 H2).
Defined.

(** ** What the loader reads *)

Lemma aristas_de_linea_uno (linea : string) (e : Z * Z) :
  e ∈ aristas_de_linea linea ↔ aristas_de_linea linea = [e].
Proof.
  unfold aristas_de_linea. destruct linea as [|c l]; [by rewrite elem_of_nil|].
  destruct (extraer_arista (String c l)) as [e'|];
    destruct c as [[] [] [] [] [] [] [] []];
    rewrite ?elem_of_nil, ?list_elem_of_singleton; split; (done || congruence).
Qed.

Lemma aristas_de_linea_extraer (linea : string) (e : Z * Z) :
  aristas_de_linea linea = [e] → extraer_arista linea = Some e.
Proof.
  unfold aristas_de_linea. destruct linea as [|c l]; [done|].
  destruct (extraer_arista (String c l)) as [e'|];
    destruct c as [[] [] [] [] [] [] [] []]; congruence.
Qed.

Lemma fold_max_alcanzado (es : list (Z * Z)) (m : Z) :
  let M := fold_left (λ m e, Z.max m (Z.max e.1 e.2)) es m in
  M = m ∨ ∃ e, e ∈ es ∧ (M = e.1 ∨ M = e.2).
Proof.
  revert m. induction es as [|e es IH]; intros m; simpl; [by left|].
  destruct (IH (Z.max m (Z.max e.1 e.2))) as [Heq|(e' & He' & Hm)].
  - rewrite Heq.
    destruct (Z.max_spec m (Z.max e.1 e.2)) as [[_ ->]|[_ ->]]; [|by left].
    right. exists e. split; [by left|].
    destruct (Z.max_spec e.1 e.2) as [[_ ->]|[_ ->]]; [by right|by left].
  - right. exists e'. split; [by right|done].
Qed.

(** X13.  The edges and the maximum a file gives: each edge is what one line
    of the file contributes and both its ends fit an [int]; the maximum
    is at least 0 and at least every node id read, and it is 0 or one
    of the node ids read (0 when no line gives an edge). *)
Theorem leer_aristas_maxNodo (contenido : string) :
  let es := (leer_aristas contenido).1 in
  let M := (leer_aristas contenido).2 in
  (∀ e, e ∈ es ↔ ∃ linea, linea ∈ getlines contenido ∧ aristas_de_linea linea = [e]) ∧
  (∀ e, e ∈ es → in_int e.1 ∧ in_int e.2 ∧ e.1 ≤ M ∧ e.2 ≤ M) ∧
  0 ≤ M ∧
  (M = 0 ∨ ∃ e, e ∈ es ∧ (M = e.1 ∨ M = e.2)) ∧
  (es = [] → M = 0).
Proof.
  rewrite leer_aristas_lineas. simpl.
  set (es := getlines contenido ≫= aristas_de_linea).
  assert (∀ e, e ∈ es ↔ ∃ linea, linea ∈ getlines contenido ∧ aristas_de_linea linea = [e])
    as Hmem.
  { intros e. unfold es. rewrite list_elem_of_bind. split.
    - intros (l & He & Hl). exists l. split; [done|]. by apply aristas_de_linea_uno.
    - intros (l & Hl & He). exists l. split; [|done]. by apply aristas_de_linea_uno. }
  destruct (maxNodo_de_cota es 0) as [HM Hall]. rewrite Forall_forall in Hall.
  split; [done|]. split; [|split; [done|split]].
  - intros e He. specialize (Hall e He).
    apply Hmem in He as (l & _ & He). apply aristas_de_linea_extraer in He.
    destruct e as [a b]. apply extraer_arista_iff in He
      as (? & ? & ? & ? & ? & _ & _ & _ & Ha & _ & _ & Hb & _).
    simpl in *. unfold maxNodo_de. done.
  - apply (fold_max_alcanzado es 0).
  - intros ->. done.
Qed.

Lemma getlines_linea (l rest : string) :
  sin_salto l = true →
  getlines (l +:+ String "010"%char rest) = l :: getlines rest.
Proof.
  induction l as [|c l IH]; [done|]. simpl.
  intros [Hc Hl]%andb_prop. apply negb_true_iff in Hc.
  rewrite ?append_cons. simpl. rewrite Hc, IH by done. done.
Qed.

Lemma getlines_ultima (l : string) :
  sin_salto l = true → l ≠ EmptyString → getlines l = [l].
Proof.
  induction l as [|c l IH]; [done|]. simpl.
  intros [Hc Hl]%andb_prop _. apply negb_true_iff in Hc. rewrite Hc.
  destruct l as [|c' l']; [done|]. rewrite IH by done. done.
Qed.

(** X14.  The file is read line by line.  The edges of a file whose first
    line is [l] are what [l] contributes followed by the edges of the
    rest of the file; a last line needs no line feed; and a first line
    that contributes nothing (a blank line, a comment, a malformed
    line) can be removed without changing what the file loads. *)
Theorem leer_aristas_por_lineas (l rest : string) :
  sin_salto l = true →
  (leer_aristas (l +:+ String "010"%char rest)).1
    = aristas_de_linea l ++ (leer_aristas rest).1 ∧
  (leer_aristas l).1 = aristas_de_linea l ∧
  (aristas_de_linea l = [] →
     leer_aristas (l +:+ String "010"%char rest) = leer_aristas rest).
Proof.
  intros Hl. rewrite !leer_aristas_lineas, getlines_linea by done.
  rewrite bind_cons. simpl. split; [done|]. split.
  - destruct (decide (l = EmptyString)) as [->|Hne]; [done|].
    rewrite getlines_ultima by done. by rewrite bind_singleton.
  - intros ->. done.
Qed.

Lemma leer_aristas_por_lineas_witness :
  sin_salto "# ejemplo" = true ∧
  (leer_aristas ("# ejemplo" +:+ String "010"%char "0 1")).1
    = aristas_de_linea "# ejemplo" ++ (leer_aristas "0 1").1 ∧
  (leer_aristas "# ejemplo").1 = aristas_de_linea "# ejemplo" ∧
  (aristas_de_linea "# ejemplo" = [] →
     leer_aristas ("# ejemplo" +:+ String "010"%char "0 1") = leer_aristas "0 1").
Proof.
  split; [reflexivity|].
  apply (leer_aristas_por_lineas "# ejemplo" "0 1"). reflexivity.
Defined.

Lemma skipws_espacios (sp : string) : solo_espacios sp = true → skipws sp = EmptyString.
Proof.
  induction sp as [|c sp IH]; [done|]. simpl.
  intros [Hc Hsp]%andb_prop. rewrite Hc. by apply IH.
Qed.

Lemma espacios_sin_digito (sp : string) : solo_espacios sp = true → sin_digito_inicial sp.
Proof.
  destruct sp as [|c sp]; [done|]. simpl.
  intros [Hc _]%andb_prop. by apply isspace_no_digito in Hc as [? _].
Qed.

Lemma skipws_sufijo (s sp : string) :
  solo_espacios sp = true →
  skipws (s +:+ sp)
  = match skipws s with EmptyString => EmptyString | t => t +:+ sp end.
Proof.
  intros Hsp. induction s as [|c s IH]; simpl.
  - rewrite skipws_espacios by done. done.
  - destruct (isspace c); [done|]. done.
Qed.

Lemma leer_digitos_sufijo (s sp : string) (acc : Z) :
  sin_digito_inicial sp →
  leer_digitos (s +:+ sp) acc
  = ((leer_digitos s acc).1, (leer_digitos s acc).2 +:+ sp).
Proof.
  intros Hsp. revert acc. induction s as [|c s IH]; intros acc; simpl.
  - destruct sp as [|c sp]; [done|]. simpl in *. by rewrite Hsp.
  - destruct (digito c); [apply IH|done].
Qed.

(** White space at the end of what is left to read changes neither
    whether [extraer_int] succeeds nor the value it reads. *)
Lemma extraer_int_sufijo (s sp : string) :
  solo_espacios sp = true →
  extraer_int (s +:+ sp)
  = match extraer_int s with
    | Some (v, r) => Some (v, r +:+ sp)
    | None => None
    end.
Proof.
  intros Hsp. pose proof (espacios_sin_digito sp Hsp) as Hnd.
  rewrite !extraer_int_signo. cbv zeta. rewrite skipws_sufijo by done.
  assert (∀ (neg : bool) s2,
    match s2 +:+ sp with
    | String c _ =>
        match digito c with
        | Some _ =>
            let '(v, rest) := leer_digitos (s2 +:+ sp) 0 in
            let v := if neg then - v else v in
            if decide (in_int v) then Some (v, rest) else None
        | None => None
        end
    | EmptyString => None
    end
    = match
        match s2 with
        | String c _ =>
            match digito c with
            | Some _ =>
                let '(v, rest) := leer_digitos s2 0 in
                let v := if neg then - v else v in
                if decide (in_int v) then Some (v, rest) else None
            | None => None
            end
        | EmptyString => None
        end
      with
      | Some (v, r) => Some (v, r +:+ sp)
      | None => None
      end) as Hcuerpo.
  { intros neg s2. destruct s2 as [|c2 s2'].
    - rewrite append_nil. destruct sp as [|c sp']; [done|].
      change (digito c = None) in Hnd. cbv beta iota. by rewrite Hnd.
    - change (String c2 s2' +:+ sp) with (String c2 (s2' +:+ sp)).
      cbv beta iota. destruct (digito c2) eqn:Hc2; [|done].
      change (String c2 (s2' +:+ sp)) with (String c2 s2' +:+ sp).
      rewrite leer_digitos_sufijo by done.
      destruct (leer_digitos (String c2 s2') 0) as [v0 r0]. simpl.
      by destruct (decide (in_int (if neg then - v0 else v0))). }
  cbv zeta in Hcuerpo.
  destruct (skipws s) as [|c s1]; [done|].
  change (String c s1 +:+ sp) with (String c (s1 +:+ sp)).
  repeat case_decide; try congruence;
    first [exact (Hcuerpo true s1) | exact (Hcuerpo false s1)
          | exact (Hcuerpo false (String c s1))].
Qed.

Lemma extraer_arista_sufijo (s sp : string) :
  solo_espacios sp = true → extraer_arista (s +:+ sp) = extraer_arista s.
Proof.
  intros Hsp. unfold extraer_arista. rewrite extraer_int_sufijo by done.
  destruct (extraer_int s) as [[a r]|]; [|done]. simpl.
  rewrite extraer_int_sufijo by done.
  by destruct (extraer_int r) as [[b r']|].
Qed.

Lemma aristas_de_linea_procesar (linea : string) :
  aristas_de_linea linea = (procesar_linea ([], 0) linea).1.
Proof.
  pose proof (leer_aristas_fold [linea] [] 0) as H.
  change (fold_left procesar_linea [linea] ([], 0))
    with (procesar_linea ([], 0) linea) in H.
  rewrite H, bind_singleton. done.
Qed.

(** X15.  Blanks at the end of a line (spaces, tabs, the carriage return of
    a file with Windows line ends) do not change what the line
    contributes. *)
Theorem linea_espacios_finales (linea sp : string) :
  solo_espacios sp = true →
  aristas_de_linea (linea +:+ sp) = aristas_de_linea linea ∧
  ∀ st, procesar_linea st (linea +:+ sp) = procesar_linea st linea.
Proof.
  intros Hsp.
  assert (∀ st, procesar_linea st (linea +:+ sp) = procesar_linea st linea) as Hproc.
  { intros st. destruct linea as [|c l].
    - rewrite append_nil. destruct sp as [|c sp']; [done|].
      assert (c ≠ "#"%char) as Hc.
      { simpl in Hsp. apply andb_prop in Hsp as [Hc _]. intros ->. by vm_compute in Hc. }
      rewrite procesar_linea_no_comentario by done.
      pose proof (extraer_arista_sufijo EmptyString (String c sp') Hsp) as He.
      rewrite append_nil in He. rewrite He. by destruct st.
    - change (String c l +:+ sp) with (String c (l +:+ sp)).
      destruct (decide (c = "#"%char)) as [->|Hc]; [by destruct st|].
      rewrite !procesar_linea_no_comentario by done.
      change (String c (l +:+ sp)) with (String c l +:+ sp).
      by rewrite extraer_arista_sufijo. }
  split; [|done].
  by rewrite !aristas_de_linea_procesar, Hproc.
Qed.

Lemma linea_espacios_finales_witness :
  solo_espacios (String "013"%char EmptyString) = true ∧
  aristas_de_linea ("1 2" +:+ String "013"%char EmptyString) = aristas_de_linea "1 2" ∧
  ∀ st, procesar_linea st ("1 2" +:+ String "013"%char EmptyString)
        = procesar_linea st "1 2".
Proof.
  split; [reflexivity|].
  apply (linea_espacios_finales "1 2" (String "013"%char EmptyString)). reflexivity.
Defined.

(** ** The queries on a well-formed graph *)

Lemma obtenerGrado_vecinos (g : GrafoDisperso) (u : Z) :
  csr_ok g → 0 ≤ u < numNodos g →
  getVecinos g u = Some (vecinos g u) ∧
  obtenerGrado g u = Some (Z.of_nat (length (vecinos g u))).
Proof.
  intros Hok Hu.
  destruct (csr_ok_fila g Hok u Hu) as (a & b & Ha & Hb & Ha0 & Hab & Hbl).
  pose proof (getVecinos_slice g u a b Hu Ha Hb Ha0 Hbl) as Hv.
  unfold vecinos. rewrite Hv. simpl. split; [done|].
  unfold obtenerGrado, nodo_invalido. rewrite decide_False by lia.
  rewrite Ha, Hb. simpl. by rewrite length_slice by lia.
Qed.

(** X16.  On a well-formed graph the three queries on a valid node agree:
    [getVecinos] returns a list, [obtenerGrado] is its length, the list
    is in ascending order, holds valid nodes only and is no longer than
    [column_indices]. *)
Theorem consultas_coherentes (g : GrafoDisperso) (u : Z) :
  csr_ok g → 0 ≤ u < numNodos g →
  ∃ l, getVecinos g u = Some l ∧
       obtenerGrado g u = Some (Z.of_nat (length l)) ∧
       Sorted Z.le l ∧
       Forall (λ w, 0 ≤ w < numNodos g) l ∧
       (length l ≤ length (column_indices g))%nat.
Proof.
  intros Hok Hu. exists (vecinos g u).
  destruct (obtenerGrado_vecinos g u Hok Hu) as [Hv Hg].
  split; [done|]. split; [done|].
  split; [apply (vecinos_ordenados g Hok)|].
  split; [apply Forall_forall; intros w Hw; by apply (vecinos_validos g Hok u)|].
  destruct (csr_ok_fila g Hok u Hu) as (a & b & Ha & Hb & Ha0 & Hab & Hbl).
  pose proof (getVecinos_slice g u a b Hu Ha Hb Ha0 Hbl) as Hv'.
  rewrite Hv in Hv'. injection Hv' as ->.
  pose proof (length_slice (column_indices g) a b Ha0 Hab Hbl). lia.
Qed.

Lemma consultas_coherentes_witness :
  csr_ok g_ejemplo ∧ 0 ≤ 0 < numNodos g_ejemplo ∧
  ∃ l, getVecinos g_ejemplo 0 = Some l ∧
       obtenerGrado g_ejemplo 0 = Some (Z.of_nat (length l)) ∧
       Sorted Z.le l ∧
       Forall (λ w, 0 ≤ w < numNodos g_ejemplo) l ∧
       (length l ≤ length (column_indices g_ejemplo))%nat.
Proof.
  split; [exact csr_ok_g_ejemplo|]. split; [simpl; lia|].
  apply (consultas_coherentes g_ejemplo 0); [exact csr_ok_g_ejemplo|simpl; lia].
Defined.

Lemma suma_peso (g : GrafoDisperso) (l : list Z) :
  suma ((λ u, Z.of_nat (length (vecinos g u))) <$> l) = Z.of_nat (peso g l).
Proof.
  unfold peso, suma. induction l as [|u l IH]; [done|].
  rewrite fmap_cons. cbn [foldr sum_list_with]. rewrite IH. lia.
Qed.

Lemma suma_grados_csr (g : GrafoDisperso) :
  csr_ok g →
  ∃ grados, mapM (obtenerGrado g) (seqZ 0 (numNodos g)) = Some grados ∧
            suma grados = Z.of_nat (length (column_indices g)).
Proof.
  intros Hok.
  exists ((λ u, Z.of_nat (length (vecinos g u))) <$> seqZ 0 (numNodos g)). split.
  - apply mapM_Some. apply Forall2_fmap_r, Forall_Forall2_diag, Forall_forall.
    intros u Hu. apply elem_of_seqZ in Hu.
    apply (obtenerGrado_vecinos g u Hok). lia.
  - rewrite suma_peso. by rewrite (peso_total g Hok).
Qed.

(** X4.  After a load on a freshly constructed engine, the out-degrees of all
    the nodes and their in-degrees both add up to the number of edges
    [getNumAristas] reports, which is the number of edges read. *)
Theorem primera_carga_suma_grados (fs : string → option string)
    (filename contenido : string) :
  let es := (leer_aristas contenido).1 in
  let M := (leer_aristas contenido).2 in
  fs filename = Some contenido →
  Forall (λ e, 0 ≤ e.1 ∧ 0 ≤ e.2) es →
  M ≤ INT_MAX - 2 →
  Z.of_nat (length es) ≤ INT_MAX →
  ∃ g salida entrada,
    cargarDatos fs filename GrafoDisperso_init = Some (true, g) ∧
    mapM (obtenerGrado g) (seqZ 0 (getNumNodos g)) = Some salida ∧
    mapM (obtenerGradoEntrada g) (seqZ 0 (getNumNodos g)) = Some entrada ∧
    suma salida = getNumAristas g ∧
    suma entrada = getNumAristas g ∧
    getNumAristas g = Z.of_nat (length es).
Proof.
  intros es M Hfs Hpos HM HE.
  destruct (cargarDatos_fresco fs filename contenido Hfs Hpos HM HE)
    as (g & Hrun & Hg & Hok).
  destruct (suma_grados_csr g Hok) as (salida & Hsal & Hsuma).
  destruct Hg as (HnN & HnA & _ & _ & Hci & _ & _ & _ & Hlen & Hge & Hsge).
  exists g, salida, (gradoEntrada g). unfold getNumNodos, getNumAristas.
  split; [done|]. split; [done|].
  split; [|split; [lia|split; [lia|done]]].
  apply mapM_Some. apply Forall2_lookup. intros i.
  destruct (decide (i < length (gradoEntrada g))%nat) as [Hi|Hi].
  - destruct (lookup_lt_is_Some_2 (gradoEntrada g) i Hi) as [x Hx].
    rewrite Hx.
    assert (seqZ 0 (numNodos g) !! i = Some (Z.of_nat i)) as ->
      by (rewrite lookup_seqZ; split; lia).
    constructor. unfold obtenerGradoEntrada, nodo_invalido.
    rewrite decide_False by lia. apply vget_Some. split; [lia|].
    by rewrite Nat2Z.id.
  - rewrite (lookup_ge_None_2 (gradoEntrada g) i) by lia.
    rewrite (lookup_ge_None_2 (seqZ 0 (numNodos g)) i) by (rewrite length_seqZ; lia).
    constructor.
Qed.

Lemma primera_carga_suma_grados_witness :
  fs_ejemplo "ejemplo.txt" = Some contenido_ejemplo ∧
  Forall (λ e, 0 ≤ e.1 ∧ 0 ≤ e.2) (leer_aristas contenido_ejemplo).1 ∧
  (leer_aristas contenido_ejemplo).2 ≤ INT_MAX - 2 ∧
  Z.of_nat (length (leer_aristas contenido_ejemplo).1) ≤ INT_MAX ∧
  ∃ g salida entrada,
    cargarDatos fs_ejemplo "ejemplo.txt" GrafoDisperso_init = Some (true, g) ∧
    mapM (obtenerGrado g) (seqZ 0 (getNumNodos g)) = Some salida ∧
    mapM (obtenerGradoEntrada g) (seqZ 0 (getNumNodos g)) = Some entrada ∧
    suma salida = getNumAristas g ∧
    suma entrada = getNumAristas g ∧
    getNumAristas g = Z.of_nat (length (leer_aristas contenido_ejemplo).1).
Proof.
  destruct ejemplo_hipotesis as (H1 & H2 & H3 & H4).
  split; [exact H1|]. split; [exact H2|]. split; [exact H3|]. split; [exact H4|].
  exact (primera_carga_suma_grados fs_ejemplo "ejemplo.txt" contenido_ejemplo H1 H2 H3 H4).
Defined.

(** ** printDebugInfo *)

Lemma primeros_take (v : list Z) (n : Z) :
  0 ≤ n →
  foldM (λ salida i, x ← vget v i; Some (salida ++ [x]))
        (seqZ 0 (Z.min n (Z.of_nat (length v)))) []
  = Some (take (Z.to_nat n) v).
Proof.
  intros Hn.
  rewrite (foldM_vget v _ (λ salida x, Some (salida ++ [x]))
             _ (slice v 0 (Z.min n (Z.of_nat (length v)))) []); [| done |].
  - rewrite foldM_acumula. simpl. unfold slice. simpl. rewrite drop_0.
    rewrite Z.sub_0_r. f_equal.
    destruct (decide (n ≤ Z.of_nat (length v))).
    + by rewrite Z.min_l by lia.
    + rewrite Z.min_r by lia. rewrite Nat2Z.id.
      rewrite !take_ge by lia. done.
  - pose proof (mapM_vget_seqZ v 0 (Z.min n (Z.of_nat (length v)))) as H.
    rewrite Z.sub_0_r in H. apply H; lia.
Qed.

(** X17.  [printDebugInfo] writes the first 10 entries of [row_ptr] and the
    first 20 of [column_indices], or all of them where a vector is
    shorter; whatever the engine holds, it reads no element outside a
    vector.  (The sizes fit an [int], so the casts do not wrap.) *)
Theorem printDebugInfo_primeros (g : GrafoDisperso) :
  Z.of_nat (length (row_ptr g)) ≤ INT_MAX →
  Z.of_nat (length (column_indices g)) ≤ INT_MAX →
  printDebugInfo g = Some (take 10 (row_ptr g), take 20 (column_indices g)).
Proof.
  intros Hr Hc. unfold printDebugInfo.
  rewrite !to_int_no_envuelve by lia.
  rewrite (primeros_take (row_ptr g) 10) by lia.
  rewrite (primeros_take (column_indices g) 20) by lia. done.
Qed.

Lemma printDebugInfo_primeros_witness :
  Z.of_nat (length (row_ptr g_ejemplo)) ≤ INT_MAX ∧
  Z.of_nat (length (column_indices g_ejemplo)) ≤ INT_MAX ∧
  printDebugInfo g_ejemplo
  = Some (take 10 (row_ptr g_ejemplo), take 20 (column_indices g_ejemplo)).
Proof.
  assert (Z.of_nat (length (row_ptr g_ejemplo)) ≤ INT_MAX) as H1 by (by vm_compute).
  assert (Z.of_nat (length (column_indices g_ejemplo)) ≤ INT_MAX) as H2 by (by vm_compute).
  split; [exact H1|]. split; [exact H2|].
  exact (printDebugInfo_primeros g_ejemplo H1 H2).
Defined.

(** ** The traversals at their bounds *)

(** X18.  With a depth bound of 0 or less, [BFS] on a valid start node returns
    the start node alone, at distance 0, and [getAristasSubgrafo]
    returns no edge, whatever the vectors of the engine hold: neither
    reads [row_ptr] or [column_indices]. *)
Theorem profundidad_cero (g : GrafoDisperso) (s prof : Z) (fuel : nat) :
  0 ≤ s < numNodos g → prof ≤ 0 →
  BFS (S fuel) g s prof = Some [(s, 0)] ∧
  getAristasSubgrafo (S fuel) g s prof = Some [].
Proof.
  intros Hs Hprof. unfold BFS, getAristasSubgrafo, nodo_invalido.
  rewrite !decide_False by lia. unfold vset.
  rewrite decide_True by (rewrite length_replicate; lia).
  simpl. unfold BFS_paso, sub_paso. rewrite !decide_True by lia.
  simpl. by destruct fuel.
Qed.

Lemma profundidad_cero_witness :
  0 ≤ 0 < numNodos g_otro ∧ -1 ≤ 0 ∧
  BFS 1 g_otro 0 (-1) = Some [(0, 0)] ∧
  getAristasSubgrafo 1 g_otro 0 (-1) = Some [].
Proof.
  split; [simpl; lia|]. split; [lia|].
  apply (profundidad_cero g_otro 0 (-1) 0); [simpl; lia|lia].
Defined.

(** One iteration of the [BFS] loop only appends to the queue. *)
Lemma BFS_paso_cola (g : GrafoDisperso) (prof u l : Z) (vis vis' : list bool)
    (cola cola' res res' : list (Z * Z)) :
  BFS_paso g prof u l vis cola res = Some (vis', cola', res') →
  res' = res ++ [(u, l)] ∧ ∃ nuevos, cola' = cola ++ nuevos.
Proof.
  unfold BFS_paso. intros Hrun. case_decide.
  - injection Hrun as <- <- <-. split; [done|]. exists []. by rewrite app_nil_r.
  - apply bind_Some in Hrun as (a & _ & Hrun).
    apply bind_Some in Hrun as (b & _ & Hrun).
    apply bind_Some in Hrun as ([vis1 cola1] & Hfold & Hrun).
    injection Hrun as <- <- <-. split; [done|].
    apply (foldM_preserva (λ st : list bool * list (Z * Z), ∃ nuevos, st.2 = cola ++ nuevos)
             _ _ _ _) in Hfold; [done| |exists []; by rewrite app_nil_r].
    intros [v1 c1] i [v2 c2] [nuevos Hc] Hstep. simpl in Hc. subst c1.
    unfold BFS_vecino in Hstep.
    apply bind_Some in Hstep as (w & _ & Hstep).
    apply bind_Some in Hstep as (m & _ & Hstep).
    destruct m.
    + injection Hstep as <- <-. by exists nuevos.
    + apply bind_Some in Hstep as (v3 & _ & Hstep). injection Hstep as <- <-.
      exists (nuevos ++ [(w, l + 1)]). simpl. by rewrite app_assoc.
Qed.

(** From any state of the loop, the output is what has been output, then
    what is queued, then what is found later; the levels stay in
    ascending order. *)
Lemma BFS_bucle_extiende (g : GrafoDisperso) (Hok : csr_ok g) (s prof : Z) (fuel : nat) :
  ∀ L vis cola res,
    bfs_inv g s prof L [] vis cola res →
    (Z.to_nat (numNodos g) ≤ fuel + length res)%nat →
    ∃ out resto, BFS_bucle fuel g prof vis cola res = Some out ∧
                 out = res ++ cola ++ resto ∧
                 (Sorted Z.le res.*2 → Sorted Z.le out.*2).
Proof.
  induction fuel as [|fuel IH]; intros L vis cola res Hinv Hfuel.
  - destruct cola as [|[u l] cola].
    + exists res, []. simpl. by rewrite app_nil_r.
    + exfalso. destruct Hinv as (Hl & Hvis & Hnd & _).
      assert (length (res ++ (u, l) :: cola).*1 ≤ Z.to_nat (numNodos g))%nat as Hlen.
      { apply NoDup_nodos_length; [done|].
        intros v Hv. apply Hvis, vget_lt in Hv. lia. }
      rewrite length_fmap, length_app in Hlen. simpl in *. lia.
  - destruct cola as [|[u l] cola].
    + exists res, []. simpl. by rewrite app_nil_r.
    + simpl.
      destruct (BFS_paso_inv g Hok s prof _ _ _ _ _ _ Hinv) as (vis' & cola' & Hpaso & Hinv').
      rewrite Hpaso. simpl.
      apply BFS_paso_cola in Hpaso as [_ [nuevos ->]].
      destruct (IH l vis' (cola ++ nuevos) (res ++ [(u, l)]) Hinv')
        as (out & resto & Hrun & Hout & Hsort).
      { rewrite length_app. simpl. lia. }
      exists out, (nuevos ++ resto). split; [done|]. split.
      * rewrite Hout. rewrite <-!app_assoc. done.
      * intros Hres. apply Hsort. rewrite fmap_app. simpl.
        apply Sorted_le_snoc; [done|].
        intros y Hy. apply list_elem_of_fmap in Hy as ([v y'] & -> & Hin). simpl.
        destruct Hinv as (_ & _ & _ & _ & _ & HresL & HcolaL & _).
        pose proof (HresL v y' Hin).
        assert (L ≤ l ≤ L + 1) by (apply (HcolaL u l); by left). lia.
Qed.

(** X20.  On a well-formed graph the output of [BFS] from a valid start node
    begins with the start node at distance 0, and the distances never
    decrease along the output: the nodes come level by level. *)
Theorem BFS_orden (g : GrafoDisperso) (s prof : Z) (fuel : nat) :
  csr_ok g → 0 ≤ s < numNodos g →
  (Z.to_nat (numNodos g) ≤ fuel)%nat →
  ∃ resto, BFS fuel g s prof = Some ((s, 0) :: resto) ∧
           Sorted Z.le ((s, 0) :: resto).*2.
Proof.
  intros Hok Hs Hfuel. unfold BFS, nodo_invalido. rewrite decide_False by lia.
  destruct (bfs_inv_inicio g s prof Hs) as (vis & -> & Hinv). simpl.
  destruct (BFS_bucle_extiende g Hok s prof fuel 0 vis [(s, 0)] [] Hinv)
    as (out & resto & Hrun & Hout & Hsort); [simpl; lia|].
  simpl in Hout. subst out. exists resto. split; [done|].
  apply Hsort. constructor.
Qed.

Lemma BFS_orden_witness :
  csr_ok g_ejemplo ∧ 0 ≤ 0 < numNodos g_ejemplo ∧
  (Z.to_nat (numNodos g_ejemplo) ≤ 3)%nat ∧
  ∃ resto, BFS 3 g_ejemplo 0 1 = Some ((0, 0) :: resto) ∧
           Sorted Z.le ((0, 0) :: resto).*2.
Proof.
  split; [exact csr_ok_g_ejemplo|]. split; [simpl; lia|]. split; [simpl; lia|].
  apply (BFS_orden g_ejemplo 0 1 3); [exact csr_ok_g_ejemplo|simpl; lia|simpl; lia].
Defined.

(** What the final state of the [BFS] loop says of its output. *)
Lemma bfs_final_pertenece (g : GrafoDisperso) (Hok : csr_ok g) (s prof L : Z)
    (vis : list bool) (out : list (Z * Z)) :
  bfs_inv g s prof L [] vis [] out →
  NoDup out.*1 ∧
  (∀ v d, (v, d) ∈ out → distancia g s v d ∧ d ≤ Z.max prof 0) ∧
  (∀ v d, distancia g s v d → d ≤ prof → (v, d) ∈ out) ∧
  (∀ u l w, (u, l) ∈ out → l < prof → w ∈ vecinos g u → w ∈ out.*1).
Proof.
  intros Hinv.
  pose proof (λ v k, bfs_completo g s prof L vis out v k Hinv) as Hcomp.
  destruct Hinv as (Hlen & Hvis & Hnd & Hst & Hdist & Hres & Hcola & Hsort & HL & Hcl).
  rewrite app_nil_r in *.
  split; [done|]. split; [done|]. split.
  - intros v d Hd Hle.
    assert (v ∈ out.*1) as Hv by (apply (Hcomp v d); [by destruct Hd|done]).
    apply list_elem_of_fmap in Hv as ([v' l] & -> & Hin). simpl in *.
    destruct (Hdist _ _ Hin) as [Hd' _].
    by rewrite (distancia_unica g s v' d l Hd Hd').
  - intros u l w Hin Hl Hw. destruct (Hcl u l w Hin Hl Hw) as [?|[_ Hnil]]; [done|].
    by apply elem_of_nil in Hnil.
Qed.

(** X23.  On a well-formed graph and for a valid start node, the edges
    [getAristasSubgrafo] returns are exactly the edges that leave a node
    whose distance from the start node is below the depth bound: an
    edge out of a node at the bound itself is left out, and an edge into
    a node beyond the bound is there when its origin is below it. *)
Theorem getAristasSubgrafo_pertenencia (g : GrafoDisperso) (s prof : Z) (fuel : nat) :
  csr_ok g → 0 ≤ s < numNodos g →
  (Z.to_nat (numNodos g) ≤ fuel)%nat →
  ∃ out, getAristasSubgrafo fuel g s prof = Some out ∧
         ∀ u w, (u, w) ∈ out ↔
                (∃ l, distancia g s u l ∧ l < prof) ∧ w ∈ vecinos g u.
Proof.
  intros Hok Hs Hfuel. unfold getAristasSubgrafo, nodo_invalido.
  rewrite decide_False by lia.
  destruct (bfs_inv_inicio g s prof Hs) as (vis & Hvis & Hinv).
  destruct (sub_bucle_BFS g Hok prof s fuel 0 vis [(s, 0)] [] {[s]} Hinv)
    as (visita & L' & vis' & Hrun & Hfin & Hsub).
  { intros v. destruct Hinv as (_ & Hv & _). rewrite Hv. simpl. set_solver. }
  { simpl. lia. }
  simpl in Hsub. rewrite Hsub. eexists. split; [done|].
  destruct (bfs_final_pertenece g Hok s prof L' vis' visita Hfin)
    as (Hnd & Hdist & Hcomp & _).
  intros u w. rewrite list_elem_of_bind. split.
  - intros ([u' l] & Hin & Hx). unfold aristas_nodo in Hin. simpl in Hin.
    case_decide; [by apply elem_of_nil in Hin|].
    apply list_elem_of_fmap in Hin as (w' & Heq & Hw). injection Heq as -> ->.
    split; [|done]. exists l. split; [|lia]. by destruct (Hdist _ _ Hx).
  - intros [(l & Hd & Hl) Hw]. exists (u, l). split.
    + unfold aristas_nodo. simpl. rewrite decide_False by lia.
      apply list_elem_of_fmap. by exists w.
    + apply Hcomp; [done|lia].
Qed.

Lemma getAristasSubgrafo_pertenencia_witness :
  csr_ok g_ejemplo ∧ 0 ≤ 0 < numNodos g_ejemplo ∧
  (Z.to_nat (numNodos g_ejemplo) ≤ 3)%nat ∧
  ∃ out, getAristasSubgrafo 3 g_ejemplo 0 1 = Some out ∧
         ∀ u w, (u, w) ∈ out ↔
                (∃ l, distancia g_ejemplo 0 u l ∧ l < 1) ∧ w ∈ vecinos g_ejemplo u.
Proof.
  split; [exact csr_ok_g_ejemplo|]. split; [simpl; lia|]. split; [simpl; lia|].
  apply (getAristasSubgrafo_pertenencia g_ejemplo 0 1 3);
    [exact csr_ok_g_ejemplo|simpl; lia|simpl; lia].
Defined.

(** ** A larger depth bound extends the output of BFS *)

(** Once every queued node is at the depth bound, the loop only moves
    the queue to the output. *)
Lemma BFS_bucle_corta (g : GrafoDisperso) (prof : Z) (vis : list bool) :
  ∀ (cola res : list (Z * Z)) (fuel : nat),
    Forall (λ x, x.2 >= prof) cola → (length cola ≤ fuel)%nat →
    BFS_bucle fuel g prof vis cola res = Some (res ++ cola).
Proof.
  induction cola as [|[u l] cola IH]; intros res fuel Hall Hfuel.
  - destruct fuel; simpl; by rewrite app_nil_r.
  - apply Forall_cons in Hall as [Hl Hall]. simpl in Hl, Hfuel.
    destruct fuel as [|fuel]; [lia|]. simpl. unfold BFS_paso.
    rewrite decide_True by done. simpl.
    rewrite IH by (done || lia). by rewrite <-app_assoc.
Qed.

(** Below both bounds an iteration does not depend on the bound. *)
Lemma BFS_paso_bajo (g : GrafoDisperso) (d d' u l : Z) (vis : list bool)
    (cola res : list (Z * Z)) :
  l < d → l < d' →
  BFS_paso g d u l vis cola res = BFS_paso g d' u l vis cola res.
Proof. intros Hd Hd'. unfold BFS_paso. by rewrite !decide_False by lia. Qed.

Lemma BFS_bucle_prefijo (g : GrafoDisperso) (Hok : csr_ok g) (s d d' : Z) (fuel : nat) :
  d ≤ d' →
  ∀ L vis cola res,
    bfs_inv g s d L [] vis cola res →
    bfs_inv g s d' L [] vis cola res →
    (Z.to_nat (numNodos g) ≤ fuel + length res)%nat →
    ∃ out out', BFS_bucle fuel g d vis cola res = Some out ∧
                BFS_bucle fuel g d' vis cola res = Some out' ∧
                out `prefix_of` out'.
Proof.
  intros Hdd. induction fuel as [|fuel IH]; intros L vis cola res Hinv Hinv' Hfuel.
  - destruct cola as [|[u l] cola].
    + exists res, res. simpl. done.
    + exfalso. destruct Hinv as (Hl & Hvis & Hnd & _).
      assert (length (res ++ (u, l) :: cola).*1 ≤ Z.to_nat (numNodos g))%nat as Hlen.
      { apply NoDup_nodos_length; [done|].
        intros v Hv. apply Hvis, vget_lt in Hv. lia. }
      rewrite length_fmap, length_app in Hlen. simpl in *. lia.
  - destruct cola as [|[u l] cola].
    + exists res, res. simpl. done.
    + destruct (decide (l < d)) as [Hl|Hl].
      * simpl.
        destruct (BFS_paso_inv g Hok s d _ _ _ _ _ _ Hinv) as (vis1 & cola1 & Hp & Hi).
        destruct (BFS_paso_inv g Hok s d' _ _ _ _ _ _ Hinv') as (vis2 & cola2 & Hp' & Hi').
        rewrite (BFS_paso_bajo g d d') in Hp by lia.
        rewrite Hp in Hp'. injection Hp' as <- <-.
        rewrite (BFS_paso_bajo g d d') by lia. rewrite Hp. simpl.
        apply (IH l); [done|done|]. rewrite length_app. simpl. lia.
      * destruct (BFS_bucle_extiende g Hok s d' (S fuel) L vis ((u, l) :: cola) res Hinv' Hfuel)
          as (out' & resto & Hrun' & Hout' & _).
        exists (res ++ (u, l) :: cola), out'. split; [|split; [done|]].
        -- apply BFS_bucle_corta.
           ++ destruct Hinv as (_ & _ & _ & _ & _ & _ & _ & Hsort & _).
              apply Forall_forall. intros [v k] Hin. simpl.
              apply elem_of_cons in Hin as [Heq|Hin]; [injection Heq as -> ->; lia|].
              simpl in Hsort.
              assert (l ≤ k); [|lia].
              apply (Sorted_le_cons_inv cola.*2 l k Hsort).
              apply list_elem_of_fmap. by exists (v, k).
           ++ destruct Hinv as (Hl' & Hvis & Hnd & _).
              assert (length (res ++ (u, l) :: cola).*1 ≤ Z.to_nat (numNodos g))%nat as Hlen.
              { apply NoDup_nodos_length; [done|].
                intros v Hv. apply Hvis, vget_lt in Hv. lia. }
              rewrite length_fmap, length_app in Hlen. simpl in *. lia.
        -- rewrite Hout'. exists resto. by rewrite <-app_assoc.
Qed.

(** X21.  On a well-formed graph and for a valid start node, raising the depth
    bound only adds to the end of the output of [BFS]: the output for a
    bound [d] is a prefix of the output for any bound [d' >= d]. *)
Theorem BFS_prefijo_profundidad (g : GrafoDisperso) (s d d' : Z) (fuel : nat) :
  csr_ok g → 0 ≤ s < numNodos g → d ≤ d' →
  (Z.to_nat (numNodos g) ≤ fuel)%nat →
  ∃ out out', BFS fuel g s d = Some out ∧ BFS fuel g s d' = Some out' ∧
              out `prefix_of` out'.
Proof.
  intros Hok Hs Hdd Hfuel. unfold BFS, nodo_invalido. rewrite !decide_False by lia.
  destruct (bfs_inv_inicio g s d Hs) as (vis & Hvis & Hinv).
  destruct (bfs_inv_inicio g s d' Hs) as (vis' & Hvis' & Hinv').
  rewrite Hvis in Hvis'. injection Hvis' as <-. rewrite Hvis. simpl.
  apply (BFS_bucle_prefijo g Hok s d d' fuel Hdd 0); [done|done|simpl; lia].
Qed.

Lemma BFS_prefijo_profundidad_witness :
  csr_ok g_ejemplo ∧ 0 ≤ 0 < numNodos g_ejemplo ∧ 0 ≤ 1 ∧
  (Z.to_nat (numNodos g_ejemplo) ≤ 3)%nat ∧
  ∃ out out', BFS 3 g_ejemplo 0 0 = Some out ∧ BFS 3 g_ejemplo 0 1 = Some out' ∧
              out `prefix_of` out'.
Proof.
  split; [exact csr_ok_g_ejemplo|]. split; [simpl; lia|]. split; [lia|].
  split; [simpl; lia|].
  apply (BFS_prefijo_profundidad g_ejemplo 0 0 1 3);
    [exact csr_ok_g_ejemplo|simpl; lia|lia|simpl; lia].
Defined.

(** ** BFS without an effective bound, and DFS *)

(** In a final state of the loop, every level below one that occurs in
    the output occurs too. *)
Lemma niveles_contiguos (g : GrafoDisperso) (Hok : csr_ok g) (s prof L : Z)
    (vis : list bool) (out : list (Z * Z)) (v l : Z) :
  bfs_inv g s prof L [] vis [] out →
  (v, l) ∈ out → 0 < l → ∃ u, (u, l - 1) ∈ out.
Proof.
  intros Hinv Hin Hl.
  destruct (bfs_final_pertenece g Hok s prof L vis out Hinv) as (_ & Hdist & Hcomp & _).
  pose proof (λ v k, bfs_completo g s prof L vis out v k Hinv) as Halc.
  destruct (Hdist v l Hin) as [[Hc Hmin] Hle].
  inversion Hc as [|y w k Hy Hw Heq]; subst; [lia|].
  assert (y ∈ out.*1) as Hyout by (apply (Halc y k); [done|lia]).
  apply list_elem_of_fmap in Hyout as ([y' ly] & -> & Hyin). simpl in *.
  destruct (Hdist _ _ Hyin) as [[Hcy Hminy] _].
  pose proof (Hminy k Hy).
  pose proof (Hmin (ly + 1) (camino_S g s y' v ly Hcy Hw)).
  exists y'. by replace (k + 1 - 1) with ly by lia.
Qed.

(** A level that occurs in the output is below the node count. *)
Lemma nivel_acotado (g : GrafoDisperso) (Hok : csr_ok g) (s prof L : Z)
    (vis : list bool) (out : list (Z * Z)) (v l : Z) :
  bfs_inv g s prof L [] vis [] out →
  (v, l) ∈ out → l < numNodos g.
Proof.
  intros Hinv Hin.
  assert (∀ (n : nat) v l, Z.to_nat l = n → (v, l) ∈ out →
            ∃ sub, length sub = S n ∧ NoDup sub ∧ (∀ x, x ∈ sub → x ∈ out) ∧
                   (∀ x, x ∈ sub → x.2 ≤ l)) as Hsub.
  { induction n as [|n IH]; intros v0 l0 Hn Hin0.
    - exists [(v0, l0)]. split; [done|]. split; [apply NoDup_singleton|].
      split; intros x Hx; apply list_elem_of_singleton in Hx; subst; [done|simpl; lia].
    - destruct (niveles_contiguos g Hok s prof L vis out v0 l0 Hinv Hin0) as [u Hu]; [lia|].
      destruct (IH u (l0 - 1)) as (sub & Hlen & Hnd & Hsubout & Hniv); [lia|done|].
      exists ((v0, l0) :: sub). split; [simpl; lia|]. split.
      + constructor; [|done]. intros Hx. apply Hniv in Hx. simpl in Hx. lia.
      + split; intros x Hx; apply elem_of_cons in Hx as [->|Hx]; [done|by apply Hsubout|simpl; lia|].
        apply Hniv in Hx. lia. }
  destruct (Hsub (Z.to_nat l) v l eq_refl Hin) as (sub & Hlen & Hnd & Hsubout & _).
  assert (length sub ≤ length out)%nat as Hle
    by (apply submseteq_length, NoDup_submseteq; [done|exact Hsubout]).
  destruct Hinv as (Hl & Hvis & Hndout & _). rewrite app_nil_r in *.
  assert (length out.*1 ≤ Z.to_nat (numNodos g))%nat as Hn.
  { apply NoDup_nodos_length; [done|]. intros x Hx. apply Hvis, vget_lt in Hx. lia. }
  rewrite length_fmap in Hn. lia.
Qed.

(** The output of [DFS]: defined, duplicate-free, the reachable nodes. *)
Lemma DFS_alcanzables (g : GrafoDisperso) (s : Z) (fuel : nat) :
  csr_ok g → 0 ≤ s < numNodos g →
  (length (column_indices g) + 1 ≤ fuel)%nat →
  ∃ out, DFS fuel g s = Some out ∧ NoDup out ∧ (∀ v, v ∈ out ↔ alcanzable g s v).
Proof.
  intros Hok Hs Hfuel.
  pose proof (csr_ok_numNodos g Hok) as Hn0.
  set (n := S (Z.to_nat (numNodos g))).
  assert (marcas_de g (replicate (Z.to_nat (numNodos g)) false) []) as Hrel.
  { split; [rewrite length_replicate; lia|]. intros v. rewrite elem_of_nil.
    split; [|done]. rewrite vget_Some. intros [_ Hr].
    by apply lookup_replicate in Hr as [? _]. }
  assert (∀ x, x ∈ [s] → 0 ≤ x < numNodos g) as Hxs
    by (intros x; rewrite list_elem_of_singleton; by intros ->).
  assert (∀ v : Z, v ∈ [] → 0 ≤ v < numNodos g) as Hres
    by (intros v Hv; by apply elem_of_nil in Hv).
  assert (Z.to_nat (numNodos g) < n + length (@nil Z))%nat as Hn by (simpl; lia).
  destruct (dfs_recursivo_props g Hok n [s] [] (NoDup_nil_2) Hres Hxs Hn)
    as (out & Heq & Hnd & Hval & Hreach & Hin & Hcl).
  destruct (dfs_simula g Hok n [s] [] [] _ [] Hrel (NoDup_nil_2) Hres Hxs (λ v H, H) Hn)
    as (k & vis' & out' & Heq' & Hrel' & Hk & Hrun).
  assert (out' = out) as -> by (by rewrite Heq in Heq').
  simpl in *. exists out. split; [|split; [done|]].
  - unfold DFS, nodo_invalido. rewrite decide_False by lia.
    pose proof (peso_acotado g Hok out Hnd Hval).
    replace fuel with (k + (fuel - k))%nat by lia.
    rewrite (Hrun (fuel - k)%nat). by destruct (fuel - k)%nat.
  - intros v. split.
    + intros Hv. destruct (Hreach v Hv) as (x & Hx & Hxv).
      apply list_elem_of_singleton in Hx. by subst.
    + intros [k' Hk']. induction Hk' as [|y w k' _ IH Hw].
      * apply Hin. by left.
      * by apply (Hcl y).
Qed.

(** X22.  On a well-formed graph and for a valid start node, [BFS] with a
    depth bound of at least the node count and [DFS] visit the same
    nodes, each once: the nodes reachable from the start node.  The
    distances [BFS] reports are then all below the node count. *)
Theorem BFS_DFS_mismos_nodos (g : GrafoDisperso) (s prof : Z) (fuel fuel' : nat) :
  csr_ok g → 0 ≤ s < numNodos g → numNodos g ≤ prof →
  (Z.to_nat (numNodos g) ≤ fuel)%nat →
  (length (column_indices g) + 1 ≤ fuel')%nat →
  ∃ ancho hondo,
    BFS fuel g s prof = Some ancho ∧ DFS fuel' g s = Some hondo ∧
    ancho.*1 ≡ₚ hondo ∧
    (∀ v, v ∈ ancho.*1 ↔ alcanzable g s v) ∧
    (∀ v d, (v, d) ∈ ancho → distancia g s v d ∧ d < numNodos g).
Proof.
  intros Hok Hs Hprof Hfuel Hfuel'.
  destruct (BFS_termina g Hok s prof Hs fuel Hfuel) as (ancho & L & vis & Hrun & Hinv).
  destruct (DFS_alcanzables g s fuel' Hok Hs Hfuel') as (hondo & Hrun' & Hnd' & Halc').
  destruct (bfs_final_pertenece g Hok s prof L vis ancho Hinv) as (Hnd & Hdist & Hcomp & Hcl).
  exists ancho, hondo. split; [done|]. split; [done|].
  assert (∀ v, v ∈ ancho.*1 ↔ alcanzable g s v) as Halc.
  { intros v. split.
    - intros Hv. apply list_elem_of_fmap in Hv as ([v' l] & -> & Hin). simpl.
      exists l. by destruct (Hdist _ _ Hin) as [[? _] _].
    - intros [k Hk]. induction Hk as [|y w k _ IH Hw].
      + destruct Hinv as (_ & _ & _ & Hst & _). by rewrite app_nil_r in Hst.
      + apply list_elem_of_fmap in IH as ([y' l] & -> & Hin). simpl in *.
        apply (Hcl y' l); [done| |done].
        pose proof (nivel_acotado g Hok s prof L vis ancho y' l Hinv Hin). lia. }
  split; [|split; [done|]].
  - apply NoDup_Permutation; [done|done|]. intros v. by rewrite Halc, Halc'.
  - intros v d Hin. split; [by destruct (Hdist _ _ Hin)|].
    apply (nivel_acotado g Hok s prof L vis ancho v d Hinv Hin).
Qed.

Lemma BFS_DFS_mismos_nodos_witness :
  csr_ok g_ejemplo ∧ 0 ≤ 0 < numNodos g_ejemplo ∧ numNodos g_ejemplo ≤ 3 ∧
  (Z.to_nat (numNodos g_ejemplo) ≤ 3)%nat ∧
  (length (column_indices g_ejemplo) + 1 ≤ 5)%nat ∧
  ∃ ancho hondo,
    BFS 3 g_ejemplo 0 3 = Some ancho ∧ DFS 5 g_ejemplo 0 = Some hondo ∧
    ancho.*1 ≡ₚ hondo ∧
    (∀ v, v ∈ ancho.*1 ↔ alcanzable g_ejemplo 0 v) ∧
    (∀ v d, (v, d) ∈ ancho → distancia g_ejemplo 0 v d ∧ d < numNodos g_ejemplo).
Proof.
  split; [exact csr_ok_g_ejemplo|]. split; [simpl; lia|]. split; [simpl; lia|].
  split; [simpl; lia|]. split; [simpl; lia|].
  apply (BFS_DFS_mismos_nodos g_ejemplo 0 3 3 5);
    [exact csr_ok_g_ejemplo|simpl; lia|simpl; lia|simpl; lia|simpl; lia].
Defined.

(** ** Loads on an engine that holds no edge *)

Lemma vresize_constante (x n : Z) (v : list Z) :
  Forall (λ y, y = x) v → 0 ≤ n →
  vresize n x v = Some (replicate (Z.to_nat n) x).
Proof.
  intros Hv Hn. unfold vresize. rewrite decide_True by done. f_equal.
  assert (v = replicate (length v) x) as Hrep.
  { symmetry. apply replicate_as_Forall. split; [done|].
    eapply Forall_impl; [exact Hv|]. by intros y ->. }
  rewrite Hrep at 1. rewrite take_replicate, <-replicate_add. f_equal. lia.
Qed.

Lemma construirCSR_limpio (es : list (Z * Z)) (M : Z) (g : GrafoDisperso) :
  limpio g → construirCSR es M g = construirCSR es M GrafoDisperso_init.
Proof.
  intros (Hrp & Hge & Hci & Hval). unfold construirCSR.
  destruct (int_add M 1) as [nN|] eqn:HnN; [|done]. simpl.
  destruct (int_add nN 1) as [nN1|] eqn:HnN1; [|done]. simpl.
  assert (∀ (x n : Z) (v : list Z), Forall (λ y, y = x) v →
            vresize n x v = vresize n x []) as Hres.
  { intros x n v Hv. destruct (decide (0 ≤ n)).
    - rewrite (vresize_constante x n v) by done.
      by rewrite (vresize_constante x n []) by (done || constructor).
    - unfold vresize. by rewrite !decide_False by done. }
  rewrite (Hres 0 nN1 (row_ptr g) Hrp).
  destruct (vresize nN1 0 []) as [rp0|]; [|done]. simpl.
  rewrite (Hres 0 nN (gradoEntrada g) Hge).
  destruct (vresize nN 0 []) as [ge0|]; [|done]. simpl.
  destruct (foldM contar es _) as [[rp ge]|]; [|done]. simpl.
  destruct (foldM acumular _ rp) as [rp'|]; [|done]. simpl.
  rewrite (Hres 0 _ (column_indices g) Hci).
  destruct (vresize _ 0 []) as [ci0|]; [|done]. simpl.
  by rewrite (Hres 1 _ (values g) Hval).
Qed.

(** X11.  A load of a file that opens, on an engine that holds no edge (all
    counters zero), has the result it has on a freshly constructed
    engine, whatever node count the engine had. *)
Theorem cargarDatos_motor_limpio (fs : string → option string)
    (filename contenido : string) (g : GrafoDisperso) :
  limpio g → fs filename = Some contenido →
  cargarDatos fs filename g = cargarDatos fs filename GrafoDisperso_init.
Proof.
  intros Hg Hfs. unfold cargarDatos. rewrite Hfs.
  destruct (leer_aristas contenido) as [es M].
  by rewrite (construirCSR_limpio es M g Hg).
Qed.

Lemma cargarDatos_motor_limpio_witness :
  limpio g_sin_aristas ∧ fs_ejemplo "ejemplo.txt" = Some contenido_ejemplo ∧
  cargarDatos fs_ejemplo "ejemplo.txt" g_sin_aristas
  = cargarDatos fs_ejemplo "ejemplo.txt" GrafoDisperso_init.
Proof.
  assert (limpio g_sin_aristas) as H1 by (apply (bool_decide_unpack _); by vm_compute).
  assert (fs_ejemplo "ejemplo.txt" = Some contenido_ejemplo) as H2 by reflexivity.
  split; [exact H1|]. split; [exact H2|].
  exact (cargarDatos_motor_limpio fs_ejemplo "ejemplo.txt" contenido_ejemplo
           g_sin_aristas H1 H2).
Defined.

(** X12.  A file that opens and yields no edge (empty, or comments and lines
    that are not edges only) loads, on an engine that holds no edge, to
    the graph of the single node 0: one node, no edge, both degrees of
    node 0 are 0, it has no neighbour, no node of highest degree is
    reported, and every traversal from node 0 visits node 0 alone.  The
    engine still holds no edge afterwards. *)
Theorem cargarDatos_sin_aristas (fs : string → option string)
    (filename contenido : string) (g : GrafoDisperso) :
  limpio g → fs filename = Some contenido →
  (leer_aristas contenido).1 = [] →
  ∃ g', cargarDatos fs filename g = Some (true, g') ∧ limpio g' ∧
        getNumNodos g' = 1 ∧ getNumAristas g' = 0 ∧
        obtenerGrado g' 0 = Some 0 ∧ obtenerGradoEntrada g' 0 = Some 0 ∧
        getVecinos g' 0 = Some [] ∧ getNodoMayorGrado g' = Some (-1, 0) ∧
        ∀ fuel prof, BFS (S fuel) g' 0 prof = Some [(0, 0)] ∧
                     DFS (S fuel) g' 0 = Some [0] ∧
                     getAristasSubgrafo (S fuel) g' 0 prof = Some [].
Proof.
  intros Hg Hfs Hes. exists g_sin_aristas. split.
  - unfold cargarDatos. rewrite Hfs.
    pose proof (leer_aristas_lineas contenido) as Hleer.
    destruct (leer_aristas contenido) as [es M]. simpl in Hes. subst es.
    injection Hleer as Hes HM. rewrite <-Hes in HM. subst M.
    rewrite (construirCSR_limpio [] (maxNodo_de []) g Hg). reflexivity.
  - split; [apply (bool_decide_unpack _); by vm_compute|].
    do 6 (split; [reflexivity|]).
    intros fuel prof. unfold BFS, DFS, getAristasSubgrafo. simpl.
    unfold BFS_paso, sub_paso. simpl.
    destruct (decide (0 >= prof)); destruct fuel; done.
Qed.

Lemma cargarDatos_sin_aristas_witness :
  limpio GrafoDisperso_init ∧
  fs_ejemplo "comentarios.txt" = Some contenido_comentarios ∧
  (leer_aristas contenido_comentarios).1 = [] ∧
  ∃ g', cargarDatos fs_ejemplo "comentarios.txt" GrafoDisperso_init = Some (true, g') ∧
        limpio g' ∧
        getNumNodos g' = 1 ∧ getNumAristas g' = 0 ∧
        obtenerGrado g' 0 = Some 0 ∧ obtenerGradoEntrada g' 0 = Some 0 ∧
        getVecinos g' 0 = Some [] ∧ getNodoMayorGrado g' = Some (-1, 0) ∧
        ∀ fuel prof, BFS (S fuel) g' 0 prof = Some [(0, 0)] ∧
                     DFS (S fuel) g' 0 = Some [0] ∧
                     getAristasSubgrafo (S fuel) g' 0 prof = Some [].
Proof.
  assert (limpio GrafoDisperso_init) as H1 by (apply (bool_decide_unpack _); by vm_compute).
  assert (fs_ejemplo "comentarios.txt" = Some contenido_comentarios) as H2 by reflexivity.
  assert ((leer_aristas contenido_comentarios).1 = []) as H3 by reflexivity.
  split; [exact H1|]. split; [exact H2|]. split; [exact H3|].
  exact (cargarDatos_sin_aristas fs_ejemplo "comentarios.txt" contenido_comentarios
           GrafoDisperso_init H1 H2 H3).
Defined.

(** ** The queries after a first load *)

Lemma cuenta_origen_positiva (es : list (Z * Z)) (e : Z * Z) :
  e ∈ es → 0 < cuenta_origen es e.1.
Proof.
  intros He. unfold cuenta_origen.
  assert (e ∈ filter (λ x : Z * Z, x.1 = e.1) es) as Hin
    by (apply list_elem_of_filter; by split).
  destruct (filter _ es); [by apply elem_of_nil in Hin|simpl; lia].
Qed.

(** X5.  After a load, on a freshly constructed engine, of a file with at
    least one edge, [getNodoMayorGrado] returns a node of the graph and
    the number of edges of the file that leave it; no node has more
    outgoing edges in the file, and every node with a lower id has
    fewer. *)
Theorem primera_carga_mayor_grado (fs : string → option string)
    (filename contenido : string) :
  let es := (leer_aristas contenido).1 in
  let M := (leer_aristas contenido).2 in
  fs filename = Some contenido →
  Forall (λ e, 0 ≤ e.1 ∧ 0 ≤ e.2) es →
  M ≤ INT_MAX - 2 →
  Z.of_nat (length es) ≤ INT_MAX →
  es ≠ [] →
  ∃ g nodoMax maxGrado,
    cargarDatos fs filename GrafoDisperso_init = Some (true, g) ∧
    getNodoMayorGrado g = Some (nodoMax, maxGrado) ∧
    0 ≤ nodoMax < getNumNodos g ∧
    0 < maxGrado ∧ maxGrado = cuenta_origen es nodoMax ∧
    (∀ u, 0 ≤ u < getNumNodos g → cuenta_origen es u ≤ maxGrado) ∧
    (∀ u, 0 ≤ u < nodoMax → cuenta_origen es u < maxGrado).
Proof.
  intros es M Hfs Hpos HM HE Hne.
  destruct (cargarDatos_fresco fs filename contenido Hfs Hpos HM HE)
    as (g & Hrun & Hg & Hok).
  assert (numNodos g = M + 1) as HnN by (by destruct Hg as (? & _)).
  assert (∀ u, 0 ≤ u < numNodos g → obtenerGrado g u = Some (cuenta_origen es u)) as Hgr.
  { intros u Hu. apply (csr_de_grados es M g Hg). lia. }
  assert (M = maxNodo_de es) as HMes.
  { unfold M, es. by rewrite (leer_aristas_lineas contenido). }
  assert (∃ e, e ∈ es) as [e He].
  { unfold es in *. destruct (leer_aristas contenido).1 as [|e l]; [done|].
    exists e. by left. }
  assert (0 ≤ e.1 < numNodos g) as Hev.
  { rewrite Forall_forall in Hpos. destruct (Hpos e He) as [? _].
    destruct (maxNodo_de_cota es 0) as [_ Hcota]. rewrite Forall_forall in Hcota.
    destruct (Hcota e He) as [Hle _]. fold (maxNodo_de es) in Hle. lia. }
  destruct (getNodoMayorGrado_inv g) as (nodoMax & maxGrado & Hmayor & Hall & Hcaso).
  { intros _. by destruct Hok as (? & _). }
  exists g, nodoMax, maxGrado. unfold getNumNodos.
  split; [done|]. split; [done|].
  assert (∀ u, 0 ≤ u < numNodos g → cuenta_origen es u ≤ maxGrado) as Hcota.
  { intros u Hu. destruct (Hall u Hu) as (d & Hd & Hle).
    rewrite (Hgr u Hu) in Hd. injection Hd as <-. done. }
  pose proof (cuenta_origen_positiva es e He) as Hpose.
  pose proof (Hcota e.1 Hev) as Hcotae.
  destruct Hcaso as [[-> ->]|(Hn & Hd & Hgn & Hmenor)]; [lia|].
  split; [done|]. split; [done|]. split.
  - rewrite (Hgr nodoMax Hn) in Hgn. by injection Hgn.
  - split; [done|]. intros u Hu. destruct (Hmenor u Hu) as (d & Hgd & Hlt).
    rewrite (Hgr u) in Hgd by lia. injection Hgd as <-. done.
Qed.

Lemma primera_carga_mayor_grado_witness :
  fs_ejemplo "ejemplo.txt" = Some contenido_ejemplo ∧
  Forall (λ e, 0 ≤ e.1 ∧ 0 ≤ e.2) (leer_aristas contenido_ejemplo).1 ∧
  (leer_aristas contenido_ejemplo).2 ≤ INT_MAX - 2 ∧
  Z.of_nat (length (leer_aristas contenido_ejemplo).1) ≤ INT_MAX ∧
  (leer_aristas contenido_ejemplo).1 ≠ [] ∧
  ∃ g nodoMax maxGrado,
    cargarDatos fs_ejemplo "ejemplo.txt" GrafoDisperso_init = Some (true, g) ∧
    getNodoMayorGrado g = Some (nodoMax, maxGrado) ∧
    0 ≤ nodoMax < getNumNodos g ∧
    0 < maxGrado ∧ maxGrado = cuenta_origen (leer_aristas contenido_ejemplo).1 nodoMax ∧
    (∀ u, 0 ≤ u < getNumNodos g →
       cuenta_origen (leer_aristas contenido_ejemplo).1 u ≤ maxGrado) ∧
    (∀ u, 0 ≤ u < nodoMax →
       cuenta_origen (leer_aristas contenido_ejemplo).1 u < maxGrado).
Proof.
  destruct ejemplo_hipotesis as (H1 & H2 & H3 & H4).
  assert ((leer_aristas contenido_ejemplo).1 ≠ []) as H5 by (by vm_compute).
  split; [exact H1|]. split; [exact H2|]. split; [exact H3|]. split; [exact H4|].
  split; [exact H5|].
  exact (primera_carga_mayor_grado fs_ejemplo "ejemplo.txt" contenido_ejemplo
           H1 H2 H3 H4 H5).
Defined.

Lemma cargarDatos_csr_ok_witness :
  cargarDatos fs_ejemplo "ejemplo.txt" GrafoDisperso_init = Some (true, g_ejemplo) ∧
  (∀ contenido, fs_ejemplo "ejemplo.txt" = Some contenido →
     Z.of_nat (length (leer_aristas contenido).1) ≤ INT_MAX) ∧
  csr_ok g_ejemplo.
Proof.
  assert (cargarDatos fs_ejemplo "ejemplo.txt" GrafoDisperso_init = Some (true, g_ejemplo))
    as H1 by reflexivity.
  assert (∀ contenido, fs_ejemplo "ejemplo.txt" = Some contenido →
            Z.of_nat (length (leer_aristas contenido).1) ≤ INT_MAX) as H2.
  { intros contenido Hc. injection Hc as <-. by vm_compute. }
  split; [exact H1|]. split; [exact H2|].
  exact (cargarDatos_csr_ok fs_ejemplo "ejemplo.txt" g_ejemplo H1 H2).
Defined.

(** ** Depth bound 1 *)

Lemma camino_cero (g : GrafoDisperso) (s v : Z) : camino g s v 0 → v = s.
Proof.
  intros Hc. inversion Hc as [|y w k Hy Hw Heq]; [done|].
  pose proof (camino_nonneg g s y k Hy). lia.
Qed.

Lemma camino_uno (g : GrafoDisperso) (s v d : Z) :
  camino g s v d → d = 1 → v ∈ vecinos g s.
Proof.
  intros Hc Hd. destruct Hc as [|y w k Hy Hw]; [lia|].
  assert (k = 0) as -> by lia. apply camino_cero in Hy. by subst.
Qed.

Lemma bind_vacio {A B} (f : A → list B) (l : list A) :
  (∀ x, x ∈ l → f x = []) → l ≫= f = [].
Proof.
  induction l as [|x l IH]; intros Hf; [done|].
  change ((x :: l) ≫= f) with (f x ++ (l ≫= f)).
  rewrite Hf by (by left). rewrite IH; [done|]. intros y Hy. apply Hf. by right.
Qed.

(** X19.  On a well-formed graph and for a valid start node, [BFS] with depth
    bound 1 visits the start node and its neighbours and nothing else,
    and [getAristasSubgrafo] with depth bound 1 returns the outgoing
    edges of the start node, in the order [getVecinos] lists its
    neighbours. *)
Theorem profundidad_uno (g : GrafoDisperso) (s : Z) (fuel : nat) :
  csr_ok g → 0 ≤ s < numNodos g →
  (Z.to_nat (numNodos g) ≤ fuel)%nat →
  ∃ visita vecinos_s,
    BFS fuel g s 1 = Some visita ∧ getVecinos g s = Some vecinos_s ∧
    (∀ v, v ∈ visita.*1 ↔ v = s ∨ v ∈ vecinos_s) ∧
    getAristasSubgrafo fuel g s 1 = Some (pair s <$> vecinos_s).
Proof.
  intros Hok Hs Hfuel. unfold BFS, getAristasSubgrafo, nodo_invalido.
  rewrite !decide_False by lia.
  destruct (bfs_inv_inicio g s 1 Hs) as (vis & Hvis & Hinv). rewrite Hvis. simpl.
  destruct (sub_bucle_BFS g Hok 1 s fuel 0 vis [(s, 0)] [] {[s]} Hinv)
    as (visita & L' & vis' & Hrun & Hfin & Hsub).
  { intros v. destruct Hinv as (_ & Hv & _). rewrite Hv. simpl. set_solver. }
  { simpl. lia. }
  destruct (BFS_bucle_extiende g Hok s 1 fuel 0 vis [(s, 0)] [] Hinv)
    as (visita' & resto & Hrun' & Hout & Hsort); [simpl; lia|].
  rewrite Hrun in Hrun'. injection Hrun' as <-. simpl in Hout.
  destruct (bfs_final_pertenece g Hok s 1 L' vis' visita Hfin)
    as (Hnd & Hdist & Hcomp & Hcl).
  destruct (obtenerGrado_vecinos g s Hok Hs) as [Hvec _].
  exists visita, (vecinos g s). split; [done|]. split; [done|]. split.
  - intros v. split.
    + intros Hv. apply list_elem_of_fmap in Hv as ([v' d] & -> & Hin). simpl.
      destruct (Hdist _ _ Hin) as [[Hc _] Hd].
      pose proof (camino_nonneg g s v' d Hc).
      destruct (decide (d = 0)) as [->|Hd0]; [left; by apply (camino_cero g)|].
      right. apply (camino_uno g s v' d Hc). lia.
    + intros [->|Hv].
      * rewrite Hout. by left.
      * apply (Hcl s 0); [rewrite Hout; by left|lia|done].
  - simpl in Hsub. rewrite Hsub. f_equal. rewrite Hout.
    change (((s, 0) :: resto) ≫= aristas_nodo g 1)
      with (aristas_nodo g 1 (s, 0) ++ (resto ≫= aristas_nodo g 1)).
    rewrite bind_vacio.
    + rewrite app_nil_r. reflexivity.
    + intros [v d] Hin. unfold aristas_nodo. simpl.
      rewrite decide_True; [done|].
      assert ((v, d) ∈ visita) as Hin' by (rewrite Hout; by right).
      destruct (Hdist _ _ Hin') as [[Hc _] _].
      pose proof (camino_nonneg g s v d Hc).
      destruct (decide (d = 0)) as [->|Hd0]; [|lia]. exfalso.
      apply camino_cero in Hc. subst v. rewrite Hout in Hnd.
      rewrite fmap_cons in Hnd. apply NoDup_cons in Hnd as [Hno _]. apply Hno.
      apply list_elem_of_fmap. by exists (s, 0).
Qed.

Lemma profundidad_uno_witness :
  csr_ok g_ejemplo ∧ 0 ≤ 0 < numNodos g_ejemplo ∧
  (Z.to_nat (numNodos g_ejemplo) ≤ 3)%nat ∧
  ∃ visita vecinos_s,
    BFS 3 g_ejemplo 0 1 = Some visita ∧ getVecinos g_ejemplo 0 = Some vecinos_s ∧
    (∀ v, v ∈ visita.*1 ↔ v = 0 ∨ v ∈ vecinos_s) ∧
    getAristasSubgrafo 3 g_ejemplo 0 1 = Some (pair 0 <$> vecinos_s).
Proof.
  split; [exact csr_ok_g_ejemplo|]. split; [simpl; lia|]. split; [simpl; lia|].
  apply (profundidad_uno g_ejemplo 0 3); [exact csr_ok_g_ejemplo|simpl; lia|simpl; lia].
Defined.
